(** * KloudyKare conversational intake: policy classifier, PHI guard,
      field extractor, profile scoring and question selection.

    Shallow embedding of
      - [classifyContent], [detectPHI], [redactPHI]   (MCP server),
      - [extractInformationFromSMS], [determineConversationStage]
                                                      (routes/notifications.js),
      - [updateProfileData], [calculateCompletionPercentage],
        [getMissingProfileInfo], [generateNextQuestions]  (ProfileService),
      - the [/process] route and [processThroughMCP]      (MCP server),
      - [checkMCPGuardrails], [generateAIResponse], [processSMSMessage]
                                                      (routes/notifications.js),
      - [createOrUpdateProfileFromSMS], [updateProfileMetrics]
                                                      (ProfileService),
      - [getFeatureFlags], [isFeatureEnabled], [requireFeature],
        [getEnabledFeatures], [getComingSoonFeatures],
        [getClientFeatureConfig]                      (config/flags.js).

    JavaScript strings are sequences of UTF-16 code units; they are modelled
    as [list N].  Regular expressions are modelled by a small backtracking
    matcher with the priorities of the ECMAScript algorithm (greedy
    quantifiers, ordered alternation), restricted to the constructs the
    source uses. *)

From Stdlib Require Import List ZArith NArith Lia Bool String Ascii Sorted.
From stdpp Require Import gmap strings.
Import ListNotations.

Local Open Scope N_scope.

(** ** JavaScript strings *)

Module JS.

Definition jsstring := list N.

(** A source literal, read as its code units (all literals of the program
    are ASCII). *)
Definition str (s : string) : jsstring :=
  map N_of_ascii (list_ascii_of_string s).

Definition between (lo hi c : N) : bool := (lo <=? c) && (c <=? hi).

Definition isDigit (c : N) : bool := between 48 57 c.
Definition isUpper (c : N) : bool := between 65 90 c.
Definition isLower (c : N) : bool := between 97 122 c.
Definition isAlpha (c : N) : bool := isUpper c || isLower c.

(** [\w] of a non-unicode regular expression: [A-Za-z0-9_]. *)
Definition isWordChar (c : N) : bool := isAlpha c || isDigit c || (c =? 95).

(** WhiteSpace and LineTerminator code points: [\s], and what [trim] strips. *)
Definition isSpace (c : N) : bool :=
  between 9 13 c || (c =? 32) || (c =? 160) || (c =? 5760)
  || between 8192 8202 c || (c =? 8232) || (c =? 8233) || (c =? 8239)
  || (c =? 8287) || (c =? 12288) || (c =? 65279).

Definition oneOf (s : string) (c : N) : bool := existsb (N.eqb c) (str s).

(** [String.prototype.toLowerCase], exact on Basic Latin and Latin-1
    (code units below 256); other code units are left as they are. *)
Definition lowerUnit (c : N) : N :=
  if isUpper c then c + 32
  else if between 192 222 c && negb (c =? 215) then c + 32
  else c.

Definition toLowerCase (s : jsstring) : jsstring := map lowerUnit s.

Fixpoint startsWith (k s : jsstring) : bool :=
  match k, s with
  | [], _ => true
  | _ :: _, [] => false
  | a :: k', b :: s' => (a =? b) && startsWith k' s'
  end.

(** [s.includes(k)]: [k] occurs in [s] as a contiguous substring. *)
Fixpoint includes (s k : jsstring) : bool :=
  startsWith k s ||
  match s with
  | [] => false
  | _ :: s' => includes s' k
  end.

Definition dropWhile {A} (p : A -> bool) : list A -> list A :=
  fix go l := match l with
              | [] => []
              | x :: l' => if p x then go l' else l
              end.

(** [s.trim()] *)
Definition trim (s : jsstring) : jsstring :=
  rev (dropWhile isSpace (rev (dropWhile isSpace s))).

(** [s.split(sep)] for a one-unit separator: the pieces between separators,
    empty pieces included; always at least one piece. *)
Fixpoint split (sep : N) (s : jsstring) : list jsstring :=
  match s with
  | [] => [[]]
  | c :: s' =>
      if c =? sep then [] :: split sep s'
      else match split sep s' with
           | [] => [[c]]
           | p :: ps => (c :: p) :: ps
           end
  end.

(** [parts.join(sep)] *)
Fixpoint join (sep : jsstring) (parts : list jsstring) : jsstring :=
  match parts with
  | [] => []
  | [p] => p
  | p :: ps => p ++ sep ++ join sep ps
  end.

(** [parseInt] on a run of decimal digits. *)
Definition parseDigits (s : jsstring) : Z :=
  fold_left (fun acc c => (10 * acc + Z.of_N (c - 48))%Z) s 0%Z.

End JS.

Export JS.

(** ** Regular expressions *)

Module Regex.

(** The fragment of the pattern language the program uses.  Every quantifier
    of the source applies to a single character class, except one optional
    non-capturing group. *)
Inductive regex : Type :=
| Eps
| Chars (c : N -> bool) (lo : nat) (hi : option nat)  (* c{lo,hi}, greedy *)
| WordB                                               (* \b *)
| Seq (r1 r2 : regex)
| Alt (r1 r2 : regex)                                 (* r1|r2 *)
| Opt (r : regex)                                     (* (?:r)? *)
| Group (n : nat) (r : regex).                        (* n-th capturing group *)

Definition one (c : N -> bool) : regex := Chars c 1 (Some 1%nat).
Definition opt (c : N -> bool) : regex := Chars c 0 (Some 1%nat).
Definition plus (c : N -> bool) : regex := Chars c 1 None.
Definition star (c : N -> bool) : regex := Chars c 0 None.
Definition rep (c : N -> bool) (n : nat) : regex := Chars c n (Some n).
Definition repr (c : N -> bool) (lo hi : nat) : regex := Chars c lo (Some hi).

Definition chr (s : string) : N -> bool := oneOf s.

(** Canonicalisation of the [i] flag (non-unicode): upper-casing, which never
    maps a code unit outside Basic Latin into it; the patterns' literals are
    ASCII, so only ASCII letters are folded. *)
Definition canon (c : N) : N := if isLower c then c - 32 else c.

Fixpoint seqs (rs : list regex) : regex :=
  match rs with
  | [] => Eps
  | [r] => r
  | r :: rs' => Seq r (seqs rs')
  end.

(** A literal, case-sensitive and under the [i] flag. *)
Definition lit (s : string) : regex :=
  seqs (map (fun ch => one (N.eqb ch)) (str s)).
Definition liti (s : string) : regex :=
  seqs (map (fun ch => one (fun c => canon c =? canon ch)) (str s)).

Fixpoint alts (rs : list regex) : regex :=
  match rs with
  | [] => Eps
  | [r] => r
  | r :: rs' => Alt r (alts rs')
  end.

Definition isWordO (o : option N) : bool :=
  match o with Some c => isWordChar c | None => false end.

Definition captures := list (nat * jsstring).

Fixpoint capture (n : nat) (caps : captures) : jsstring :=
  match caps with
  | [] => []
  | (m, s) :: caps' => if Nat.eqb m n then s else capture n caps'
  end.

Section Matcher.
Context {A : Type}.

(** Greedy [c{lo,hi}]: take as many units as allowed, give back one at a
    time when the continuation fails.  [prev] is the unit before the
    current position, needed by [\b]. *)
Fixpoint chars_greedy (c : N -> bool) (lo : nat) (hi : option nat)
    (prev : option N) (s : jsstring)
    (k : option N -> jsstring -> option A) {struct s} : option A :=
  let stop := match lo with O => k prev s | S _ => None end in
  match s with
  | [] => stop
  | x :: s' =>
      if c x && negb (match hi with Some O => true | _ => false end) then
        match chars_greedy c (Nat.pred lo) (option_map Nat.pred hi)
                (Some x) s' k with
        | Some a => Some a
        | None => stop
        end
      else stop
  end.

Fixpoint run (r : regex) (prev : option N) (s : jsstring) (caps : captures)
    (k : option N -> jsstring -> captures -> option A) : option A :=
  match r with
  | Eps => k prev s caps
  | Chars c lo hi => chars_greedy c lo hi prev s (fun p s' => k p s' caps)
  | WordB =>
      if xorb (isWordO prev) (isWordO (head s)) then k prev s caps else None
  | Seq r1 r2 =>
      run r1 prev s caps (fun p s' caps' => run r2 p s' caps' k)
  | Alt r1 r2 =>
      match run r1 prev s caps k with
      | Some a => Some a
      | None => run r2 prev s caps k
      end
  | Opt r1 =>
      match run r1 prev s caps k with
      | Some a => Some a
      | None => k prev s caps
      end
  | Group n r1 =>
      run r1 prev s caps
        (fun p s' caps' =>
           k p s' ((n, firstn (length s - length s') s) :: caps'))
  end.
End Matcher.

(** One attempt at the current position: the rest of the input after the
    match, and the captures. *)
Definition matchAt (r : regex) (prev : option N) (s : jsstring)
  : option (jsstring * captures) :=
  run r prev s [] (fun _ s' caps => Some (s', caps)).

(** [s.match(r)] without the [g] flag (and [r.exec(s)]): the leftmost match;
    the matched text and the captures. *)
Fixpoint search (r : regex) (prev : option N) (s : jsstring)
  : option (jsstring * captures) :=
  match matchAt r prev s with
  | Some (rest, caps) => Some (firstn (length s - length rest) s, caps)
  | None =>
      match s with
      | [] => None
      | x :: s' => search r (Some x) s'
      end
  end.

(** [s.match(r)] with the [g] flag: all successive matches, left to right.
    [skip] counts the units of the last match still to be passed over; an
    empty match advances by one unit. *)
Fixpoint matchAll (r : regex) (skip : nat) (prev : option N) (s : jsstring)
  : list jsstring :=
  match s with
  | [] =>
      match skip, matchAt r prev [] with
      | O, Some _ => [[]]
      | _, _ => []
      end
  | x :: s' =>
      match skip with
      | S n => matchAll r n (Some x) s'
      | O =>
          match matchAt r prev s with
          | Some (rest, _) =>
              let len := (length s - length rest)%nat in
              firstn len s :: matchAll r (Nat.pred len) (Some x) s'
          | None => matchAll r O (Some x) s'
          end
      end
  end.

(** [s.replace(r, template)] with the [g] flag; [tmpl] builds the replacement
    from the captures. *)
Fixpoint replaceAll (r : regex) (tmpl : captures -> jsstring) (skip : nat)
    (prev : option N) (s : jsstring) : jsstring :=
  match s with
  | [] =>
      match skip, matchAt r prev [] with
      | O, Some (_, caps) => tmpl caps
      | _, _ => []
      end
  | x :: s' =>
      match skip with
      | S n => replaceAll r tmpl n (Some x) s'
      | O =>
          match matchAt r prev s with
          | Some (rest, caps) =>
              match (length s - length rest)%nat with
              | O => tmpl caps ++ x :: replaceAll r tmpl O (Some x) s'
              | S n => tmpl caps ++ replaceAll r tmpl n (Some x) s'
              end
          | None => x :: replaceAll r tmpl O (Some x) s'
          end
      end
  end.

End Regex.

Export Regex.

(** ** PHI detection and redaction (MCP server) *)

Module PhiGuard.

(** [[A-Za-z0-9._%+-]] *)
Definition localClass (c : N) : bool := isAlpha c || isDigit c || oneOf "._%+-" c.
(** [[A-Za-z0-9.-]] *)
Definition domainClass (c : N) : bool := isAlpha c || isDigit c || oneOf ".-" c.
(** [[A-Z|a-z]] *)
Definition tldClass (c : N) : bool := isAlpha c || oneOf "|" c.

(** [/\b\d{3}-\d{2}-\d{4}\b/g] *)
Definition ssnPattern : regex :=
  seqs [WordB; rep isDigit 3; one (chr "-"); rep isDigit 2; one (chr "-");
        rep isDigit 4; WordB].

(** [/\b\d{4}\s?\d{4}\s?\d{4}\s?\d{4}\b/g] *)
Definition cardPattern : regex :=
  seqs [WordB; rep isDigit 4; opt isSpace; rep isDigit 4; opt isSpace;
        rep isDigit 4; opt isSpace; rep isDigit 4; WordB].

(** [/\b[A-Za-z0-9._%+-]+@[A-Za-z0-9.-]+\.[A-Z|a-z]{2,}\b/g] *)
Definition emailPattern : regex :=
  seqs [WordB; plus localClass; one (chr "@"); plus domainClass; one (chr ".");
        Chars tldClass 2 None; WordB].

(** [/\b\d{10,11}\b/g] *)
Definition phonePattern : regex :=
  seqs [WordB; repr isDigit 10 11; WordB].

(** [/\b\d{1,2}\/\d{1,2}\/\d{2,4}\b/g] *)
Definition datePattern : regex :=
  seqs [WordB; repr isDigit 1 2; one (chr "/"); repr isDigit 1 2; one (chr "/");
        repr isDigit 2 4; WordB].

Definition phiPatterns : list regex :=
  [ssnPattern; cardPattern; emailPattern; phonePattern; datePattern].

Definition phiTypes : list string :=
  ["ssn"; "credit_card"; "email"; "phone"; "date"]%string.

Record detection := { type : string; matches : list jsstring }.

(** [detectPHI]: one entry per pattern that matches, in pattern order. *)
Definition detectPHI (text : jsstring) : list detection :=
  flat_map
    (fun '(ty, pattern) =>
       match matchAll pattern 0 None text with
       | [] => []                       (* [text.match] returned null *)
       | ms => [{| type := ty; matches := ms |}]
       end)
    (combine phiTypes phiPatterns).

(** [/\b(\d{3})-(\d{2})-(\d{4})\b/g] *)
Definition ssnMask : regex :=
  seqs [WordB; Group 1 (rep isDigit 3); one (chr "-"); Group 2 (rep isDigit 2);
        one (chr "-"); Group 3 (rep isDigit 4); WordB].

(** [/\b(\d{3})-?(\d{3})-?(\d{4})\b/g] *)
Definition phoneMask : regex :=
  seqs [WordB; Group 1 (rep isDigit 3); opt (chr "-"); Group 2 (rep isDigit 3);
        opt (chr "-"); Group 3 (rep isDigit 4); WordB].

(** [/\b([A-Za-z])[A-Za-z0-9._%+-]*@([A-Za-z0-9.-]+\.[A-Z|a-z]{2,})\b/g] *)
Definition emailMask : regex :=
  seqs [WordB; Group 1 (one isAlpha); star localClass; one (chr "@");
        Group 2 (seqs [plus domainClass; one (chr "."); Chars tldClass 2 None]);
        WordB].

Definition REDACTED : jsstring := str "[REDACTED]".

Definition replace (r : regex) (tmpl : captures -> jsstring) (s : jsstring)
  : jsstring :=
  replaceAll r tmpl 0 None s.

(** [redactPHI(text, mode)]; a mode that is neither of the two leaves the
    text as it is. *)
Definition redactPHI (text : jsstring) (mode : string) : jsstring :=
  if String.eqb mode "mask_partial" then
    let redacted := replace ssnMask (fun caps => str "XXX-XX-" ++ capture 3 caps) text in
    let redacted := replace phoneMask (fun caps => str "XXX-XXX-" ++ capture 3 caps) redacted in
    replace emailMask
      (fun caps => capture 1 caps ++ str "***@" ++ capture 2 caps) redacted
  else if String.eqb mode "full_redact" then
    fold_left (fun redacted pattern => replace pattern (fun _ => REDACTED) redacted)
      phiPatterns text
  else text.

End PhiGuard.

Export PhiGuard.

(** ** JavaScript values *)

Module Values.

(** The values that reach the pipeline: a JSON request body, the extracted
    fragment and the columns of a profile row. *)
Inductive value : Type :=
| VUndefined
| VNull
| VBool (b : bool)
| VNum (z : Z)
| VStr (s : jsstring)
| VArr (l : list jsstring)
| VDate (t : Z).

(** ToBoolean *)
Definition truthy (v : value) : bool :=
  match v with
  | VUndefined | VNull => false
  | VBool b => b
  | VNum z => negb (z =? 0)%Z
  | VStr s => match s with [] => false | _ => true end
  | VArr _ | VDate _ => true
  end.

Definition isEmpty (s : jsstring) : bool :=
  match s with [] => true | _ => false end.

(** [v.toString().trim()] is a non-empty string.  The decimal form of a
    number, [true]/[false] and the text of a date are never blank; an array
    prints as its elements joined by commas.  ([null] and [undefined] have no
    [toString]; every caller tests truthiness first.) *)
Definition nonBlank (v : value) : bool :=
  match v with
  | VUndefined | VNull => false
  | VBool _ | VNum _ | VDate _ => true
  | VStr s => negb (isEmpty (trim s))
  | VArr l => negb (isEmpty (trim (join (str ",") l)))
  end.

(** Result of a call that may throw. *)
Inductive outcome (A : Type) : Type :=
| Returned (a : A)
| Threw (error : string).
Arguments Returned {A} a.
Arguments Threw {A} error.

End Values.

Export Values.

(** ** Content classification (MCP server) *)

Module Classifier.

Record classification := {
  category : string;
  action : string;
  priority : string
}.

(** The parts of [policy.yaml] that [classifyContent] reads. *)
Record emergencyHandling := {
  keywords : list jsstring;
  response : jsstring
}.

Record allowedDomains := {
  primary_services : list jsstring;
  administrative : list jsstring;
  informational : list jsstring
}.

(** The two sections the [/process] route reads besides: the settings it
    passes on with a "process" answer, and the redaction mode of its log. *)
Record aiModelConfig := {
  response_guidelines : value;
  system_prompt : value;
  temperature : value;
  max_tokens : value
}.

Record privacyProtection := {
  phi_redaction : value
}.

(** [mcpPolicy]; a section the file does not hold is [undefined], here
    [None]: reading a property of it raises a TypeError. *)
Record policy := {
  emergency_handling : emergencyHandling;
  strict_blocks : list jsstring;
  soft_blocks : list jsstring;
  allowed_domains : allowedDomains;
  ai_model_config : option aiModelConfig;
  privacy_protection : option privacyProtection
}.

Section Classify.
(** [String.prototype.toLowerCase]; the classifier is defined for any
    lower-casing function, [JS.toLowerCase] being the one used to
    evaluate it. *)
Variable toLowerCase : jsstring -> jsstring.
(** [mcpPolicy], read once at start-up. *)
Variable mcpPolicy : policy.

Definition some (l : list jsstring) (lowerMessage : jsstring) : bool :=
  existsb (fun keyword => includes lowerMessage (toLowerCase keyword)) l.

Definition classifyString (message : jsstring) : classification :=
  let lowerMessage := toLowerCase message in
  let isEmergency := some (keywords (emergency_handling mcpPolicy)) lowerMessage in
  if isEmergency then
    {| category := "emergency"; action := "immediate_redirect";
       priority := "critical" |}
  else
  let hasStrictBlock := some (strict_blocks mcpPolicy) lowerMessage in
  if hasStrictBlock then
    {| category := "blocked"; action := "strict_block"; priority := "high" |}
  else
  let hasSoftBlock := some (soft_blocks mcpPolicy) lowerMessage in
  if hasSoftBlock then
    {| category := "soft_block"; action := "brief_redirect";
       priority := "medium" |}
  else
  let allowedDomains :=
    primary_services (allowed_domains mcpPolicy)
    ++ administrative (allowed_domains mcpPolicy)
    ++ informational (allowed_domains mcpPolicy) in
  let isAllowed := some allowedDomains lowerMessage in
  {| category := if isAllowed then "allowed" else "unknown";
     action := if isAllowed then "process" else "brief_redirect";
     priority := "low" |}.

(** [classifyContent(message)]: only a string has [toLowerCase]; on any
    other value the first statement raises a TypeError. *)
Definition classifyContent (message : value) : outcome classification :=
  match message with
  | VStr s => Returned (classifyString s)
  | _ => Threw "TypeError"
  end.

(** The guard of the [/process] route, evaluated before [classifyContent]:
    [!message || typeof message !== 'string'] answers 400 INVALID_INPUT. *)
Definition invalidInput (message : value) : bool :=
  negb (truthy message) ||
  match message with VStr _ => false | _ => true end.
End Classify.

End Classifier.

Export Classifier.

(** ** Field extraction and stage selection (routes/notifications.js) *)

Module Extractor.

Local Open Scope string_scope.

(** A JavaScript object used as a record with optional keys. *)
Abbreviation object := (gmap string value).

(** [[a-zA-Z\s]], [[a-zA-Z0-9]], [[a-zA-Z0-9\s]] *)
Definition nameClass (c : N) : bool := isAlpha c || isSpace c.
Definition alnumClass (c : N) : bool := isAlpha c || isDigit c.
Definition alnumSpaceClass (c : N) : bool := isAlpha c || isDigit c || isSpace c.

(** [/my name is ([a-zA-Z\s]+)/i], [/i'm ([a-zA-Z\s]+)/i],
    [/i am ([a-zA-Z\s]+)/i] *)
Definition namePatterns : list regex :=
  [ seqs [liti "my name is "; Group 1 (plus nameClass)];
    seqs [liti "i'm "; Group 1 (plus nameClass)];
    seqs [liti "i am "; Group 1 (plus nameClass)] ].

(** [/\b(\d{5})\b/] *)
Definition zipPattern : regex :=
  seqs [WordB; Group 1 (rep isDigit 5); WordB].

(** [/\b(\d{3}[-.]?\d{3}[-.]?\d{4})\b/] *)
Definition phonePattern : regex :=
  seqs [WordB;
        Group 1 (seqs [rep isDigit 3; opt (chr "-."); rep isDigit 3;
                       opt (chr "-."); rep isDigit 4]);
        WordB].

(** [/medicaid\s*(?:id|number)?\s*:?\s*([a-zA-Z0-9]+)/i] *)
Definition medicaidPattern : regex :=
  seqs [liti "medicaid"; star isSpace; Opt (Alt (liti "id") (liti "number"));
        star isSpace; opt (chr ":"); star isSpace; Group 1 (plus alnumClass)].

(** [/\b(?:i am|i'm)\s*(\d{1,3})\s*(?:years old|yo)\b/i] *)
Definition agePattern : regex :=
  seqs [WordB; Alt (liti "i am") (liti "i'm"); star isSpace;
        Group 1 (repr isDigit 1 3); star isSpace;
        Alt (liti "years old") (liti "yo"); WordB].

(** [/\b(\d+\s+[a-zA-Z0-9\s]+(?:street|st|avenue|ave|road|rd|drive|dr|lane|ln|way|blvd|boulevard))\b/i] *)
Definition addressPattern : regex :=
  seqs [WordB;
        Group 1 (seqs [plus isDigit; plus isSpace; plus alnumSpaceClass;
                       alts (map liti ["street"; "st"; "avenue"; "ave"; "road";
                                       "rd"; "drive"; "dr"; "lane"; "ln"; "way";
                                       "blvd"; "boulevard"])]);
        WordB].

(** [message.match(pattern)] for a pattern without the [g] flag. *)
Definition matchOf (message : jsstring) (pattern : regex)
  : option (jsstring * captures) :=
  search pattern None message.

(** The loop over [namePatterns]: the first pattern that matches decides. *)
Fixpoint firstMatch (patterns : list regex) (message : jsstring)
  : option captures :=
  match patterns with
  | [] => None
  | pattern :: rest =>
      match matchOf message pattern with
      | Some (_, caps) => Some caps
      | None => firstMatch rest message
      end
  end.

Definition extractName (message : jsstring) (extractedData : object) : object :=
  match firstMatch namePatterns message with
  | Some caps =>
      let fullName := trim (capture 1 caps) in
      let nameParts := split 32 fullName in
      if (2 <=? length nameParts)%nat then
        let extractedData := <["firstName" := VStr (nth 0 nameParts [])]> extractedData in
        let extractedData := <["lastName" := VStr (List.last nameParts [])]> extractedData in
        if (2 <? length nameParts)%nat then
          <["middleName" := VStr (join (str " ") (removelast (tl nameParts)))]>
            extractedData
        else extractedData
      else <["firstName" := VStr fullName]> extractedData
  | None => extractedData
  end.

Definition extractZip (message : jsstring) (extractedData : object) : object :=
  match matchOf message zipPattern with
  | Some (_, caps) => <["zipCode" := VStr (capture 1 caps)]> extractedData
  | None => extractedData
  end.

(** [phoneMatch[1].replace(/[-\.]/g, '')] *)
Definition stripSeparators (s : jsstring) : jsstring :=
  List.filter (fun c => negb (oneOf "-." c)) s.

Definition extractPhone (message : jsstring) (extractedData : object) : object :=
  match matchOf message phonePattern with
  | Some (_, caps) =>
      <["phoneNumber" := VStr (stripSeparators (capture 1 caps))]> extractedData
  | None => extractedData
  end.

Definition extractMedicaid (message : jsstring) (extractedData : object) : object :=
  match matchOf message medicaidPattern with
  | Some (_, caps) => <["medicaidId" := VStr (capture 1 caps)]> extractedData
  | None => extractedData
  end.

Definition extractAge (message : jsstring) (extractedData : object) : object :=
  match matchOf message agePattern with
  | Some (_, caps) => <["age" := VNum (parseDigits (capture 1 caps))]> extractedData
  | None => extractedData
  end.

Definition extractAddress (message : jsstring) (extractedData : object) : object :=
  match matchOf message addressPattern with
  | Some (_, caps) => <["streetAddress" := VStr (capture 1 caps)]> extractedData
  | None => extractedData
  end.

(** [extractInformationFromSMS(message, logger)].  On a value that is not a
    string, [message.toLowerCase()] raises a TypeError inside the [try]; the
    [catch] logs it and returns the empty object. *)
Definition extractInformationFromSMS (message : value) : object :=
  match message with
  | VStr message =>
      let extractedData : object := ∅ in
      let extractedData := extractName message extractedData in
      let extractedData := extractZip message extractedData in
      let extractedData := extractPhone message extractedData in
      let extractedData := extractMedicaid message extractedData in
      let extractedData := extractAge message extractedData in
      extractAddress message extractedData
  | _ => ∅
  end.

(** [extractedData.key] used as a condition. *)
Definition has (extractedData : object) (key : string) : bool :=
  match extractedData !! key with
  | Some v => truthy v
  | None => false
  end.

(** [determineConversationStage(message, extractedData)] *)
Definition determineConversationStage (message : jsstring)
    (extractedData : object) : string :=
  let lowerMessage := toLowerCase message in
  if includes lowerMessage (str "address") || has extractedData "streetAddress"
     || has extractedData "zipCode" then "address"
  else if includes lowerMessage (str "emergency")
          || includes lowerMessage (str "contact") then "emergency_contact"
  else if includes lowerMessage (str "medical")
          || includes lowerMessage (str "condition")
          || includes lowerMessage (str "medication") then "medical"
  else if has extractedData "firstName" || has extractedData "lastName"
          || has extractedData "medicaidId" then "intake"
  else "general".

End Extractor.

Export Extractor.

(** ** Profile service *)

Module ProfileService.

Local Open Scope string_scope.

(** A row of [user_profiles]: column name to value; a column that is NULL
    is absent from the map. *)
Abbreviation row := (gmap string value).

(** [fieldMapping] of [updateProfileData]: the own properties of the
    literal, fragment key to column. *)
Definition fieldMapping : gmap string string :=
  list_to_map
    [ ("firstName", "first_name"); ("lastName", "last_name");
      ("middleName", "middle_name"); ("preferredName", "preferred_name");
      ("dateOfBirth", "date_of_birth"); ("age", "age"); ("gender", "gender");
      ("email", "email_address"); ("streetAddress", "street_address");
      ("apartmentUnit", "apartment_unit"); ("city", "city"); ("state", "state");
      ("zipCode", "zip_code"); ("county", "county");
      ("medicaidId", "medicaid_id"); ("medicareId", "medicare_id");
      ("insuranceProvider", "insurance_provider");
      ("emergencyContact1Name", "emergency_contact_1_name");
      ("emergencyContact1Phone", "emergency_contact_1_phone");
      ("emergencyContact1Relationship", "emergency_contact_1_relationship");
      ("primaryCarePhysician", "primary_care_physician");
      ("medicalConditions", "medical_conditions");
      ("medications", "medications"); ("allergies", "allergies");
      ("mobilityNeeds", "mobility_needs");
      ("dietaryRestrictions", "dietary_restrictions");
      ("preferredCaregiverGender", "preferred_caregiver_gender");
      ("languagePreference", "language_preference");
      ("serviceLocation", "service_location") ].

Definition nullish (v : value) : bool :=
  match v with VNull | VUndefined => true | _ => false end.

(** The properties the literal inherits from [Object.prototype]: under
    these names [fieldMapping[key]] is a function, or the prototype itself,
    which is truthy and is no column name. *)
Definition inheritedKeys : list string :=
  ["constructor"; "__defineGetter__"; "__defineSetter__"; "hasOwnProperty";
   "__lookupGetter__"; "__lookupSetter__"; "isPrototypeOf";
   "propertyIsEnumerable"; "toString"; "valueOf"; "__proto__";
   "toLocaleString"].

(** What [fieldMapping[key]] holds when it is truthy. *)
Inductive dbField : Type :=
| Column (name : string)
| Inherited (key : string).

(** [fieldMapping[key]] *)
Definition lookupField (key : string) : option dbField :=
  match fieldMapping !! key with
  | Some name => Some (Column name)
  | None =>
      if existsb (String.eqb key) inheritedKeys then Some (Inherited key)
      else None
  end.

(** The [SET dbField = $n] list built by the loop over
    [Object.keys(extractedData)]: keys for which [fieldMapping[key]] is
    truthy and whose value is neither [null] nor [undefined]. *)
Definition updateFields (extractedData : object) : list (dbField * value) :=
  omap (fun '(key, v) =>
          match lookupField key with
          | Some dbField => if nullish v then None else Some (dbField, v)
          | None => None
          end)
       (map_to_list extractedData).

(** The SET list as the database reads it: the column assignments, or
    [None] when an entry names no column (the text of a function is no
    column name) and the statement is refused. *)
Fixpoint assignments (fields : list (dbField * value))
  : option (list (string * value)) :=
  match fields with
  | [] => Some []
  | (Column name, v) :: rest =>
      match assignments rest with
      | Some columns => Some ((name, v) :: columns)
      | None => None
      end
  | (Inherited _, _) :: _ => None
  end.

(** [sms_conversation_count + 1] in SQL: NULL stays NULL. *)
Definition sqlIncrement (count : option value) : option value :=
  match count with
  | Some (VNum n) => Some (VNum (n + 1))
  | _ => None
  end.

(** [updateProfileData(profileId, extractedData)] on the row found for
    [profileId]; [now] is the value of [NOW()].  With nothing to set, the
    row is returned as it is; otherwise one UPDATE sets the mapped columns,
    both timestamps and the counter, each right-hand side read from the
    old row, and the call returns the new row; when the database refuses
    the statement the call throws and the row stays as it was. *)
Definition updateProfileData (now : Z) (profile : row) (extractedData : object)
  : outcome row :=
  match updateFields extractedData with
  | [] => Returned profile
  | fields =>
      match assignments fields with
      | None => Threw "DatabaseError"
      | Some columns =>
          let updated : row := list_to_map columns ∪ profile in
          let updated := <["updated_at" := VDate now]> updated in
          let updated := <["last_updated_via_sms" := VDate now]> updated in
          Returned
            match sqlIncrement (profile !! "sms_conversation_count") with
            | Some n => <["sms_conversation_count" := n]> updated
            | None => delete "sms_conversation_count" updated
            end
      end
  end.

(** The row of [profileId] after the call: the row it returned, or the row
    as it was when it threw. *)
Definition updatedRow (now : Z) (profile : row) (extractedData : object) : row :=
  match updateProfileData now profile extractedData with
  | Returned updated => updated
  | Threw _ => profile
  end.

Definition requiredFields : list string :=
  ["first_name"; "last_name"; "primary_phone"; "zip_code"].

Definition importantFields : list string :=
  ["date_of_birth"; "street_address"; "city"; "state";
   "emergency_contact_1_name"; "emergency_contact_1_phone"].

Definition optionalFields : list string :=
  ["middle_name"; "preferred_name"; "email_address"; "gender";
   "secondary_phone"; "apartment_unit"; "county"; "medicaid_id";
   "medicare_id"; "primary_care_physician"].

(** [profile[field] && profile[field].toString().trim()] as a condition. *)
Definition present (profile : row) (field : string) : bool :=
  match profile !! field with
  | Some v => truthy v && nonBlank v
  | None => false
  end.

(** One [forEach] of the scoring: [(score, maxScore)] after the fields of a
    tier of the given weight. *)
Definition tally (profile : row) (weight : Z) (fields : list string)
    (acc : Z * Z) : Z * Z :=
  fold_left
    (fun '(score, maxScore) field =>
       (if present profile field then score + weight else score,
        maxScore + weight)%Z)
    fields acc.

(** [Math.round((score / maxScore) * 100)].  The scores are multiples of 10
    and [maxScore] is 440, so the quotient is never within 1/22 of a half:
    the floating-point rounding agrees with the exact rounding of the
    rational, half up. *)
Definition roundPercent (score maxScore : Z) : Z :=
  ((200 * score + maxScore) / (2 * maxScore))%Z.

(** [calculateCompletionPercentage(profileId)] on the result of the lookup
    of the row. *)
Definition calculateCompletionPercentage (found : option row) : Z :=
  match found with
  | None => 0%Z
  | Some profile =>
      let acc := tally profile 40 requiredFields (0, 0)%Z in
      let acc := tally profile 30 importantFields acc in
      let '(score, maxScore) := tally profile 10 optionalFields acc in
      if (maxScore >? 0)%Z then roundPercent score maxScore else 0%Z
  end.

Record missingField := {
  field : string;
  label : jsstring;
  mpriority : string
}.

(** The [requiredFields] table of [getMissingProfileInfo]. *)
Definition missingTable : list (string * jsstring) :=
  [ ("first_name", str "First Name"); ("last_name", str "Last Name");
    ("date_of_birth", str "Date of Birth");
    ("street_address", str "Street Address"); ("city", str "City");
    ("state", str "State"); ("zip_code", str "ZIP Code");
    ("emergency_contact_1_name", str "Emergency Contact Name");
    ("emergency_contact_1_phone", str "Emergency Contact Phone") ].

(** [getMissingProfileInfo(profileId)] *)
Definition getMissingProfileInfo (found : option row) : list missingField :=
  match found with
  | None => []
  | Some profile =>
      flat_map
        (fun '(f, l) =>
           if negb (present profile f)
           then [{| field := f; label := l; mpriority := "high" |}]
           else [])
        missingTable
  end.

(** [missing.find(m => m.field === name)] as a condition. *)
Definition isMissing (missing : list missingField) (name : string) : bool :=
  existsb (fun m => String.eqb (field m) name) missing.

(** [generateNextQuestions(profileId, conversationStage)] *)
Definition generateNextQuestions (found : option row) (conversationStage : string)
  : list jsstring :=
  let missing := getMissingProfileInfo found in
  match missing with
  | [] => [str "Thank you! Your profile is complete. Is there anything you'd like to update?"]
  | next :: _ =>
      let questions :=
        if String.eqb conversationStage "intake" then
          if isMissing missing "first_name" then [str "What's your first name?"]
          else if isMissing missing "last_name" then [str "What's your last name?"]
          else if isMissing missing "date_of_birth"
               then [str "What's your date of birth? (MM/DD/YYYY)"]
          else []
        else if String.eqb conversationStage "address" then
          if isMissing missing "street_address" then [str "What's your street address?"]
          else if isMissing missing "city" then [str "What city do you live in?"]
          else if isMissing missing "zip_code" then [str "What's your ZIP code?"]
          else []
        else if String.eqb conversationStage "emergency_contact" then
          if isMissing missing "emergency_contact_1_name"
          then [str "Who should we contact in case of emergency?"]
          else if isMissing missing "emergency_contact_1_phone"
               then [str "What's their phone number?"]
          else []
        else
          [(str "Could you provide your " ++ toLowerCase (label next) ++ str "?")%list]
      in
      match questions with
      | [] => [str "Thank you for the information!"]
      | _ => questions
      end
  end.

(** [createProfile(userId, phoneNumber)]: the row inserted for a new sender,
    with the columns the INSERT names. *)
Definition createProfile (profileId userId : jsstring) (phoneNumber : jsstring)
  : row :=
  <["id" := VStr profileId]>
  (<["user_id" := VStr userId]>
  (<["primary_phone" := VStr phoneNumber]>
  (<["information_source" := VStr (str "sms")]>
  (<["created_via" := VStr (str "sms")]> ∅)))).

End ProfileService.

Export ProfileService.

(** ** Declarative reading of the patterns *)

Module RegexSpec.

(** The unit before the position reached after reading [w], and the unit at
    the current position when [w] is what remains to be read before [next]. *)
Fixpoint lastO (w : jsstring) (prev : option N) : option N :=
  match w with
  | [] => prev
  | x :: w' => lastO w' (Some x)
  end.

Definition headO (w : jsstring) (next : option N) : option N :=
  match w with
  | [] => next
  | x :: _ => Some x
  end.

(** [den r prev w next]: the pattern [r] can read exactly [w] when the unit
    before [w] is [prev] and the unit after it is [next] ([None] at either
    end of the input). *)
Inductive den : regex -> option N -> jsstring -> option N -> Prop :=
| den_eps prev next : den Eps prev [] next
| den_chars c lo hi prev w next :
    Forall (fun x => c x = true) w ->
    (lo <= length w)%nat ->
    (forall h, hi = Some h -> (length w <= h)%nat) ->
    den (Chars c lo hi) prev w next
| den_wordb prev next :
    isWordO prev <> isWordO next -> den WordB prev [] next
| den_seq r1 r2 prev w1 w2 next :
    den r1 prev w1 (headO w2 next) ->
    den r2 (lastO w1 prev) w2 next ->
    den (Seq r1 r2) prev (w1 ++ w2) next
| den_alt_l r1 r2 prev w next :
    den r1 prev w next -> den (Alt r1 r2) prev w next
| den_alt_r r1 r2 prev w next :
    den r2 prev w next -> den (Alt r1 r2) prev w next
| den_opt_some r prev w next :
    den r prev w next -> den (Opt r) prev w next
| den_opt_none r prev next : den (Opt r) prev [] next
| den_group n r prev w next :
    den r prev w next -> den (Group n r) prev w next.

(** No match of [r] anywhere in [t], [prev] being the unit before [t]. *)
Definition noMatch (r : regex) (prev : option N) (t : jsstring) : Prop :=
  forall a w b, t = a ++ w ++ b -> ~ den r (lastO a prev) w (head b).

(** Syntactic conditions on a pattern. *)
Fixpoint allChars (P : N -> Prop) (r : regex) : Prop :=
  match r with
  | Eps | WordB => True
  | Chars c _ _ => forall x, c x = true -> P x
  | Seq r1 r2 | Alt r1 r2 => allChars P r1 /\ allChars P r2
  | Opt r1 | Group _ r1 => allChars P r1
  end.

Fixpoint mustRead (P : N -> Prop) (r : regex) : Prop :=
  match r with
  | Chars c lo _ => (1 <= lo)%nat /\ forall x, c x = true -> P x
  | Seq r1 r2 => mustRead P r1 \/ mustRead P r2
  | Alt r1 r2 => mustRead P r1 /\ mustRead P r2
  | Group _ r1 => mustRead P r1
  | Eps | WordB | Opt _ => False
  end.

Definition startsWB (r : regex) : Prop :=
  match r with
  | Seq WordB _ => True
  | _ => False
  end.

Fixpoint endsWB (r : regex) : Prop :=
  match r with
  | WordB => True
  | Seq _ r2 => endsWB r2
  | _ => False
  end.

Definition isBracket (c : N) : bool := (c =? 91) || (c =? 93).

(** What the redaction argument needs of a pattern: it is delimited by [\b],
    never reads a square bracket, and always reads a unit that is not an
    upper-case letter. *)
Record delimited (r : regex) : Prop := {
  d_start : startsWB r;
  d_end : endsWB r;
  d_chars : allChars (fun c => isBracket c = false) r;
  d_must : mustRead (fun c => isUpper c = false) r
}.

(** A global replacement seen as a list of pieces: units copied through,
    and matches with what replaced them. *)
Inductive piece : Type :=
| Keep (c : N)
| Repl (m : jsstring) (by_ : jsstring).

Definition src (ps : list piece) : jsstring :=
  flat_map (fun p => match p with Keep c => [c] | Repl m _ => m end) ps.

Definition dst (ps : list piece) : jsstring :=
  flat_map (fun p => match p with Keep c => [c] | Repl _ b => b end) ps.

(** The pieces are those of a left-to-right scan for [r]: a kept unit starts
    no match, a replaced span is a match and is replaced by the template. *)
Fixpoint scanned (r : regex) (tmpl : captures -> jsstring) (prev : option N)
    (ps : list piece) : Prop :=
  match ps with
  | [] => True
  | Keep c :: ps' =>
      (forall w s', c :: src ps' = w ++ s' -> ~ den r prev w (head s'))
      /\ scanned r tmpl (Some c) ps'
  | Repl m b :: ps' =>
      m <> [] /\ den r prev m (head (src ps'))
      /\ (exists caps, b = tmpl caps)
      /\ scanned r tmpl (lastO m prev) ps'
  end.

(** Every replacement of the scan is the redaction placeholder. *)
Definition tokens (ps : list piece) : Prop :=
  Forall (fun p => match p with Keep _ => True | Repl _ b => b = REDACTED end) ps.

(** The patterns of [mask_partial]. *)
Definition maskPatterns : list regex := [ssnMask; phoneMask; emailMask].

End RegexSpec.

Export RegexSpec.

(** ** What a masking replacement copies and what it rewrites *)

Module MaskFrame.

(** A replacement of [mask_partial]: the pattern, and the template as what
    it copies from the start of the match, what it writes, and what it
    copies from the end of the match. *)
Record masking := {
  reads : regex;
  keepsFirst : captures -> jsstring;
  writes : jsstring;
  keepsLast : captures -> jsstring }.

Definition maskTemplate (k : masking) (caps : captures) : jsstring :=
  keepsFirst k caps ++ writes k ++ keepsLast k caps.

(** ['XXX-XX-$3'], ['XXX-XXX-$3'] and ['$1***@$2'], in the order of the
    source. *)
Definition ssnMasking : masking :=
  {| reads := ssnMask; keepsFirst := fun _ => [];
     writes := str "XXX-XX-"; keepsLast := capture 3 |}.
Definition phoneMasking : masking :=
  {| reads := phoneMask; keepsFirst := fun _ => [];
     writes := str "XXX-XXX-"; keepsLast := capture 3 |}.
Definition emailMasking : masking :=
  {| reads := emailMask; keepsFirst := capture 1;
     writes := str "***@"; keepsLast := capture 2 |}.

(** The replacement of one match [m], unit by unit: the units copied from
    its start, the part between them and the units copied from its end
    rewritten, the units copied from its end. *)
Definition edit (k : masking) (m : jsstring) (caps : captures) : list piece :=
  let first := keepsFirst k caps in
  let last := keepsLast k caps in
  map Keep first
  ++ Repl (skipn (length first) (firstn (length m - length last) m)) (writes k)
     :: map Keep last.

(** The scan of [replaceAll] for [k], as the list of what it does to the
    text from left to right: a unit outside every match is copied, a match
    is replaced as [edit] says. *)
Fixpoint editScript (k : masking) (skip : nat) (prev : option N)
    (s : jsstring) : list piece :=
  match s with
  | [] =>
      match skip, matchAt (reads k) prev [] with
      | O, Some (_, caps) => edit k [] caps
      | _, _ => []
      end
  | x :: s' =>
      match skip with
      | S n => editScript k n (Some x) s'
      | O =>
          match matchAt (reads k) prev s with
          | Some (rest, caps) =>
              match (length s - length rest)%nat with
              | O => edit k [] caps ++ Keep x :: editScript k O (Some x) s'
              | S n => edit k (firstn (S n) s) caps ++ editScript k n (Some x) s'
              end
          | None => Keep x :: editScript k O (Some x) s'
          end
      end
  end.

Definition script (k : masking) (text : jsstring) : list piece :=
  editScript k 0 None text.

(** What a match reads is what the masking copies from its start, a part
    in between, and what it copies from its end; a match is not empty. *)
Definition splits (k : masking) : Prop :=
  forall prev s rest caps,
    matchAt (reads k) prev s = Some (rest, caps) ->
    exists m mid, s = m ++ rest /\ m <> []
                  /\ m = keepsFirst k caps ++ mid ++ keepsLast k caps.

End MaskFrame.

Export MaskFrame.

(** ** Readings of the claims and inputs of the scenarios *)

Module Reading.

Local Open Scope string_scope.

Definition phrases (p : policy) : list jsstring :=
  keywords (emergency_handling p) ++ strict_blocks p ++ soft_blocks p
  ++ primary_services (allowed_domains p) ++ administrative (allowed_domains p)
  ++ informational (allowed_domains p).

Definition isString (v : value) : bool :=
  match v with VStr _ => true | _ => false end.

Definition examplePolicy : policy :=
  {| emergency_handling :=
       {| keywords := [str "911"; str "Heart Attack"];
          response := str "Call 911 now." |};
     strict_blocks := [str "diagnosis"];
     soft_blocks := [str "weather"];
     allowed_domains :=
       {| primary_services := [str "personal care"];
          administrative := [str "eligibility"];
          informational := [str "hours"] |};
     ai_model_config :=
       Some {| response_guidelines := VArr [];
               system_prompt := VStr (str "You are a care assistant.");
               temperature := VNum 0; max_tokens := VNum 512 |};
     privacy_protection :=
       Some {| phi_redaction := VStr (str "mask_partial") |} |}.

(** The same policy without its [privacy_protection] section. *)
Definition policyWithoutPrivacy : policy :=
  {| emergency_handling := emergency_handling examplePolicy;
     strict_blocks := strict_blocks examplePolicy;
     soft_blocks := soft_blocks examplePolicy;
     allowed_domains := allowed_domains examplePolicy;
     ai_model_config := ai_model_config examplePolicy;
     privacy_protection := None |}.

Definition unknownResult : classification :=
  {| category := "unknown"; action := "brief_redirect"; priority := "low" |}.

Definition mariaMessage : jsstring :=
  str "My name is Maria Lopez, I'm 34 years old, zip 89101".

Definition mariaFragment : object :=
  <["firstName" := VStr (str "Maria")]>
  (<["lastName" := VStr (str "Lopez")]>
  (<["age" := VNum 34]>
  (<["zipCode" := VStr (str "89101")]> ∅))).

(** The fields [calculateCompletionPercentage] scores as required or
    important, the sender's phone left out. *)
Definition profileFields : list string :=
  List.filter (fun f => negb (String.eqb f "primary_phone"))
    (requiredFields ++ importantFields).

(** A profile with the nine fields of [getMissingProfileInfo] set and no
    phone. *)
Definition noPhoneProfile : row :=
  list_to_map
    (map (fun f => (f, VStr (str "x")))
       ["first_name"; "last_name"; "date_of_birth"; "street_address"; "city";
        "state"; "zip_code"; "emergency_contact_1_name";
        "emergency_contact_1_phone"]).

Definition mkMissing (e : string * jsstring) : missingField :=
  {| field := fst e; label := snd e; mpriority := "high" |}.

(** The fields a stage asks about, in the order it asks; [None] for a stage
    without questions of its own. *)
Definition stageFields (stage : string) : option (list string) :=
  if String.eqb stage "intake" then
    Some ["first_name"; "last_name"; "date_of_birth"]
  else if String.eqb stage "address" then
    Some ["street_address"; "city"; "zip_code"]
  else if String.eqb stage "emergency_contact" then
    Some ["emergency_contact_1_name"; "emergency_contact_1_phone"]
  else None.

(** The question that asks for a field. *)
Definition questionFor (f : string) : jsstring :=
  if String.eqb f "first_name" then str "What's your first name?"
  else if String.eqb f "last_name" then str "What's your last name?"
  else if String.eqb f "date_of_birth"
       then str "What's your date of birth? (MM/DD/YYYY)"
  else if String.eqb f "street_address" then str "What's your street address?"
  else if String.eqb f "city" then str "What city do you live in?"
  else if String.eqb f "zip_code" then str "What's your ZIP code?"
  else if String.eqb f "emergency_contact_1_name"
       then str "Who should we contact in case of emergency?"
  else str "What's their phone number?".

(** Question selection as the amended claim words it: a closing
    acknowledgement when nothing is missing; in a stage with questions of its
    own, the question for its first field still missing, or a plain thanks
    when none of its fields is missing; in any other stage, a request for
    the first missing field of the priority order. *)
Definition nextQuestionsSpec (profile : row) (stage : string) : list jsstring :=
  match List.filter (fun '(f, _) => negb (present profile f)) missingTable with
  | [] => [str "Thank you! Your profile is complete. Is there anything you'd like to update?"]
  | (_, firstLabel) :: _ =>
      match stageFields stage with
      | Some fields =>
          match List.find (fun f => negb (present profile f)) fields with
          | Some f => [questionFor f]
          | None => [str "Thank you for the information!"]
          end
      | None =>
          [(str "Could you provide your " ++ toLowerCase firstLabel ++ str "?")%list]
      end
  end.

(** Street, city and zip code known, nothing else. *)
Definition addressKnownProfile : row :=
  list_to_map
    (map (fun f => (f, VStr (str "x"))) ["street_address"; "city"; "zip_code"]).

(** The columns [updateProfileData] maintains besides the mapped ones. *)
Definition metaColumns : list string :=
  ["updated_at"; "last_updated_via_sms"; "sms_conversation_count"].

Definition isMeta (col : string) : bool := existsb (String.eqb col) metaColumns.

(** A row without its counter and timestamps. *)
Definition strip (profile : row) : row :=
  delete "updated_at"
    (delete "last_updated_via_sms" (delete "sms_conversation_count" profile)).

(** The fragment sets column [col] to [v]: one of its keys is mapped to
    [col] and holds [v], which is neither [null] nor [undefined]. *)
Definition sets (fragment : object) (col : string) (v : value) : Prop :=
  exists key, fieldMapping !! key = Some col /\ fragment !! key = Some v
              /\ nullish v = false.

(** The fragment holds a value, other than [null] and [undefined], under a
    name inherited from [Object.prototype]. *)
Definition setsInherited (fragment : object) : bool :=
  existsb (fun key => match fragment !! key with
                      | Some v => negb (nullish v)
                      | None => false
                      end)
    inheritedKeys.

(** The column assignments of a fragment. *)
Definition columnUpdates (fragment : object) : list (string * value) :=
  omap (fun '(key, v) =>
          match fieldMapping !! key with
          | Some name => if nullish v then None else Some (name, v)
          | None => None
          end)
       (map_to_list fragment).

(** The row an accepted UPDATE leaves. *)
Definition applyUpdate (now : Z) (profile : row) (fragment : object) : row :=
  match columnUpdates fragment with
  | [] => profile
  | columns =>
      let updated : row := list_to_map columns ∪ profile in
      let updated := <["updated_at" := VDate now]> updated in
      let updated := <["last_updated_via_sms" := VDate now]> updated in
      match sqlIncrement (profile !! "sms_conversation_count") with
      | Some n => <["sms_conversation_count" := n]> updated
      | None => delete "sms_conversation_count" updated
      end
  end.

(** [fieldMapping] read from column to key. *)
Definition columnKey : gmap string string :=
  list_to_map (map (fun '(k, c) => (c, k)) (map_to_list fieldMapping)).

(** Every value of the fragment counts as present. *)
Definition filled (fragment : object) : bool :=
  forallb (fun '(_, v) => truthy v && nonBlank v) (map_to_list fragment).

(** The completion percentages along a sequence of merges, the starting
    profile's first. *)
Fixpoint completions (profile : row) (steps : list (Z * object)) : list Z :=
  calculateCompletionPercentage (Some profile) ::
  match steps with
  | [] => []
  | (now, fragment) :: rest =>
      completions (updatedRow now profile fragment) rest
  end.

(** A fragment none of whose keys is a key of [fieldMapping], and a row with
    a counter. *)
Definition unmappedFragment : object := {[ "nickname" := VStr (str "Al") ]}.

(** A fragment with a key that [fieldMapping] inherits. *)
Definition inheritedFragment : object :=
  {[ "constructor" := VStr (str "x"); "firstName" := VStr (str "Ann") ]}.
Definition countedProfile : row :=
  {[ "first_name" := VStr (str "Ann"); "sms_conversation_count" := VNum 3 ]}.

End Reading.

Export Reading.

(** ** The message pipeline, the routes and the feature flags *)

(** [denc r prev w next caps]: as [den], with the captures the groups of
    [r] record while reading [w], the most recent first. *)
Inductive denc : regex -> option N -> jsstring -> option N -> captures -> Prop :=
| denc_eps prev next : denc Eps prev [] next []
| denc_chars c lo hi prev w next :
    Forall (fun x => c x = true) w ->
    (lo <= length w)%nat ->
    (forall h, hi = Some h -> (length w <= h)%nat) ->
    denc (Chars c lo hi) prev w next []
| denc_wordb prev next :
    isWordO prev <> isWordO next -> denc WordB prev [] next []
| denc_seq r1 r2 prev w1 w2 next c1 c2 :
    denc r1 prev w1 (headO w2 next) c1 ->
    denc r2 (lastO w1 prev) w2 next c2 ->
    denc (Seq r1 r2) prev (w1 ++ w2) next (c2 ++ c1)
| denc_alt_l r1 r2 prev w next c :
    denc r1 prev w next c -> denc (Alt r1 r2) prev w next c
| denc_alt_r r1 r2 prev w next c :
    denc r2 prev w next c -> denc (Alt r1 r2) prev w next c
| denc_opt_some r prev w next c :
    denc r prev w next c -> denc (Opt r) prev w next c
| denc_opt_none r prev next : denc (Opt r) prev [] next []
| denc_group n r prev w next c :
    denc r prev w next c -> denc (Group n r) prev w next ((n, w) :: c).

(** [/^\+?1?[0-9]{10}$/], the validator of the [to] field of [/send]. *)
Definition sendToPattern : regex :=
  seqs [opt (chr "+"); opt (chr "1"); rep isDigit 10].

(** [r.test(s)] for a pattern anchored at both ends ([^...$], no [m] flag):
    some reading of [r] from the start of [s] ends at its end. *)
Definition testAnchored (r : regex) (s : jsstring) : bool :=
  match run r None s [] (fun _ rest _ => match rest with [] => Some tt | _ => None end) with
  | Some _ => true
  | None => false
  end.

(** The keys [extractInformationFromSMS] can set. *)
Definition extractedKeys : list string :=
  ["firstName"; "lastName"; "middleName"; "zipCode"; "phoneNumber";
   "medicaidId"; "age"; "streetAddress"]%string.

Module Routes.

Local Open Scope string_scope.

(** The fields of a response that depend on the classification; the
    knowledge-base context and the model settings of the "process" answer
    come from outside and are left out. *)
Record mcpAnswer := {
  r_action : string;
  r_message : option jsstring;
  r_escalate : option bool;
  r_priority : option string
}.

Definition strictBlockText : jsstring :=
  str "I can't provide that type of information. I can help you with eligibility questions, service information, and scheduling assistance. For medical concerns, please contact your healthcare provider.".
Definition briefRedirectText : jsstring :=
  str "I focus on helping with United Family Caregivers services. I can assist with eligibility, scheduling, and service questions. How can I help you with your care needs?".
Definition unsureText : jsstring :=
  str "I'm not sure how to help with that. I can assist with eligibility questions, service information, and scheduling. What would you like to know about our services?".
Definition chatBlockText : jsstring :=
  str "I can't provide that type of information. I can help with eligibility, services, and scheduling for United Family Caregivers.".

(** The [switch (classification.action)] of the [/process] route.  The
    "process" case reads four properties of [mcpPolicy.ai_model_config]. *)
Definition respond (mcpPolicy : policy) (c : classification) : outcome mcpAnswer :=
  if String.eqb (action c) "immediate_redirect" then
    Returned
      {| r_action := "redirect";
         r_message := Some (Classifier.response (emergency_handling mcpPolicy));
         r_escalate := Some true; r_priority := Some "critical" |}
  else if String.eqb (action c) "strict_block" then
    Returned
      {| r_action := "block"; r_message := Some strictBlockText;
         r_escalate := Some false; r_priority := Some "high" |}
  else if String.eqb (action c) "brief_redirect" then
    Returned
      {| r_action := "redirect"; r_message := Some briefRedirectText;
         r_escalate := Some false; r_priority := Some "medium" |}
  else if String.eqb (action c) "process" then
    match ai_model_config mcpPolicy with
    | None => Threw "TypeError"
    | Some _ =>
        Returned
          {| r_action := "process"; r_message := None;
             r_escalate := None; r_priority := None |}
    end
  else
    Returned
      {| r_action := "redirect"; r_message := Some unsureText;
         r_escalate := Some false; r_priority := Some "low" |}.

(** What the [/process] route answers. *)
Inductive processAnswer : Type :=
| InvalidInput                      (* 400, code INVALID_INPUT *)
| Answered (r : mcpAnswer)          (* 200 *)
| ProcessingError.                  (* 500, code PROCESSING_ERROR *)

(** The handler of [POST /process]: the guard, then, inside the [try], the
    classification, its response, and the log entry, whose message is
    [redactPHI(message, mcpPolicy.privacy_protection.phi_redaction)]; an
    exception inside the [try] gives the 500 answer.  [getKBContext] and
    [logInteraction] catch their own exceptions. *)
Definition processRoute (toLowerCase : jsstring -> jsstring) (mcpPolicy : policy)
    (message : value) : processAnswer :=
  if invalidInput message then InvalidInput
  else match classifyContent toLowerCase mcpPolicy message with
       | Threw _ => ProcessingError
       | Returned c =>
           match respond mcpPolicy c with
           | Threw _ => ProcessingError
           | Returned response =>
               match privacy_protection mcpPolicy with
               | None => ProcessingError
               | Some _ => Answered response
               end
           end
       end.

(** [processThroughMCP(message, sessionId)], the guardrail of the chat
    endpoint: no guard in front of the classification. *)
Definition processThroughMCP (toLowerCase : jsstring -> jsstring)
    (mcpPolicy : policy) (message : value) : outcome mcpAnswer :=
  match classifyContent toLowerCase mcpPolicy message with
  | Threw e => Threw e
  | Returned c =>
      Returned
        (if String.eqb (action c) "immediate_redirect" then
           {| r_action := "redirect";
              r_message := Some (Classifier.response (emergency_handling mcpPolicy));
              r_escalate := None; r_priority := None |}
         else if String.eqb (action c) "strict_block" then
           {| r_action := "block"; r_message := Some chatBlockText;
              r_escalate := None; r_priority := None |}
         else
           {| r_action := "process"; r_message := None;
              r_escalate := None; r_priority := None |})
  end.

(** The message contains one of the phrases, case-insensitively. *)
Definition mentions (toLowerCase : jsstring -> jsstring)
    (phrases : list jsstring) (message : jsstring) : Prop :=
  exists phrase pre post,
    In phrase phrases
    /\ toLowerCase message = (pre ++ toLowerCase phrase ++ post)%list.

Definition allowedPhrases (p : policy) : list jsstring :=
  (primary_services (allowed_domains p) ++ administrative (allowed_domains p)
   ++ informational (allowed_domains p))%list.

End Routes.

Export Routes.

Module Metrics.

Local Open Scope string_scope.

(** The status rule of [updateProfileMetrics]. *)
Definition verificationStatus (completionPercentage dataQualityScore : Z) : string :=
  if (completionPercentage >=? 80)%Z && (dataQualityScore >=? 80)%Z then "verified"
  else if (completionPercentage >=? 50)%Z || (dataQualityScore >=? 60)%Z then "partial"
  else "unverified".

(** The UPDATE at the end of [calculateCompletionPercentage]. *)
Definition storeCompletion (profile : row) : row :=
  <["profile_completion_percentage" :=
      VNum (calculateCompletionPercentage (Some profile))]> profile.

(** [updateProfileMetrics(profileId)] on the row of [profileId].  The data
    quality score is computed from the validation log, which is not written
    by this pipeline; it is taken as given. *)
Definition updateProfileMetrics (now dataQualityScore : Z) (profile : row) : row :=
  let completionPercentage := calculateCompletionPercentage (Some profile) in
  let profile := storeCompletion profile in
  let verificationStatus := verificationStatus completionPercentage dataQualityScore in
  <["last_interaction_date" := VDate now]>
    (<["verification_status" := VStr (str verificationStatus)]>
       (<["data_quality_score" := VNum dataQualityScore]> profile)).

(** What [createOrUpdateProfileFromSMS] returns, and the row it leaves in
    the table. *)
Record profileUpdate := {
  profile : row;
  completionPercentage : Z;
  stored : row
}.

(** [createOrUpdateProfileFromSMS] from the point where the sender's row has
    been found or created: the merge, the metrics, the completion; an
    exception of the merge is thrown on. *)
Definition updateFoundProfile (now dataQualityScore : Z) (found : row)
    (extractedData : object) : outcome profileUpdate :=
  match updateProfileData now found extractedData with
  | Threw error => Threw error
  | Returned updatedProfile =>
      let afterMetrics :=
        updateProfileMetrics now dataQualityScore updatedProfile in
      Returned
        {| profile := updatedProfile;
           completionPercentage :=
             calculateCompletionPercentage (Some afterMetrics);
           stored := storeCompletion afterMetrics |}
  end.

(** The row of a sender after a series of messages whose fragments were
    merged, each with its time and data quality score. *)
Definition smsStep (profile : row) (step : Z * Z * value) : row :=
  let '(now, dataQualityScore, message) := step in
  match updateFoundProfile now dataQualityScore profile
          (extractInformationFromSMS message) with
  | Returned result => stored result
  | Threw _ => profile
  end.

Definition smsHistory (profile : row) (steps : list (Z * Z * value)) : row :=
  fold_left smsStep steps profile.

(** Scored columns no rule of the extractor leads to. *)
Definition unreachedFields : list string :=
  ["date_of_birth"; "city"; "state"; "emergency_contact_1_name";
   "emergency_contact_1_phone"; "preferred_name"; "email_address"; "gender";
   "secondary_phone"; "apartment_unit"; "county"; "medicare_id";
   "primary_care_physician"].

(** The columns a merge of an extracted fragment can write. *)
Definition smsColumns : list string :=
  ["first_name"; "last_name"; "middle_name"; "zip_code"; "medicaid_id"; "age";
   "street_address"; "updated_at"; "last_updated_via_sms";
   "sms_conversation_count"].

End Metrics.

Export Metrics.

(** The columns written while a message of a sender is processed. *)
Definition pipelineColumns : list string :=
  (smsColumns ++ ["profile_completion_percentage"%string;
                  "data_quality_score"%string;
                  "verification_status"%string;
                  "last_interaction_date"%string])%list.

(** A row in which the scored columns the extractor can reach, and the
    phone, are set. *)
Definition reachedProfile : row :=
  list_to_map
    (map (fun f => (f, VStr (str "x")))
       ["first_name"; "last_name"; "primary_phone"; "zip_code";
        "street_address"; "middle_name"; "medicaid_id"]%string).

(** None of the scored columns the extractor cannot reach is set. *)
Definition unreached (p : row) : Prop :=
  forall f, In f unreachedFields -> present p f = false.

(** The order of the three statuses. *)
Definition statusRank (status : string) : nat :=
  if String.eqb status "verified" then 2
  else if String.eqb status "partial" then 1 else 0.

Module Pipeline.

Local Open Scope string_scope.

(** What [processSMSMessage] returns. *)
Record smsResult := {
  reply : option jsstring;
  s_action : string;
  escalate : option bool;
  s_extractedData : option object;
  s_profileResult : option profileUpdate;
  nextQuestions : list jsstring
}.

Definition fallbackReply : jsstring :=
  str "Thank you for contacting United Family Caregivers. How can I help you today?".
Definition thanksText : jsstring :=
  str "Thank you for contacting United Family Caregivers. ".
Definition gatherText : jsstring :=
  str "I'd like to gather a bit more information to help determine your eligibility for our services. ".
Definition eligibilityText : jsstring :=
  str "I have most of your information. Let me check your eligibility and get back to you shortly.".
Definition servicesText : jsstring :=
  str "How can I help you with our home care services today?".
Definition completeText : jsstring :=
  str "Thank you! Your profile is complete. Is there anything you'd like to update?".
Definition troubleText : jsstring :=
  str "I'm sorry, I'm having trouble processing your message right now. Please try again or call 833.432.6488 for assistance.".

(** [new ProfileService(db, logger).getMissingProfileInfo(profileId)]: the
    first statement is [this.db.query(...)], a TypeError when [db] is null. *)
Definition getMissingProfileInfoOn (db : option (value -> option row))
    (profileId : value) : outcome (list missingField) :=
  match db with
  | None => Threw "TypeError"
  | Some rows => Returned (getMissingProfileInfo (rows profileId))
  end.

Section Pipeline.

(** The lower-casing of the classifier, its policy, and the text a template
    literal gives for a value that is not a string. *)
Variable lower : jsstring -> jsstring.
Variable mcpPolicy : policy.
Variable display : value -> jsstring.

Definition interpolate (v : value) : jsstring :=
  match v with VStr s => s | _ => display v end.

(** [checkMCPGuardrails(message, phoneNumber)]: the body of the answer of
    [POST /process]; the request fails, and the [catch] answers, when the
    service is not reached or answers 400 or 500. *)
Definition checkMCPGuardrails (reachable : bool) (message : value) : mcpAnswer :=
  let unavailable :=
    {| r_action := "process"; r_message := None;
       r_escalate := None; r_priority := None |} in
  if reachable then
    match processRoute lower mcpPolicy message with
    | Answered r => r
    | InvalidInput | ProcessingError => unavailable
    end
  else unavailable.

(** [generateAIResponse({ extractedData, profileResult, ... })] *)
Definition generateAIResponse (extractedData : object)
    (profileResult : option profileUpdate) : jsstring :=
  let response := thanksText in
  let response :=
    match extractedData !! "firstName" with
    | Some v =>
        if truthy v
        then (response ++ str "Nice to meet you, " ++ interpolate v ++ str "! ")%list
        else response
    | None => response
    end in
  let response :=
    match extractedData !! "zipCode" with
    | Some v =>
        if truthy v
        then (response ++ str "I see you're in the " ++ interpolate v
              ++ str " area. ")%list
        else response
    | None => response
    end in
  let response :=
    if has extractedData "medicaidId"
    then (response ++ str "I have your Medicaid information. ")%list
    else response in
  match profileResult with
  | Some result =>
      if (completionPercentage result <? 50)%Z then
        let response := (response ++ gatherText)%list in
        match getMissingProfileInfoOn None
                (default VUndefined (profile result !! "id")) with
        | Returned (nextField :: _) =>
            (response ++ str "Could you please provide your "
             ++ toLowerCase (label nextField) ++ str "?")%list
        | Returned [] => response
        | Threw _ => fallbackReply
        end
      else if (completionPercentage result >=? 80)%Z then
        (response ++ eligibilityText)%list
      else (response ++ servicesText)%list
  | None => (response ++ servicesText)%list
  end.

(** The row [createOrUpdateProfileFromSMS] works on: the one found for the
    sender, or the one it creates. *)
Definition foundOrCreated (profileId userId phoneNumber : jsstring)
    (found : option row) : row :=
  match found with
  | Some profile => profile
  | None => createProfile profileId userId phoneNumber
  end.

(** [createOrUpdateProfileFromSMS] on the row found for the sender, or on
    the row created for a new one. *)
Definition createOrUpdateProfileFromSMS (now dataQualityScore : Z)
    (profileId userId phoneNumber : jsstring) (found : option row)
    (extractedData : object) : outcome profileUpdate :=
  updateFoundProfile now dataQualityScore
    (foundOrCreated profileId userId phoneNumber found) extractedData.

(** [processSMSMessage] on the text of a message, with the sender's row
    before, and after; the database is taken to answer every query it
    accepts.  An exception of the profile update is caught by the [catch]
    of the pipeline; the queries of the service run outside the
    transaction, so a row created before the exception stays. *)
Definition processSMSMessage (reachable : bool) (now dataQualityScore : Z)
    (profileId userId phoneNumber : jsstring) (found : option row)
    (message : jsstring) : smsResult * option row :=
  let mcpResponse := checkMCPGuardrails reachable (VStr message) in
  if String.eqb (r_action mcpResponse) "block"
     || String.eqb (r_action mcpResponse) "redirect" then
    ({| reply := r_message mcpResponse;
        s_action := r_action mcpResponse;
        escalate := r_escalate mcpResponse;
        s_extractedData := None; s_profileResult := None;
        nextQuestions := [] |}, found)
  else
    let extractedData := extractInformationFromSMS (VStr message) in
    let updated : outcome (option profileUpdate) :=
      if (0 <? size extractedData)%nat then
        match createOrUpdateProfileFromSMS now dataQualityScore profileId
                userId phoneNumber found extractedData with
        | Returned result => Returned (Some result)
        | Threw error => Threw error
        end
      else Returned None in
    match updated with
    | Threw _ =>
        ({| reply := Some troubleText; s_action := "error"; escalate := None;
            s_extractedData := None; s_profileResult := None;
            nextQuestions := [] |},
         Some (foundOrCreated profileId userId phoneNumber found))
    | Returned profileResult =>
        let aiResponse := generateAIResponse extractedData profileResult in
        let nextQuestions :=
          match profileResult with
          | Some result =>
              generateNextQuestions (Some (stored result))
                (determineConversationStage message extractedData)
          | None => []
          end in
        ({| reply := Some aiResponse; s_action := "processed";
            escalate := None;
            s_extractedData := Some extractedData;
            s_profileResult := profileResult;
            nextQuestions := nextQuestions |},
         match profileResult with
         | Some result => Some (stored result)
         | None => found
         end)
    end.

End Pipeline.

End Pipeline.

Export Pipeline.

(** ** Feature flags (config/flags.js) *)

Module Flags.

Local Open Scope string_scope.

(** An object of flags, with its keys in insertion order. *)
Definition flags := list (string * bool).

(** [o[k]] *)
Fixpoint get (o : flags) (k : string) : option bool :=
  match o with
  | [] => None
  | (k', v) :: o' => if String.eqb k' k then Some v else get o' k
  end.

(** [o[k] = v]: an existing key keeps its place, a new one goes last. *)
Fixpoint set (o : flags) (k : string) (v : bool) : flags :=
  match o with
  | [] => [(k, v)]
  | (k', v') :: o' =>
      if String.eqb k' k then (k', v) :: o' else (k', v') :: set o' k v
  end.

(** [{ ...o, ...over }] *)
Definition spread (o over : flags) : flags :=
  fold_left (fun o '(k, v) => set o k v) over o.

Definition BASE_FLAGS : flags :=
  [ ("FEATURE_TWILIO_SMS", true);
    ("FEATURE_AGENT_MIRROR", true);
    ("FEATURE_KB_RAG", true);
    ("FEATURE_MCP_GUARDRAILS", true);
    ("FEATURE_SANDATA_READ", true);
    ("FEATURE_AUTHORIZATION_WIZARD", true);
    ("FEATURE_BILLING_DRAFTS", true);
    ("FEATURE_SANDATA_WRITE", false);
    ("FEATURE_CLIENT_PORTAL", false);
    ("FEATURE_TEAM_CHAT", false);
    ("FEATURE_EMAIL_SYSTEM", false);
    ("FEATURE_CARE_MANAGEMENT", false);
    ("FEATURE_VOICE_CALL_SUPPORT", false);
    ("FEATURE_NOTIFICATIONS", false);
    ("FEATURE_PROGRAM_INFO_PAGE", false);
    ("FEATURE_INSTALL_APP", false);
    ("FEATURE_DEV_LOGIN", false);
    ("FEATURE_DEBUG_LOGGING", false);
    ("FEATURE_MOCK_SERVICES", false) ].

(** [PHASE_OVERRIDES[currentPhase] || {}] *)
Definition PHASE_OVERRIDES (currentPhase : string) : flags :=
  if String.eqb currentPhase "testing" then
    [ ("FEATURE_DEV_LOGIN", true);
      ("FEATURE_DEBUG_LOGGING", true);
      ("FEATURE_MOCK_SERVICES", true) ]
  else if String.eqb currentPhase "onlinetest" then
    [ ("FEATURE_SANDATA_WRITE", true);
      ("FEATURE_DEV_LOGIN", false);
      ("FEATURE_DEBUG_LOGGING", false);
      ("FEATURE_MOCK_SERVICES", false) ]
  else if String.eqb currentPhase "live" then
    [ ("FEATURE_SANDATA_WRITE", true);
      ("FEATURE_CLIENT_PORTAL", true);
      ("FEATURE_TEAM_CHAT", true);
      ("FEATURE_EMAIL_SYSTEM", true);
      ("FEATURE_CARE_MANAGEMENT", true);
      ("FEATURE_VOICE_CALL_SUPPORT", true);
      ("FEATURE_NOTIFICATIONS", true);
      ("FEATURE_PROGRAM_INFO_PAGE", true);
      ("FEATURE_INSTALL_APP", true);
      ("FEATURE_DEV_LOGIN", false);
      ("FEATURE_DEBUG_LOGGING", false);
      ("FEATURE_MOCK_SERVICES", false) ]
  else [].

(** The constant [getCurrentPhase()] returns. *)
Definition getCurrentPhase : string := "testing".

(** The callback of the [forEach] over the keys: a variable of the
    environment that is set decides the flag. *)
Definition override (env : string -> option jsstring) (o : flags)
    (key : string) : flags :=
  match env key with
  | Some v => set o key (bool_decide (v = str "true"))
  | None => o
  end.

(** [getFeatureFlags()], for a phase and the variables of the environment. *)
Definition getFeatureFlags (currentPhase : string)
    (env : string -> option jsstring) : flags :=
  let phaseOverrides := PHASE_OVERRIDES currentPhase in
  let flags := spread [] BASE_FLAGS in
  let flags := spread flags phaseOverrides in
  fold_left (override env) (map fst flags) flags.

(** [isFeatureEnabled(featureName)] *)
Definition isFeatureEnabled (currentPhase : string)
    (env : string -> option jsstring) (featureName : string) : bool :=
  let flags := getFeatureFlags currentPhase env in
  match get flags featureName with
  | Some true => true
  | _ => false
  end.

(** [s.replace(pattern, replacement)] with a string pattern: the first
    occurrence only. *)
Fixpoint replaceFirst (pattern replacement s : jsstring) : jsstring :=
  if startsWith pattern s then (replacement ++ skipn (length pattern) s)%list
  else match s with
       | [] => []
       | c :: s' => c :: replaceFirst pattern replacement s'
       end.

(** [l.toUpperCase()] for one unit matched by [\w]. *)
Definition upperUnit (c : N) : N := if isLower c then (c - 32)%N else c.

(** [s.replace(/\b\w/g, l => l.toUpperCase())]: a word character that does
    not follow a word character. *)
Fixpoint capitalize (prev : option N) (s : jsstring) : jsstring :=
  match s with
  | [] => []
  | c :: s' =>
      (if isWordChar c && negb (isWordO prev) then upperUnit c else c)
      :: capitalize (Some c) s'
  end.

(** The readable name of a flag. *)
Definition featureName (key : string) : jsstring :=
  capitalize None
    (map (fun c => if (c =? 95)%N then 32%N else c)
       (toLowerCase (replaceFirst (str "FEATURE_") [] (str key)))).

Record feature := { key : string; name : jsstring; enabled : bool }.

(** [getComingSoonFeatures()] *)
Definition getComingSoonFeatures (currentPhase : string)
    (env : string -> option jsstring) : list feature :=
  let flags := getFeatureFlags currentPhase env in
  flat_map
    (fun '(key, v) =>
       if negb v && startsWith (str "FEATURE_") (str key)
       then [{| key := key; name := featureName key; enabled := false |}]
       else [])
    flags.

(** [getEnabledFeatures()] *)
Definition getEnabledFeatures (currentPhase : string)
    (env : string -> option jsstring) : list feature :=
  let flags := getFeatureFlags currentPhase env in
  flat_map
    (fun '(key, v) =>
       if v && startsWith (str "FEATURE_") (str key)
       then [{| key := key; name := featureName key; enabled := true |}]
       else [])
    flags.

(** What the middleware of [requireFeature(featureName)] does. *)
Inductive gate : Type :=
| NotAvailable        (* 404, "Feature not available" *)
| Next.

Definition requireFeature (currentPhase : string)
    (env : string -> option jsstring) (featureName : string) : gate :=
  if negb (isFeatureEnabled currentPhase env featureName) then NotAvailable
  else Next.

Record clientFeatureConfig := {
  phase : string;
  features : flags;
  enabledKeys : list string;
  comingSoon : list string
}.

(** [getClientFeatureConfig()] *)
Definition getClientFeatureConfig (currentPhase : string)
    (env : string -> option jsstring) : clientFeatureConfig :=
  let flags := getFeatureFlags currentPhase env in
  {| phase := currentPhase;
     features := flags;
     enabledKeys := map key (getEnabledFeatures currentPhase env);
     comingSoon := map key (getComingSoonFeatures currentPhase env) |}.

End Flags.

(** * Properties *)

(** ** The matcher against the declarative reading *)

Section MatcherCorrect.

Lemma lastO_app w1 w2 prev : lastO (w1 ++ w2) prev = lastO w2 (lastO w1 prev).
Proof. revert prev; induction w1 as [|x w1 IH]; intros prev; simpl; auto. Qed.

Lemma head_app_headO (w s : jsstring) : head (w ++ s) = headO w (head s).
Proof. destruct w; reflexivity. Qed.

Lemma lastO_nonempty w p q : w <> [] -> lastO w p = lastO w q.
Proof.
  destruct w as [|x w]; [congruence|]. intros _. reflexivity.
Qed.

Lemma chars_greedy_sound {A} c (k : option N -> jsstring -> option A) s :
  forall lo hi prev a,
    chars_greedy c lo hi prev s k = Some a ->
    exists w s', s = w ++ s' /\ Forall (fun x => c x = true) w
                 /\ (lo <= length w)%nat
                 /\ (forall h, hi = Some h -> (length w <= h)%nat)
                 /\ k (lastO w prev) s' = Some a.
Proof.
  induction s as [|x s IH]; intros lo hi prev a H; simpl in H.
  - destruct lo; [|discriminate].
    exists [], []. repeat split; auto; simpl; intros; lia.
  - assert (Hstop : match lo with O => k prev (x :: s) | S _ => None end = Some a ->
              exists w s', x :: s = w ++ s' /\ Forall (fun x => c x = true) w
                 /\ (lo <= length w)%nat
                 /\ (forall h, hi = Some h -> (length w <= h)%nat)
                 /\ k (lastO w prev) s' = Some a).
    { destruct lo; [|discriminate]. intros Hk.
      exists [], (x :: s). repeat split; auto; simpl; intros; lia. }
    destruct (c x) eqn:Hc; simpl in H; [|auto].
    destruct hi as [[|h]|]; simpl in H; auto.
    + destruct (chars_greedy c (Nat.pred lo) (Some h) (Some x) s k) eqn:Hr; [|auto].
      injection H as <-. apply IH in Hr as (w & s' & -> & Hw & Hlo & Hhi & Hk).
      exists (x :: w), s'. repeat split; simpl; auto; try lia.
      intros h' [= <-]. specialize (Hhi h eq_refl). lia.
    + destruct (chars_greedy c (Nat.pred lo) None (Some x) s k) eqn:Hr; [|auto].
      injection H as <-. apply IH in Hr as (w & s' & -> & Hw & Hlo & Hhi & Hk).
      exists (x :: w), s'. repeat split; simpl; auto; try lia. discriminate.
Qed.

Lemma chars_greedy_complete {A} c (k : option N -> jsstring -> option A) w :
  forall lo hi prev s',
    Forall (fun x => c x = true) w ->
    (lo <= length w)%nat ->
    (forall h, hi = Some h -> (length w <= h)%nat) ->
    k (lastO w prev) s' <> None ->
    chars_greedy c lo hi prev (w ++ s') k <> None.
Proof.
  induction w as [|x w IH]; intros lo hi prev s' Hw Hlo Hhi Hk; simpl in *.
  - assert (lo = O) as -> by lia.
    destruct s' as [|y s']; simpl; auto.
    destruct (c y && _); auto.
    destruct (chars_greedy _ _ _ _ _ _); auto; discriminate.
  - inversion Hw as [|? ? Hx Hw']; subst. rewrite Hx. simpl.
    assert (Hne : match hi with Some O => true | _ => false end = false).
    { destruct hi as [[|h]|]; auto. specialize (Hhi O eq_refl). lia. }
    rewrite Hne. simpl.
    assert (Hrec : chars_greedy c (Nat.pred lo) (option_map Nat.pred hi)
                     (Some x) (w ++ s') k <> None).
    { apply IH; auto; try lia.
      intros h Hh. destruct hi as [h0|]; simpl in Hh; [|discriminate].
      injection Hh as <-. specialize (Hhi h0 eq_refl). lia. }
    destruct (chars_greedy _ _ _ _ _ _); [discriminate|contradiction].
Qed.

Lemma run_sound {A} r :
  forall prev s caps (k : option N -> jsstring -> captures -> option A) a,
    run r prev s caps k = Some a ->
    exists w s' caps', s = w ++ s' /\ den r prev w (head s')
                       /\ k (lastO w prev) s' caps' = Some a.
Proof.
  induction r as [|c lo hi| |r1 IH1 r2 IH2|r1 IH1 r2 IH2|r1 IH1|n r1 IH1];
    intros prev s caps k a H; simpl in H.
  - exists [], s, caps. repeat split; auto. constructor.
  - apply chars_greedy_sound in H as (w & s' & -> & Hw & Hlo & Hhi & Hk).
    exists w, s', caps. repeat split; auto. constructor; auto.
  - destruct (xorb _ _) eqn:Hx; [|discriminate].
    exists [], s, caps. repeat split; auto. constructor.
    intros E. rewrite E in Hx. rewrite xorb_nilpotent in Hx. discriminate.
  - apply IH1 in H as (w1 & s1 & caps1 & -> & D1 & H).
    apply IH2 in H as (w2 & s2 & caps2 & -> & D2 & H).
    exists (w1 ++ w2), s2, caps2. rewrite lastO_app, <- app_assoc.
    repeat split; auto. constructor; auto.
    rewrite <- head_app_headO. exact D1.
  - destruct (run r1 prev s caps k) eqn:H1.
    + injection H as <-. apply IH1 in H1 as (w & s' & caps' & -> & D & H).
      exists w, s', caps'. repeat split; auto. now apply den_alt_l.
    + apply IH2 in H as (w & s' & caps' & -> & D & H).
      exists w, s', caps'. repeat split; auto. now apply den_alt_r.
  - destruct (run r1 prev s caps k) eqn:H1.
    + injection H as <-. apply IH1 in H1 as (w & s' & caps' & -> & D & H).
      exists w, s', caps'. repeat split; auto. now apply den_opt_some.
    + exists [], s, caps. repeat split; auto. apply den_opt_none.
  - apply IH1 in H as (w & s' & caps' & -> & D & H).
    eexists w, s', _. repeat split; eauto. now apply den_group.
Qed.

Lemma run_complete {A} r prev w next :
  den r prev w next ->
  forall s' caps (k : option N -> jsstring -> captures -> option A),
    next = head s' ->
    (forall caps', k (lastO w prev) s' caps' <> None) ->
    run r prev (w ++ s') caps k <> None.
Proof.
  induction 1 as [prev next|c lo hi prev w next Hw Hlo Hhi|prev next Hb
                 |r1 r2 prev w1 w2 next D1 IH1 D2 IH2
                 |r1 r2 prev w next D IH|r1 r2 prev w next D IH
                 |r prev w next D IH|r prev next|n r prev w next D IH];
    intros s' caps k Hn Hk; simpl.
  - apply Hk.
  - apply chars_greedy_complete; auto.
  - subst next. destruct (isWordO prev), (isWordO (head s')); simpl;
      try apply Hk; congruence.
  - rewrite <- app_assoc. apply IH1.
    + subst next. symmetry. apply head_app_headO.
    + intros caps'. apply IH2; auto.
      intros caps''. rewrite <- lastO_app. apply Hk.
  - specialize (IH s' caps k Hn Hk).
    destruct (run r1 prev (w ++ s') caps k); [discriminate|contradiction].
  - specialize (IH s' caps k Hn Hk).
    destruct (run r1 prev (w ++ s') caps k); [discriminate|assumption].
  - specialize (IH s' caps k Hn Hk).
    destruct (run r prev (w ++ s') caps k); [discriminate|contradiction].
  - destruct (run r prev s' caps k); [discriminate|apply Hk].
  - apply IH; auto.
Qed.

Lemma matchAt_sound r prev s rest caps :
  matchAt r prev s = Some (rest, caps) ->
  exists w, s = w ++ rest /\ den r prev w (head rest).
Proof.
  unfold matchAt. intros H.
  apply run_sound in H as (w & s' & caps' & -> & D & E).
  injection E as <- _. eauto.
Qed.

Lemma matchAt_complete r prev w s' :
  den r prev w (head s') -> matchAt r prev (w ++ s') <> None.
Proof.
  intros D. unfold matchAt. eapply run_complete; eauto; discriminate.
Qed.

End MatcherCorrect.

(** ** What a match of a delimited pattern looks like *)

Section PatternFacts.

Lemma den_allChars P r prev w next :
  allChars P r -> den r prev w next -> Forall P w.
Proof.
  intros HP D. induction D; simpl in HP; auto.
  - eapply List.Forall_impl; [|eassumption]. auto.
  - destruct HP. apply Forall_app; auto.
  - destruct HP; auto.
  - destruct HP; auto.
Qed.

Lemma den_mustRead P r prev w next :
  mustRead P r -> den r prev w next -> Exists P w.
Proof.
  intros HP D. induction D; simpl in HP; try contradiction.
  - destruct HP as [Hlo HP]. destruct w as [|x w]; [simpl in *; lia|].
    inversion H; subst. constructor. auto.
  - apply Exists_app. destruct HP; auto.
  - destruct HP; auto.
  - destruct HP; auto.
  - auto.
Qed.

Lemma den_nonempty P r prev w next :
  mustRead P r -> den r prev w next -> w <> [].
Proof.
  intros HP D E. subst. eapply den_mustRead in D; eauto. inversion D.
Qed.

Lemma den_startsWB r prev w next :
  startsWB r -> den r prev w next -> isWordO prev <> isWordO (headO w next).
Proof.
  destruct r as [| | |r1 r2| | |]; simpl; try contradiction.
  destruct r1; try contradiction. intros _ D.
  inversion D as [| | |? ? ? w1 w2 ? D1 D2| | | | |]; subst.
  inversion D1; subst. assumption.
Qed.

Lemma den_endsWB r : forall prev w next,
  endsWB r -> den r prev w next -> isWordO (lastO w prev) <> isWordO next.
Proof.
  induction r as [| | |r1 _ r2 IH2| | |]; simpl; intros prev w next HE D;
    try contradiction.
  - inversion D; subst. assumption.
  - inversion D as [| | |? ? ? w1 w2 ? D1 D2| | | | |]; subst.
    rewrite lastO_app. apply IH2; auto.
Qed.

Lemma isWordO_lastO w p q :
  isWordO p = isWordO q -> isWordO (lastO w p) = isWordO (lastO w q).
Proof.
  destruct w as [|x w]; simpl; auto.
Qed.

Lemma isWordO_headO w p q :
  isWordO p = isWordO q -> isWordO (headO w p) = isWordO (headO w q).
Proof.
  destruct w as [|x w]; simpl; auto.
Qed.

(** A match sees its surroundings only through [\b]: the units before and
    after may change as long as they stay on the same side of [\w]. *)
Lemma den_context r prev w next :
  den r prev w next ->
  forall prev' next',
    isWordO prev = isWordO prev' -> isWordO next = isWordO next' ->
    den r prev' w next'.
Proof.
  induction 1; intros prev' next' Hp Hn.
  - constructor.
  - constructor; auto.
  - constructor. congruence.
  - constructor.
    + apply IHden1; auto using isWordO_headO.
    + apply IHden2; auto using isWordO_lastO.
  - apply den_alt_l; auto.
  - apply den_alt_r; auto.
  - apply den_opt_some; auto.
  - apply den_opt_none.
  - apply den_group; auto.
Qed.

End PatternFacts.

(** ** Global scans *)

Section Scans.

Lemma src_app P Q : src (P ++ Q) = src P ++ src Q.
Proof. unfold src. apply flat_map_app. Qed.

Lemma dst_app P Q : dst (P ++ Q) = dst P ++ dst Q.
Proof. unfold dst. apply flat_map_app. Qed.

Lemma src_keep w : src (map Keep w) = w.
Proof. induction w; simpl; congruence. Qed.

Lemma dst_keep w : dst (map Keep w) = w.
Proof. induction w; simpl; congruence. Qed.

Lemma scanned_app r tmpl P : forall prev Q,
  scanned r tmpl prev (P ++ Q) -> scanned r tmpl (lastO (src P) prev) Q.
Proof.
  induction P as [|[c|m b] P IH]; intros prev Q H; simpl in *; auto.
  - destruct H as [_ H]. auto.
  - destruct H as (_ & _ & _ & H). rewrite lastO_app. auto.
Qed.

(** A global replacement is a scan. *)
Lemma replaceAll_scanned r tmpl :
  (forall prev w next, den r prev w next -> w <> []) ->
  forall s skip prev,
    (skip <= length s)%nat ->
    exists ps, src ps = skipn skip s
               /\ replaceAll r tmpl skip prev s = dst ps
               /\ scanned r tmpl (lastO (firstn skip s) prev) ps.
Proof.
  intros Hne. induction s as [|x s IH]; intros skip prev Hs.
  - simpl in Hs. assert (skip = O) as -> by lia. simpl.
    exists []. repeat split; auto.
    destruct (matchAt r prev []) as [[rest caps]|] eqn:M; auto.
    apply matchAt_sound in M as (w & E & D).
    symmetry in E. apply app_eq_nil in E as [-> _]. now apply Hne in D.
  - destruct skip as [|n]; simpl.
    + destruct (matchAt r prev (x :: s)) as [[rest caps]|] eqn:M.
      * apply matchAt_sound in M as (w & E & D).
        destruct w as [|y w]; [now apply Hne in D|].
        simpl in E. injection E as <- ->.
        replace (S (length (w ++ rest)) - length rest)%nat
          with (S (length w)) by (rewrite length_app; lia).
        destruct (IH (length w) (Some x)) as (ps & Hsrc & Hrep & Hsc);
          [rewrite length_app; lia|].
        rewrite drop_app_length in Hsrc. rewrite take_app_length in Hsc.
        exists (Repl (x :: w) (tmpl caps) :: ps). simpl.
        rewrite Hsrc, Hrep. repeat split; eauto; discriminate.
      * destruct (IH O (Some x)) as (ps & Hsrc & Hrep & Hsc); [lia|].
        simpl in *. exists (Keep x :: ps). simpl.
        rewrite Hsrc, Hrep. repeat split; auto.
        intros w s' E D. apply matchAt_complete in D. rewrite <- E in D.
        contradiction.
    + simpl in Hs. destruct (IH n (Some x)) as (ps & Hsrc & Hrep & Hsc); [lia|].
      exists ps. auto.
Qed.

Lemma noMatch_tail r prev x s : noMatch r prev (x :: s) -> noMatch r (Some x) s.
Proof.
  intros H a w b E. apply (H (x :: a) w b). simpl. now rewrite E.
Qed.

Lemma noMatch_matchAt r prev s : noMatch r prev s -> matchAt r prev s = None.
Proof.
  intros H. destruct (matchAt r prev s) as [[rest caps]|] eqn:M; auto.
  apply matchAt_sound in M as (w & E & D).
  exfalso. apply (H [] w rest); auto.
Qed.

(** Where nothing matches, [match] finds nothing and [replace] changes
    nothing. *)
Lemma noMatch_matchAll r s : forall prev,
  noMatch r prev s -> matchAll r 0 prev s = [].
Proof.
  induction s as [|x s IH]; intros prev H; simpl;
    rewrite (noMatch_matchAt _ _ _ H); auto.
  apply IH. eapply noMatch_tail; eauto.
Qed.

Lemma noMatch_replaceAll r tmpl s : forall prev,
  noMatch r prev s -> replaceAll r tmpl 0 prev s = s.
Proof.
  induction s as [|x s IH]; intros prev H; simpl;
    rewrite (noMatch_matchAt _ _ _ H); auto.
  f_equal. apply IH. eapply noMatch_tail; eauto.
Qed.

End Scans.

(** ** Full redaction leaves nothing to detect *)

Section FullRedact.

Lemma scanned_tokens r prev ps :
  scanned r (fun _ => REDACTED) prev ps -> tokens ps.
Proof.
  unfold tokens.
  revert prev. induction ps as [|[c|m b] ps IH]; intros prev H; simpl in H.
  - constructor.
  - destruct H as [_ H]. constructor; eauto.
  - destruct H as (_ & _ & [caps ->] & H). constructor; eauto.
Qed.

Lemma tokens_app P Q : tokens (P ++ Q) -> tokens P /\ tokens Q.
Proof. apply List.Forall_app. Qed.

(** A bracket-free text at the head of the output was copied through. *)
Lemma dst_prefix_kept w : forall ps b,
  dst ps = w ++ b ->
  Forall (fun c => isBracket c = false) w ->
  tokens ps ->
  exists P2, ps = map Keep w ++ P2 /\ dst P2 = b.
Proof.
  unfold tokens.
  induction w as [|x w IH]; intros ps b E Hw Ht; simpl in *.
  - exists ps. auto.
  - inversion Hw as [|? ? Hx Hw']; subst.
    destruct ps as [|[c|m t] ps]; simpl in E; [discriminate| |].
    + injection E as -> E. inversion Ht; subst.
      destruct (IH ps b E Hw') as (P2 & -> & <-); auto.
      exists P2. auto.
    + inversion Ht as [|? ? Hm Ht']; subst.
      injection E as <- _. discriminate Hx.
Qed.

Lemma upper_prefix u : forall (w b rest : jsstring),
  Forall (fun c => isUpper c = true) u ->
  w ++ b = u ++ 93 :: rest ->
  Forall (fun c => isBracket c = false) w ->
  Forall (fun c => isUpper c = true) w.
Proof.
  induction u as [|y u IH]; intros w b rest Hu E Hw; simpl in E.
  - destruct w as [|x w]; [constructor|].
    injection E as -> _. inversion Hw; subst. discriminate.
  - destruct w as [|x w]; [constructor|].
    injection E as -> E. inversion Hu; subst. inversion Hw; subst.
    constructor; eauto.
Qed.

(** A bracket-free text that starts inside a placeholder is made of its
    letters. *)
Lemma inside_token (a l w b rest : jsstring) :
  REDACTED = a ++ l -> l <> [] ->
  w ++ b = l ++ rest -> w <> [] ->
  Forall (fun c => isBracket c = false) w ->
  Forall (fun c => isUpper c = true) w.
Proof.
  intros E Hl Ew Hw Hb.
  destruct a as [|a0 a].
  - simpl in E. subst l. destruct w as [|x w]; [congruence|].
    injection Ew as -> _. inversion Hb; subst. discriminate.
  - assert (R : REDACTED = 91 :: [82; 69; 68; 65; 67; 84; 69; 68] ++ [93])
      by reflexivity.
    rewrite R in E. change ((a0 :: a) ++ l) with (a0 :: a ++ l) in E.
    injection E as _ E. symmetry in E.
    change [82; 69; 68; 65; 67; 84; 69; 68; 93]
      with ([82; 69; 68; 65; 67; 84; 69; 68] ++ [93]) in E. symmetry in E.
    apply List.app_eq_app in E as [l0 [[E1 E2]|[E1 E2]]].
    + subst l. rewrite <- app_assoc in Ew. simpl in Ew.
      apply (upper_prefix l0 w b rest); auto.
      assert (H : Forall (fun c => isUpper c = true) (a ++ l0)).
      { rewrite <- E1. repeat constructor. }
      apply List.Forall_app in H. tauto.
    + destruct l0 as [|z l0].
      * simpl in E2. subst l.
        apply (upper_prefix [] w b rest); auto.
      * destruct l0; destruct l; simpl in E2; try discriminate; congruence.
Qed.

(** Where a bracket-free text can sit in the output of a redacting scan:
    in the part copied through, or inside one placeholder. *)
Lemma dst_split ps : forall a w b,
  dst ps = a ++ w ++ b -> w <> [] ->
  Forall (fun c => isBracket c = false) w ->
  tokens ps ->
  (exists P1 P2, ps = P1 ++ map Keep w ++ P2 /\ dst P1 = a /\ dst P2 = b)
  \/ Forall (fun c => isUpper c = true) w.
Proof.
  unfold tokens.
  induction ps as [|p ps IH]; intros a w b E Hw Hb Ht.
  - simpl in E. destruct a, w; simpl in E; congruence.
  - destruct a as [|a0 a].
    + left. simpl in E.
      destruct (dst_prefix_kept w (p :: ps) b E Hb Ht) as (P2 & -> & <-).
      exists [], P2. auto.
    + inversion Ht as [|? ? Hp Ht']; subst.
      destruct p as [c|m t].
      * simpl in E. injection E as <- E.
        destruct (IH a w b E Hw Hb Ht') as [(P1 & P2 & -> & <- & <-)|H]; auto.
        left. exists (Keep c :: P1), P2. auto.
      * simpl in Hp. subst t.
        change (dst (Repl m REDACTED :: ps)) with (REDACTED ++ dst ps) in E.
        apply List.app_eq_app in E as [l [[E1 E2]|[E1 E2]]].
        -- destruct l as [|z l].
           ++ rewrite app_nil_r in E1. simpl in E2. symmetry in E2.
              destruct (dst_prefix_kept w ps b E2 Hb Ht') as (P2 & -> & <-).
              left. exists [Repl m REDACTED], P2.
              repeat split; auto.
           ++ right. eapply inside_token; eauto; discriminate.
        -- destruct (IH l w b E2 Hw Hb Ht') as [(P1 & P2 & -> & <- & <-)|H]; auto.
           left. exists (Repl m REDACTED :: P1), P2.
           repeat split; auto; rewrite E1; reflexivity.
Qed.

End FullRedact.

(** ** One redacting pass *)

Section Pass.

Lemma lastO_REDACTED s p : lastO (s ++ REDACTED) p = Some 93.
Proof. rewrite lastO_app. reflexivity. Qed.

Lemma head_REDACTED (s : jsstring) : head (REDACTED ++ s) = Some 91.
Proof. reflexivity. Qed.

Lemma bool_neq_false (b : bool) : false <> b -> b = true.
Proof. destruct b; congruence. Qed.

Lemma bool_neq_true (b : bool) : b <> true -> b = false.
Proof. destruct b; congruence. Qed.

(** One redacting pass for [r] does not create a match of [r0]: it leaves
    none of [r] itself, and none of a pattern that had none before. *)
Lemma scanned_pass r0 r prev ps :
  delimited r0 -> delimited r ->
  scanned r (fun _ => REDACTED) prev ps ->
  noMatch r0 prev (src ps) \/ r0 = r ->
  noMatch r0 prev (dst ps).
Proof.
  intros D0 Dr Hsc Hor a w b E D.
  assert (Hw : w <> []) by (eapply den_nonempty; [apply D0|eauto]).
  assert (Hb : Forall (fun c => isBracket c = false) w)
    by (eapply den_allChars; [apply D0|eauto]).
  destruct (dst_split ps a w b E Hw Hb (scanned_tokens _ _ _ Hsc))
    as [(P1 & P2 & -> & <- & <-)|Hup].
  2: { eapply den_mustRead in D; [|apply D0].
       apply List.Exists_exists in D as (x & Hin & Hx).
       rewrite List.Forall_forall in Hup. apply Hup in Hin. congruence. }
  pose proof (den_startsWB _ _ _ _ (d_start _ D0) D) as S0.
  pose proof (den_endsWB _ _ _ _ (d_end _ D0) D) as E0.
  destruct w as [|x w]; [congruence|]. simpl in S0.
  assert (A : isWordO (lastO (dst P1) prev) = isWordO (lastO (src P1) prev)).
  { destruct P1 as [|p P1 _] using rev_ind; [reflexivity|].
    rewrite dst_app, src_app, !lastO_app.
    destruct p as [c|m t]; [reflexivity|].
    rewrite <- app_assoc in Hsc. apply scanned_app in Hsc.
    destruct Hsc as (Hm & Dm & [caps ->] & _).
    apply (den_endsWB _ _ _ _ (d_end _ Dr)) in Dm.
    rewrite app_nil_l, src_app, src_keep in Dm. simpl in Dm.
    rewrite dst_app in S0.
    change (dst [Repl m REDACTED]) with (REDACTED ++ []) in S0.
    rewrite app_nil_r, lastO_REDACTED in S0.
    apply bool_neq_false in S0. rewrite S0 in Dm.
    apply bool_neq_true in Dm.
    change (src [Repl m REDACTED]) with (m ++ []).
    change (dst [Repl m REDACTED]) with (REDACTED ++ []).
    rewrite !app_nil_r. rewrite Dm.
    rewrite <- lastO_app, lastO_REDACTED. reflexivity. }
  assert (B : isWordO (head (dst P2)) = isWordO (head (src P2))).
  { destruct P2 as [|[c|m t] P2]; [reflexivity|reflexivity|].
    rewrite app_assoc in Hsc. apply scanned_app in Hsc.
    destruct Hsc as (Hm & Dm & [caps ->] & _).
    apply (den_startsWB _ _ _ _ (d_start _ Dr)) in Dm.
    rewrite src_app, src_keep, lastO_app in Dm.
    change (dst (Repl m REDACTED :: P2)) with (REDACTED ++ dst P2) in *.
    rewrite head_REDACTED in *.
    change (isWordO (Some 91)) with false in E0.
    apply not_false_iff_true in E0.
    rewrite (lastO_nonempty (x :: w) _ (lastO (dst P1) prev)) in Dm
      by discriminate.
    change (src (Repl m REDACTED :: P2)) with (m ++ src P2).
    rewrite head_app_headO.
    simpl in E0 |- *.
    destruct (isWordO (headO m (head (src P2)))); [exfalso|reflexivity].
    apply Dm. exact E0. }
  pose proof (den_context _ _ _ _ D _ _ A B) as D'.
  destruct Hor as [Hno| ->].
  - apply (Hno (src P1) (x :: w) (src P2)); auto.
    now rewrite !src_app, src_keep.
  - apply scanned_app in Hsc. simpl in Hsc. destruct Hsc as [Hk _].
    apply (Hk (x :: w) (src P2)); auto.
    now rewrite src_app, src_keep.
Qed.


End Pass.

(** Facts about the character classes, by arithmetic on code units. *)
Ltac class_facts :=
  intros;
  unfold isBracket, localClass, domainClass, tldClass, chr, oneOf, isAlpha,
    isUpper, isLower, isDigit, isSpace, isWordChar, between in *;
  cbn [existsb str map list_ascii_of_string N_of_ascii N_of_digits] in *;
  repeat match goal with
         | H : _ = true |- _ =>
             rewrite ?orb_true_iff, ?andb_true_iff, ?N.leb_le, ?N.eqb_eq in H
         end;
  rewrite ?orb_false_iff, ?andb_false_iff, ?N.leb_gt, ?N.eqb_neq;
  lia.

Section PhiPatterns.

Lemma delimited_ssn : delimited ssnPattern.
Proof.
  split; simpl; auto.
  - repeat split; auto; class_facts.
  - right; left. split; [lia|class_facts].
Qed.

Lemma delimited_card : delimited cardPattern.
Proof.
  split; simpl; auto.
  - repeat split; auto; class_facts.
  - right; left. split; [lia|class_facts].
Qed.

Lemma delimited_email : delimited emailPattern.
Proof.
  split; simpl; auto.
  - repeat split; auto; class_facts.
  - right; right; left. split; [lia|class_facts].
Qed.

Lemma delimited_phone : delimited PhiGuard.phonePattern.
Proof.
  split; simpl; auto.
  - repeat split; auto; class_facts.
  - right; left. split; [lia|class_facts].
Qed.

Lemma delimited_date : delimited datePattern.
Proof.
  split; simpl; auto.
  - repeat split; auto; class_facts.
  - right; left. split; [lia|class_facts].
Qed.

Lemma delimited_phiPatterns : Forall delimited phiPatterns.
Proof.
  unfold phiPatterns.
  apply List.Forall_cons; [apply delimited_ssn|].
  apply List.Forall_cons; [apply delimited_card|].
  apply List.Forall_cons; [apply delimited_email|].
  apply List.Forall_cons; [apply delimited_phone|].
  apply List.Forall_cons; [apply delimited_date|].
  apply List.Forall_nil.
Qed.

Lemma replace_pass r0 r t :
  delimited r0 -> delimited r ->
  noMatch r0 None t \/ r0 = r ->
  noMatch r0 None (replace r (fun _ => REDACTED) t).
Proof.
  intros D0 Dr Hor. unfold replace.
  destruct (replaceAll_scanned r (fun _ => REDACTED)
              (fun prev w next => den_nonempty _ r prev w next (d_must _ Dr))
              t O None) as (ps & Hs & -> & Hsc);
    [lia|].
  change (drop 0 t) with t in Hs. simpl in Hsc. subst t.
  eapply scanned_pass; eauto.
Qed.

Lemma fold_replace_noMatch patterns : forall text r0,
  Forall delimited patterns -> In r0 patterns ->
  noMatch r0 None
    (fold_left (fun redacted pattern => replace pattern (fun _ => REDACTED) redacted)
       patterns text).
Proof.
  induction patterns as [|r patterns IH] using rev_ind; intros text r0 HD Hin.
  - destruct Hin.
  - rewrite fold_left_app. simpl.
    apply List.Forall_app in HD as [HD Hr]. inversion Hr; subst.
    assert (D0 : delimited r0).
    { rewrite List.Forall_forall in HD.
      apply in_app_or in Hin as [Hin|[<-|[]]]; auto. }
    apply replace_pass; auto.
    apply in_app_or in Hin as [Hin|[<-|[]]]; auto.
Qed.


(** C2: for every text, the output of [redactPHI(text, 'full_redact')]
    contains no match of any of the five PHI patterns, and [detectPHI] on
    it returns the empty list. *)
Theorem full_redact_leaves_no_phi (text : jsstring) :
  detectPHI (redactPHI text "full_redact") = []
  /\ Forall (fun pattern => noMatch pattern None (redactPHI text "full_redact"))
       phiPatterns.
Proof.
  assert (H : forall pattern, In pattern phiPatterns ->
                noMatch pattern None (redactPHI text "full_redact")).
  { intros pattern Hin. unfold redactPHI. simpl String.eqb. cbv iota.
    apply fold_replace_noMatch; auto using delimited_phiPatterns. }
  split; [|apply List.Forall_forall; exact H].
  unfold detectPHI, phiPatterns, phiTypes in *.
  cbn [combine flat_map].
  rewrite !noMatch_matchAll; [reflexivity|apply H; simpl; tauto..].
Qed.

End PhiPatterns.

(** ** Classification *)

Section Classification.

Lemma startsWith_spec k : forall s,
  startsWith k s = true <-> exists post, s = k ++ post.
Proof.
  induction k as [|a k IH]; intros s; simpl.
  - split; eauto.
  - destruct s as [|b s].
    + split; [discriminate|]. intros [post E]. discriminate.
    + rewrite andb_true_iff, N.eqb_eq, IH. split.
      * intros [-> [post ->]]. eauto.
      * intros [post E]. injection E as -> ->. eauto.
Qed.

(** [includes] is substring containment. *)
Lemma includes_spec s : forall k,
  includes s k = true <-> exists pre post, s = pre ++ k ++ post.
Proof.
  induction s as [|c s IH]; intros k; simpl; rewrite orb_true_iff, startsWith_spec.
  - split.
    + intros [[post E]|H]; [|discriminate]. exists [], post. exact E.
    + intros (pre & post & E). left. destruct pre; [|discriminate].
      exists post. exact E.
  - rewrite IH. split.
    + intros [[post E]|(pre & post & E)].
      * exists [], post. exact E.
      * exists (c :: pre), post. simpl. now rewrite E.
    + intros (pre & post & E). destruct pre as [|c' pre].
      * left. exists post. exact E.
      * right. injection E as _ E. eauto.
Qed.

Lemma some_true lower (l : list jsstring) lowerMessage keyword pre post :
  In keyword l -> lowerMessage = pre ++ lower keyword ++ post ->
  Classifier.some lower l lowerMessage = true.
Proof.
  intros Hin E. unfold Classifier.some. apply existsb_exists.
  exists keyword. split; auto. apply includes_spec. eauto.
Qed.

End Classification.

(** C1: whenever the lower-cased message contains the lower-cased form of
    one of the policy's emergency keywords as a substring, [classifyContent]
    returns the emergency classification, whatever the other lists of the
    policy hold and whatever else the message says.  This holds for any
    lower-casing function. *)
Theorem emergency_takes_precedence
    (lower : jsstring -> jsstring) (mcpPolicy : policy)
    (message keyword pre post : jsstring) :
  In keyword (keywords (emergency_handling mcpPolicy)) ->
  lower message = pre ++ lower keyword ++ post ->
  classifyContent lower mcpPolicy (VStr message)
  = Returned {| category := "emergency"; action := "immediate_redirect";
                priority := "critical" |}.
Proof.
  intros Hin E. unfold classifyContent, classifyString.
  rewrite (some_true lower _ _ keyword pre post Hin E). reflexivity.
Qed.

Lemma emergency_takes_precedence_witness :
  let mcpPolicy :=
    {| emergency_handling :=
         {| keywords := [str "911"; str "Heart Attack"];
            response := str "Call 911 now." |};
       strict_blocks := [str "diagnosis"];
       soft_blocks := [str "weather"];
       allowed_domains :=
         {| primary_services := [str "personal care"];
            administrative := [str "eligibility"];
            informational := [str "hours"] |};
       ai_model_config := None;
       privacy_protection := None |} in
  let message := str "I want a diagnosis and eligibility: dad has a HEART attack!" in
  In (str "Heart Attack") (keywords (emergency_handling mcpPolicy))
  /\ toLowerCase message
     = str "i want a diagnosis and eligibility: dad has a "
       ++ toLowerCase (str "Heart Attack") ++ str "!"
  /\ classifyContent toLowerCase mcpPolicy (VStr message)
     = Returned {| category := "emergency"; action := "immediate_redirect";
                   priority := "critical" |}.
Proof.
  intros mcpPolicy message.
  assert (H1 : In (str "Heart Attack") (keywords (emergency_handling mcpPolicy)))
    by (simpl; tauto).
  assert (H2 : toLowerCase message
               = str "i want a diagnosis and eligibility: dad has a "
                 ++ toLowerCase (str "Heart Attack") ++ str "!")
    by (vm_compute; reflexivity).
  split; [exact H1|]. split; [exact H2|].
  exact (emergency_takes_precedence toLowerCase mcpPolicy message
           (str "Heart Attack") _ _ H1 H2).
Defined.

(** ** Captures *)

Section Captures.

Lemma denc_den r prev w next caps : denc r prev w next caps -> den r prev w next.
Proof.
  induction 1.
  - apply den_eps.
  - apply den_chars; auto.
  - apply den_wordb; auto.
  - apply den_seq; auto.
  - apply den_alt_l; auto.
  - apply den_alt_r; auto.
  - apply den_opt_some; auto.
  - apply den_opt_none.
  - apply den_group; auto.
Qed.

Lemma firstn_consumed (w s' : jsstring) :
  firstn (length (w ++ s') - length s') (w ++ s') = w.
Proof.
  rewrite length_app.
  replace (length w + length s' - length s')%nat with (length w) by lia.
  apply take_app_length.
Qed.

Lemma run_sound_caps {A} r :
  forall prev s caps (k : option N -> jsstring -> captures -> option A) a,
    run r prev s caps k = Some a ->
    exists w s' new, s = w ++ s' /\ denc r prev w (head s') new
                     /\ k (lastO w prev) s' (new ++ caps) = Some a.
Proof.
  induction r as [|c lo hi| |r1 IH1 r2 IH2|r1 IH1 r2 IH2|r1 IH1|n r1 IH1];
    intros prev s caps k a H; simpl in H.
  - exists [], s, []. repeat split; auto. constructor.
  - apply chars_greedy_sound in H as (w & s' & -> & Hw & Hlo & Hhi & Hk).
    exists w, s', []. repeat split; auto. constructor; auto.
  - destruct (xorb _ _) eqn:Hx; [|discriminate].
    exists [], s, []. repeat split; auto. constructor.
    intros E. rewrite E in Hx. rewrite xorb_nilpotent in Hx. discriminate.
  - apply IH1 in H as (w1 & s1 & c1 & -> & D1 & H).
    apply IH2 in H as (w2 & s2 & c2 & -> & D2 & H).
    exists (w1 ++ w2), s2, (c2 ++ c1). rewrite lastO_app, <- !app_assoc.
    repeat split; auto. constructor; auto.
    rewrite <- head_app_headO. exact D1.
  - destruct (run r1 prev s caps k) eqn:H1.
    + injection H as <-. apply IH1 in H1 as (w & s' & c & -> & D & H).
      exists w, s', c. repeat split; auto. now apply denc_alt_l.
    + apply IH2 in H as (w & s' & c & -> & D & H).
      exists w, s', c. repeat split; auto. now apply denc_alt_r.
  - destruct (run r1 prev s caps k) eqn:H1.
    + injection H as <-. apply IH1 in H1 as (w & s' & c & -> & D & H).
      exists w, s', c. repeat split; auto. now apply denc_opt_some.
    + exists [], s, []. repeat split; auto. apply denc_opt_none.
  - apply IH1 in H as (w & s' & c & -> & D & H).
    rewrite firstn_consumed in H.
    exists w, s', ((n, w) :: c). repeat split; auto. now apply denc_group.
Qed.

Lemma matchAt_sound_caps r prev s rest caps :
  matchAt r prev s = Some (rest, caps) ->
  exists w, s = w ++ rest /\ denc r prev w (head rest) caps.
Proof.
  unfold matchAt. intros H.
  apply run_sound_caps in H as (w & s' & new & -> & D & E).
  injection E as <- <-. rewrite app_nil_r. eauto.
Qed.

(** What [match] returns is a match: the text read and the captures of a
    reading of the pattern at some position of the input. *)
Lemma search_sound r s : forall prev m caps,
  search r prev s = Some (m, caps) ->
  exists a b, s = a ++ m ++ b /\ denc r (lastO a prev) m (head b) caps.
Proof.
  induction s as [|x s IH]; intros prev m caps H.
  - simpl in H.
    destruct (matchAt r prev []) as [[rest c]|] eqn:M; [|discriminate].
    injection H as <- <-. apply matchAt_sound_caps in M as (w & E & D).
    symmetry in E. apply app_eq_nil in E as [-> ->].
    exists [], []. auto.
  - change (search r prev (x :: s))
      with (match matchAt r prev (x :: s) with
            | Some (rest, caps) =>
                Some (firstn (length (x :: s) - length rest) (x :: s), caps)
            | None => search r (Some x) s
            end) in H.
    destruct (matchAt r prev (x :: s)) as [[rest c]|] eqn:M.
    + injection H as <- <-. apply matchAt_sound_caps in M as (w & E & D).
      exists [], rest. change (S (length s)) with (length (x :: s)).
      rewrite E, !firstn_consumed. auto.
    + apply IH in H as (a & b & -> & D). exists (x :: a), b. auto.
Qed.

End Captures.

Ltac inv_denc :=
  repeat match goal with
         | H : denc (Seq _ _) _ _ _ _ |- _ => inversion H; subst; clear H
         | H : denc (Group _ _) _ _ _ _ |- _ => inversion H; subst; clear H
         | H : denc WordB _ _ _ _ |- _ => inversion H; subst; clear H
         | H : denc (Chars _ _ _) _ _ _ _ |- _ => inversion H; subst; clear H
         | H : denc (Alt _ _) _ _ _ _ |- _ => inversion H; subst; clear H
         | H : denc (Opt _) _ _ _ _ |- _ => inversion H; subst; clear H
         | H : denc Eps _ _ _ _ |- _ => inversion H; subst; clear H
         end.

(** ** Partial masking *)

Section Frame.

Lemma lastO_last (a : jsstring) : forall prev,
  lastO a prev = match last a with Some c => Some c | None => prev end.
Proof.
  induction a as [|x a IH]; intros prev; simpl; [reflexivity|].
  rewrite IH. destruct a as [|n a]; [reflexivity|].
  change (last (x :: n :: a)) with (last (n :: a)).
  destruct (last (n :: a)) eqn:E; [reflexivity|].
  apply last_None in E. discriminate.
Qed.

Lemma src_Keep (w : jsstring) : src (map Keep w) = w.
Proof. induction w as [|c w IH]; [reflexivity|]. simpl. now rewrite IH. Qed.

Lemma dst_Keep (w : jsstring) : dst (map Keep w) = w.
Proof. induction w as [|c w IH]; [reflexivity|]. simpl. now rewrite IH. Qed.

Lemma dst_edit k m caps : dst (edit k m caps) = maskTemplate k caps.
Proof.
  unfold edit, maskTemplate. rewrite dst_app, dst_Keep.
  change (dst (Repl ?x ?y :: ?l)) with (y ++ dst l).
  now rewrite dst_Keep.
Qed.

(** The script writes what the replacement returns. *)
Lemma dst_editScript k s : forall skip prev,
  dst (editScript k skip prev s)
  = replaceAll (reads k) (maskTemplate k) skip prev s.
Proof.
  induction s as [|x s IH]; intros skip prev.
  - simpl. destruct skip; [|reflexivity].
    destruct (matchAt (reads k) prev []) as [[rest caps]|]; [|reflexivity].
    apply dst_edit.
  - cbn [editScript replaceAll]. destruct skip as [|n]; [|apply IH].
    destruct (matchAt (reads k) prev (x :: s)) as [[rest caps]|].
    + destruct (length (x :: s) - length rest)%nat as [|n].
      * rewrite dst_app, dst_edit.
        change (dst (Keep x :: ?l)) with (x :: dst l). now rewrite IH.
      * rewrite dst_app, dst_edit. now rewrite IH.
    + change (dst (Keep x :: ?l)) with (x :: dst l). now rewrite IH.
Qed.

Lemma dst_script k text : dst (script k text) = replace (reads k) (maskTemplate k) text.
Proof. apply dst_editScript. Qed.

Lemma src_edit k (mid : jsstring) caps :
  src (edit k (keepsFirst k caps ++ mid ++ keepsLast k caps) caps)
  = keepsFirst k caps ++ mid ++ keepsLast k caps.
Proof.
  unfold edit. cbv zeta. rewrite src_app, src_Keep.
  change (src (Repl ?x ?y :: ?l)) with (x ++ src l). rewrite src_Keep.
  rewrite !length_app.
  replace (length (keepsFirst k caps) + (length mid + length (keepsLast k caps))
           - length (keepsLast k caps))%nat
    with (length (keepsFirst k caps ++ mid)) by (rewrite length_app; lia).
  replace (keepsFirst k caps ++ mid ++ keepsLast k caps)
    with ((keepsFirst k caps ++ mid) ++ keepsLast k caps) at 1
    by (now rewrite <- app_assoc).
  now rewrite take_app_length, drop_app_length.
Qed.

(** The script reads the text, all of it and in order. *)
Lemma src_editScript k (Hk : splits k) s : forall skip prev,
  (skip <= length s)%nat ->
  src (editScript k skip prev s) = skipn skip s.
Proof.
  induction s as [|x s IH]; intros skip prev Hs.
  - simpl in Hs. assert (skip = O) by lia. subst. simpl.
    destruct (matchAt (reads k) prev []) as [[rest caps]|] eqn:M; [|reflexivity].
    apply Hk in M as (m & mid & E & Hm & _).
    symmetry in E. apply app_eq_nil in E as [-> _]. congruence.
  - cbn [editScript]. destruct skip as [|n].
    + destruct (matchAt (reads k) prev (x :: s)) as [[rest caps]|] eqn:M.
      * apply Hk in M as (m & mid & E & Hm & Em).
        rewrite E, length_app.
        replace (length m + length rest - length rest)%nat with (length m) by lia.
        destruct m as [|c m]; [congruence|]. cbn [length].
        rewrite <- (length_cons c m), take_app_length.
        rewrite src_app. rewrite Em at 1. rewrite src_edit, <- Em.
        injection E as -> ->.
        rewrite IH by (rewrite length_app; lia).
        cbn [skipn app]. now rewrite drop_app_length.
      * change (src (Keep x :: ?l)) with (x :: src l).
        rewrite IH by lia. reflexivity.
    + cbn [skipn]. apply IH. simpl in Hs. lia.
Qed.

Lemma src_script k (Hk : splits k) text : src (script k text) = text.
Proof. apply (src_editScript k Hk text 0 None). lia. Qed.

End Frame.

Section Splits.

Lemma nonempty_app (u v : jsstring) : (1 <= length u)%nat -> u ++ v <> [].
Proof. destruct u; simpl; [lia|discriminate]. Qed.

Lemma splits_ssn : splits ssnMasking.
Proof.
  intros prev s rest caps M. apply matchAt_sound_caps in M as (m & -> & D).
  cbv [ssnMasking reads ssnMask seqs rep one] in D. inv_denc.
  match goal with
  | |- exists m mid, ([] ++ ?g1 ++ ?d1 ++ ?g2 ++ ?d2 ++ ?g3 ++ []) ++ _ = _ /\ _ =>
      exists (g1 ++ d1 ++ g2 ++ d2 ++ g3), (g1 ++ d1 ++ g2 ++ d2)
  end.
  cbn [app keepsFirst keepsLast ssnMasking capture Nat.eqb].
  rewrite !app_nil_r, <- !app_assoc.
  split; [reflexivity|]. split; [apply nonempty_app; lia|reflexivity].
Qed.

Lemma splits_phone : splits phoneMasking.
Proof.
  intros prev s rest caps M. apply matchAt_sound_caps in M as (m & -> & D).
  cbv [phoneMasking reads phoneMask seqs rep opt] in D. inv_denc.
  match goal with
  | |- exists m mid, ([] ++ ?g1 ++ ?d1 ++ ?g2 ++ ?d2 ++ ?g3 ++ []) ++ _ = _ /\ _ =>
      exists (g1 ++ d1 ++ g2 ++ d2 ++ g3), (g1 ++ d1 ++ g2 ++ d2)
  end.
  cbn [app keepsFirst keepsLast phoneMasking capture Nat.eqb].
  rewrite !app_nil_r, <- !app_assoc.
  split; [reflexivity|]. split; [apply nonempty_app; lia|reflexivity].
Qed.

Lemma splits_email : splits emailMasking.
Proof.
  intros prev s rest caps M. apply matchAt_sound_caps in M as (m & -> & D).
  cbv [emailMasking reads emailMask seqs one star plus] in D. inv_denc.
  match goal with
  | |- exists m mid, ([] ++ ?c1 ++ ?l ++ ?at_ ++ ?dom ++ []) ++ _ = _ /\ _ =>
      exists (c1 ++ l ++ at_ ++ dom), (l ++ at_)
  end.
  cbn [app keepsFirst keepsLast emailMasking capture Nat.eqb].
  rewrite !app_nil_r, <- !app_assoc.
  split; [reflexivity|]. split; [apply nonempty_app; lia|reflexivity].
Qed.

(** [mask_partial] is its three scripts, one after the other. *)
Lemma mask_partial_scripts (text : jsstring) :
  redactPHI text "mask_partial"
  = dst (script emailMasking
           (dst (script phoneMasking (dst (script ssnMasking text))))).
Proof. rewrite !dst_script. reflexivity. Qed.

End Splits.

Section MaskPatterns.

Lemma mask_nonempty r :
  In r maskPatterns -> forall prev w next, den r prev w next -> w <> [].
Proof.
  intros [<-|[<-|[<-|[]]]] prev w next;
    apply (den_nonempty (fun _ => True)); simpl; right; left;
    (split; [lia|auto]).
Qed.

(** One pass replaces matches of its pattern and copies the rest. *)
Lemma mask_pass_scanned k (text : jsstring) :
  In (reads k) maskPatterns ->
  exists ps, src ps = text
             /\ scanned (reads k) (maskTemplate k) None ps
             /\ replace (reads k) (maskTemplate k) text = dst ps.
Proof.
  intros Hin.
  destruct (replaceAll_scanned (reads k) (maskTemplate k)
              (mask_nonempty _ Hin) text O None) as (ps & E & R & Hs); [lia|].
  exists ps. auto.
Qed.

End MaskPatterns.

(** C10 (as the code has it): [redactPHI(text, 'mask_partial')] is three
    replacements, each applied to the result of the one before, and each
    rewrites only spans its pattern matches: the units outside them are
    copied.  A span of the text, a card number or a date among them, that each
    of the three replacements copies unit by unit is returned unchanged and in
    its place, between what the replacements make of the text before it and
    of the text after it.  Of a match the replacements copy the last four
    digits (SSN, phone), the first letter and the domain (e-mail). *)
Theorem mask_partial_keeps_copied_span (text : jsstring) :
  let ssn := script ssnMasking text in
  let phone := script phoneMasking (dst ssn) in
  let email := script emailMasking (dst phone) in
  (src ssn = text /\ src phone = dst ssn /\ src email = dst phone
   /\ redactPHI text "mask_partial" = dst email)
  /\ (exists ps1 ps2 ps3,
        src ps1 = text
        /\ scanned ssnMask (maskTemplate ssnMasking) None ps1
        /\ src ps2 = dst ps1
        /\ scanned phoneMask (maskTemplate phoneMasking) None ps2
        /\ src ps3 = dst ps2
        /\ scanned emailMask (maskTemplate emailMasking) None ps3
        /\ redactPHI text "mask_partial" = dst ps3)
  /\ forall (a w b : jsstring) (P1 P2 Q1 Q2 R1 R2 : list piece),
       text = a ++ w ++ b ->
       ssn = P1 ++ map Keep w ++ P2 -> src P1 = a ->
       phone = Q1 ++ map Keep w ++ Q2 -> src Q1 = dst P1 ->
       email = R1 ++ map Keep w ++ R2 -> src R1 = dst Q1 ->
       redactPHI text "mask_partial" = dst R1 ++ w ++ dst R2
       /\ src P2 = b /\ src Q2 = dst P2 /\ src R2 = dst Q2.
Proof.
  intros ssn phone email.
  assert (S1 : src ssn = text) by apply (src_script _ splits_ssn).
  assert (S2 : src phone = dst ssn) by apply (src_script _ splits_phone).
  assert (S3 : src email = dst phone) by apply (src_script _ splits_email).
  assert (R : redactPHI text "mask_partial" = dst email)
    by apply mask_partial_scripts.
  split; [auto|]. split.
  - destruct (mask_pass_scanned ssnMasking text) as (ps1 & E1 & H1 & D1);
      [simpl; tauto|].
    destruct (mask_pass_scanned phoneMasking (dst ps1)) as (ps2 & E2 & H2 & D2);
      [simpl; tauto|].
    destruct (mask_pass_scanned emailMasking (dst ps2)) as (ps3 & E3 & H3 & D3);
      [simpl; tauto|].
    exists ps1, ps2, ps3. repeat (split; [assumption|]).
    rewrite R. unfold email, phone, ssn. rewrite !dst_script.
    now rewrite D1, D2, D3.
  - intros a w b P1 P2 Q1 Q2 R1 R2 -> C1 A1 C2 A2 C3 A3.
    rewrite C1, src_app, src_app, src_Keep, A1 in S1.
    apply app_inv_head in S1. apply app_inv_head in S1.
    rewrite C2, C1, !src_app, !dst_app, src_Keep, dst_Keep, A2 in S2.
    apply app_inv_head in S2. apply app_inv_head in S2.
    rewrite C3, C2, !src_app, !dst_app, src_Keep, dst_Keep, A3 in S3.
    apply app_inv_head in S3. apply app_inv_head in S3.
    rewrite R, C3, !dst_app, dst_Keep. auto.
Qed.

Lemma mask_partial_keeps_copied_span_witness :
  (let a := str "call 555-123-4567, card " in
   let w := str "4111 1111 1111 1111" in
   let b := str ". born 12/25/1990; mail bob@example.com" in
   let ssn := script ssnMasking (a ++ w ++ b) in
   let phone := script phoneMasking (dst ssn) in
   let email := script emailMasking (dst phone) in
   let part (n : nat) (s : list piece) := (firstn n s, skipn (n + length w) s) in
   let P := part 24%nat ssn in
   let Q := part 17%nat phone in
   let R := part 24%nat email in
   (ssn = P.1 ++ map Keep w ++ P.2 /\ src P.1 = a)
   /\ (phone = Q.1 ++ map Keep w ++ Q.2 /\ src Q.1 = dst P.1)
   /\ (email = R.1 ++ map Keep w ++ R.2 /\ src R.1 = dst Q.1)
   /\ dst R.1 = str "call XXX-XXX-4567, card "
   /\ dst R.2 = str ". born 12/25/1990; mail b***@example.com"
   /\ redactPHI (a ++ w ++ b) "mask_partial" = dst R.1 ++ w ++ dst R.2)
  /\ (let a := str "to a@" in
      let w := str "1234567812345678" in
      let b := str ".com" in
      let ssn := script ssnMasking (a ++ w ++ b) in
      let phone := script phoneMasking (dst ssn) in
      let email := script emailMasking (dst phone) in
      let part (n : nat) (s : list piece) := (firstn n s, skipn (n + length w) s) in
      let P := part 5%nat ssn in
      let Q := part 5%nat phone in
      let R := part 5%nat email in
      map (fun d => (type d, matches d)) (detectPHI (a ++ w ++ b))
      = [("credit_card"%string, [w]);
         ("email"%string, [str "a@1234567812345678.com"])]
      /\ (ssn = P.1 ++ map Keep w ++ P.2 /\ src P.1 = a)
      /\ (phone = Q.1 ++ map Keep w ++ Q.2 /\ src Q.1 = dst P.1)
      /\ (email = R.1 ++ map Keep w ++ R.2 /\ src R.1 = dst Q.1)
      /\ dst R.1 = str "to a***@"
      /\ dst R.2 = str ".com"
      /\ redactPHI (a ++ w ++ b) "mask_partial" = dst R.1 ++ w ++ dst R.2).
Proof.
  split.
  - intros a w b ssn phone email part P Q R.
    assert (H1 : ssn = P.1 ++ map Keep w ++ P.2 /\ src P.1 = a)
      by (split; vm_compute; reflexivity).
    assert (H2 : phone = Q.1 ++ map Keep w ++ Q.2 /\ src Q.1 = dst P.1)
      by (split; vm_compute; reflexivity).
    assert (H3 : email = R.1 ++ map Keep w ++ R.2 /\ src R.1 = dst Q.1)
      by (split; vm_compute; reflexivity).
    repeat (split; [assumption|]).
    split; [vm_compute; reflexivity|]. split; [vm_compute; reflexivity|].
    destruct (mask_partial_keeps_copied_span (a ++ w ++ b)) as (_ & _ & F).
    exact (proj1 (F a w b P.1 P.2 Q.1 Q.2 R.1 R.2 eq_refl
                    (proj1 H1) (proj2 H1) (proj1 H2) (proj2 H2)
                    (proj1 H3) (proj2 H3))).
  - intros a w b ssn phone email part P Q R.
    assert (H1 : ssn = P.1 ++ map Keep w ++ P.2 /\ src P.1 = a)
      by (split; vm_compute; reflexivity).
    assert (H2 : phone = Q.1 ++ map Keep w ++ Q.2 /\ src Q.1 = dst P.1)
      by (split; vm_compute; reflexivity).
    assert (H3 : email = R.1 ++ map Keep w ++ R.2 /\ src R.1 = dst Q.1)
      by (split; vm_compute; reflexivity).
    split; [vm_compute; reflexivity|].
    repeat (split; [assumption|]).
    split; [vm_compute; reflexivity|]. split; [vm_compute; reflexivity|].
    destruct (mask_partial_keeps_copied_span (a ++ w ++ b)) as (_ & _ & F).
    exact (proj1 (F a w b P.1 P.2 Q.1 Q.2 R.1 R.2 eq_refl
                    (proj1 H1) (proj2 H1) (proj1 H2) (proj2 H2)
                    (proj1 H3) (proj2 H3))).
Defined.

(** C10 as stated fails: a card number that [detectPHI] reports inside the
    local part of an e-mail address is rewritten with the address, and a date
    whose last group starts a dashed phone number is rewritten with the
    number. *)
Lemma mask_partial_rewrites_card_and_date :
  map (fun d => (type d, matches d)) (detectPHI (str "a.1234567812345678@x.com"))
  = [("credit_card"%string, [str "1234567812345678"]);
     ("email"%string, [str "a.1234567812345678@x.com"])]
  /\ redactPHI (str "a.1234567812345678@x.com") "mask_partial" = str "a***@x.com"
  /\ includes (redactPHI (str "a.1234567812345678@x.com") "mask_partial")
       (str "1234567812345678") = false
  /\ map (fun d => (type d, matches d)) (detectPHI (str "1/2/555-123-4567"))
     = [("date"%string, [str "1/2/555"])]
  /\ redactPHI (str "1/2/555-123-4567") "mask_partial" = str "1/2/XXX-XXX-4567"
  /\ includes (redactPHI (str "1/2/555-123-4567") "mask_partial")
       (str "1/2/555") = false.
Proof.
  repeat split; vm_compute; reflexivity.
Qed.

Local Open Scope string_scope.

(** ** Malformed messages *)

Section Malformed.

Lemma toLowerCase_nil k : toLowerCase k = [] -> k = [].
Proof. destruct k; [auto|discriminate]. Qed.

Lemma some_nil (l : list jsstring) :
  ~ In [] l -> Classifier.some toLowerCase l [] = false.
Proof.
  intros H. unfold Classifier.some. apply not_true_is_false. intros E.
  apply existsb_exists in E as (k & Hin & Hk).
  simpl in Hk. rewrite orb_false_r in Hk.
  destruct (toLowerCase k) eqn:Ek; [|discriminate].
  apply toLowerCase_nil in Ek. subst. contradiction.
Qed.

End Malformed.

(** C9: [processThroughMCP], the guardrail of [POST /api/chat/message], hands
    the message of the request body to [classifyContent] as it came.  On a
    message that is not a string, the number 42 here, [message.toLowerCase()]
    raises a TypeError: the classifier returns no result, "unknown" or other,
    and the guardrail throws with it.  The [/process] route has a guard in
    front of the same call, and the extractor catches the same error. *)
Lemma classify_number_throws :
  isString (VNum 42) = false
  /\ classifyContent toLowerCase examplePolicy (VNum 42) = Threw "TypeError"
  /\ (~ exists c, classifyContent toLowerCase examplePolicy (VNum 42) = Returned c)
  /\ processThroughMCP toLowerCase examplePolicy (VNum 42) = Threw "TypeError"
  /\ processRoute toLowerCase examplePolicy (VNum 42) = InvalidInput
  /\ extractInformationFromSMS (VNum 42) = ∅.
Proof.
  split; [reflexivity|]. split; [reflexivity|].
  split; [intros (c & H); discriminate H|].
  repeat split; reflexivity.
Qed.

(** ** The scenario of the specification *)

(** C3 (as the code has it): the message yields exactly the fragment
    firstName "Maria", lastName "Lopez", age 34, zipCode "89101"; merged into
    a blank profile it gives a completion of 27 percent (three required
    fields of 40 points out of 440; the phone is missing); and the stage is
    "address", because the fragment holds a zip code and the address rule is
    tested before the identity rule. *)
Theorem maria_scenario (now : Z) :
  extractInformationFromSMS (VStr mariaMessage) = mariaFragment
  /\ calculateCompletionPercentage
       (Some (updatedRow now ∅ mariaFragment)) = 27%Z
  /\ determineConversationStage mariaMessage mariaFragment = "address".
Proof.
  repeat split; vm_compute; reflexivity.
Qed.

(** C3 as stated fails: the stage of the scenario is not "intake". *)
Lemma maria_stage_is_not_intake :
  determineConversationStage mariaMessage
    (extractInformationFromSMS (VStr mariaMessage)) = "address"
  /\ determineConversationStage mariaMessage
       (extractInformationFromSMS (VStr mariaMessage)) <> "intake".
Proof.
  split; [vm_compute; reflexivity|]. vm_compute. discriminate.
Qed.

(** ** Missing fields and questions *)

Section Missing.

Lemma missing_nil profile (table : list (string * jsstring)) :
  flat_map
    (fun '(f, l) =>
       if negb (present profile f)
       then [{| field := f; label := l; mpriority := "high" |}]
       else [])
    table = []
  <-> forallb (present profile) (map fst table) = true.
Proof.
  induction table as [|[f l] table IH]; simpl; [tauto|].
  rewrite andb_true_iff, <- IH.
  destruct (present profile f); simpl; split; try tauto; try discriminate.
  intros [H _]. discriminate.
Qed.

End Missing.

(** C4 (as the code has it): [getMissingProfileInfo] returns the empty list
    exactly when first name, last name, zip code and the six important
    fields are present under the rule of [calculateCompletionPercentage];
    the phone, the fourth required field, is not consulted. *)
Theorem missing_empty_iff_fields_present (profile : row) :
  getMissingProfileInfo (Some profile) = []
  <-> forallb (present profile) profileFields = true.
Proof.
  unfold getMissingProfileInfo. rewrite missing_nil.
  change (map fst missingTable) with
    ["first_name"; "last_name"; "date_of_birth"; "street_address"; "city";
     "state"; "zip_code"; "emergency_contact_1_name";
     "emergency_contact_1_phone"].
  change profileFields with
    ["first_name"; "last_name"; "zip_code"; "date_of_birth"; "street_address";
     "city"; "state"; "emergency_contact_1_name"; "emergency_contact_1_phone"].
  cbn [forallb]. repeat rewrite andb_true_iff. tauto.
Qed.

(** C4 as stated fails: with the nine fields set and no phone, nothing is
    missing although a required field is absent. *)
Lemma missing_empty_without_phone :
  getMissingProfileInfo (Some noPhoneProfile) = []
  /\ forallb (present noPhoneProfile) (requiredFields ++ importantFields) = false
  /\ present noPhoneProfile "primary_phone" = false.
Proof.
  repeat split; vm_compute; reflexivity.
Qed.

Section Questions.

Lemma missing_filter profile :
  getMissingProfileInfo (Some profile)
  = map mkMissing
      (List.filter (fun '(f, _) => negb (present profile f)) missingTable).
Proof.
  unfold getMissingProfileInfo.
  induction missingTable as [|[f l] table IH]; simpl; [reflexivity|].
  rewrite IH. destruct (present profile f); reflexivity.
Qed.

Lemma isMissing_filter profile name (table : list (string * jsstring)) :
  isMissing
    (map mkMissing (List.filter (fun '(f, _) => negb (present profile f)) table))
    name
  = existsb (fun '(f, _) => negb (present profile f) && String.eqb f name) table.
Proof.
  unfold isMissing.
  induction table as [|[f l] table IH]; simpl; [reflexivity|].
  destruct (present profile f); simpl; rewrite IH; reflexivity.
Qed.

End Questions.

(** C5 (as the code has it): [generateNextQuestions] returns the closing
    acknowledgement when nothing is missing; in the stages intake, address
    and emergency_contact it asks for the first of the stage's fields that is
    still missing (address: street, then city, then zip code), and answers
    with a plain thanks when none of them is; in every other stage it asks
    for the first missing field of the priority order. *)
Theorem next_questions_by_stage (profile : row) (stage : string) :
  generateNextQuestions (Some profile) stage = nextQuestionsSpec profile stage.
Proof.
  unfold generateNextQuestions, nextQuestionsSpec, stageFields.
  rewrite missing_filter, !isMissing_filter.
  destruct (List.filter _ missingTable) as [|[f0 l0] rest] eqn:E; [reflexivity|].
  cbn [map mkMissing fst snd label existsb missingTable String.eqb Ascii.eqb
       Bool.eqb andb orb].
  destruct (String.eqb stage "intake");
    [|destruct (String.eqb stage "address");
      [|destruct (String.eqb stage "emergency_contact")]];
    cbn [List.find];
    repeat match goal with
           | |- context [present profile ?f] => destruct (present profile f)
           end; reflexivity.
Qed.

(** C5 as stated fails: in stage "address" with street, city and zip code
    known and the first name missing, the answer is a plain thanks and not a
    request for the first name. *)
Lemma address_stage_does_not_fall_back :
  generateNextQuestions (Some addressKnownProfile) "address"
  = [str "Thank you for the information!"]
  /\ map field (getMissingProfileInfo (Some addressKnownProfile))
     = ["first_name"; "last_name"; "date_of_birth"; "state";
        "emergency_contact_1_name"; "emergency_contact_1_phone"]
  /\ generateNextQuestions (Some addressKnownProfile) "general"
     = [str "Could you provide your first name?"].
Proof.
  repeat split; vm_compute; reflexivity.
Qed.

(** ** Merging a fragment into a profile *)

Section Merge.

Lemma fieldMapping_columnKey key col :
  fieldMapping !! key = Some col -> columnKey !! col = Some key.
Proof.
  intros H. unfold fieldMapping in H.
  apply elem_of_list_to_map_2, list_elem_of_In in H. simpl in H.
  repeat (destruct H as [H|H]; [injection H as <- <-; vm_compute; reflexivity|]).
  destruct H.
Qed.

Lemma fieldMapping_inj k1 k2 col :
  fieldMapping !! k1 = Some col -> fieldMapping !! k2 = Some col -> k1 = k2.
Proof.
  intros H1 H2. apply fieldMapping_columnKey in H1, H2. congruence.
Qed.

Lemma fieldMapping_not_meta key col :
  fieldMapping !! key = Some col -> isMeta col = false.
Proof.
  intros H. unfold fieldMapping in H.
  apply elem_of_list_to_map_2, list_elem_of_In in H. simpl in H.
  repeat (destruct H as [H|H]; [injection H as <- <-; vm_compute; reflexivity|]).
  destruct H.
Qed.

Lemma columnUpdates_elem fragment col v :
  (col, v) ∈ columnUpdates fragment <-> sets fragment col v.
Proof.
  unfold columnUpdates, sets. rewrite list_elem_of_omap. split.
  - intros ([key v0] & Hin & Hg). apply elem_of_map_to_list in Hin.
    destruct (fieldMapping !! key) as [c|] eqn:Hk; [|discriminate].
    destruct (nullish v0) eqn:Hn; [discriminate|].
    injection Hg as <- <-. eauto.
  - intros (key & Hk & Hf & Hn). exists (key, v). split.
    + now apply elem_of_map_to_list.
    + rewrite Hk, Hn. reflexivity.
Qed.

Lemma mapped_NoDup (fm : gmap string string) (l : list (string * value)) :
  (forall k1 k2 c, fm !! k1 = Some c -> fm !! k2 = Some c -> k1 = k2) ->
  NoDup l.*1 ->
  NoDup (omap (fun '(key, v) =>
                 match fm !! key with
                 | Some dbField => if nullish v then None else Some (dbField, v)
                 | None => None
                 end) l).*1.
Proof.
  intros Hinj. induction l as [|[key v] l IH]; intros ND; simpl.
  - constructor.
  - simpl in ND. apply NoDup_cons in ND as [Hnot ND].
    destruct (fm !! key) as [c|] eqn:Hk; [|auto].
    destruct (nullish v); [auto|]. simpl.
    apply NoDup_cons. split; [|auto].
    intros Hin. apply list_elem_of_fmap in Hin as ([c' v'] & E & Hin).
    simpl in E. subst c'.
    apply list_elem_of_omap in Hin as ([key2 v2] & Hin & Hg).
    destruct (fm !! key2) as [c2|] eqn:Hk2; [|discriminate].
    destruct (nullish v2); [discriminate|]. injection Hg as <- <-.
    assert (key2 = key) as -> by (eapply Hinj; eauto).
    apply Hnot. apply list_elem_of_fmap. exists (key, v2). auto.
Qed.

Lemma columnUpdates_NoDup fragment : NoDup (columnUpdates fragment).*1.
Proof.
  unfold columnUpdates. apply mapped_NoDup.
  - apply fieldMapping_inj.
  - apply NoDup_fst_map_to_list.
Qed.

Lemma assigned_lookup fragment col v :
  (list_to_map (columnUpdates fragment) : row) !! col = Some v
  <-> sets fragment col v.
Proof.
  rewrite <- columnUpdates_elem. symmetry.
  apply elem_of_list_to_map. apply columnUpdates_NoDup.
Qed.

Lemma sets_not_meta fragment col v : sets fragment col v -> isMeta col = false.
Proof. intros (key & Hk & _). eapply fieldMapping_not_meta; eauto. Qed.

Lemma isMeta_false col :
  isMeta col = false ->
  col <> "updated_at" /\ col <> "last_updated_via_sms"
  /\ col <> "sms_conversation_count".
Proof.
  unfold isMeta, metaColumns. cbn [existsb].
  rewrite !orb_false_iff, !String.eqb_neq. tauto.
Qed.

(** A column that is not a counter or a timestamp is read from the SET list
    first and from the old row otherwise. *)
Lemma update_lookup now profile fragment col :
  columnUpdates fragment <> [] -> isMeta col = false ->
  applyUpdate now profile fragment !! col
  = (list_to_map (columnUpdates fragment) ∪ profile) !! col.
Proof.
  intros Hne Hm. apply isMeta_false in Hm as (H1 & H2 & H3).
  unfold applyUpdate.
  destruct (columnUpdates fragment) as [|e l] eqn:E; [congruence|].
  destruct (sqlIncrement _).
  - rewrite !lookup_insert_ne by congruence. reflexivity.
  - rewrite lookup_delete_ne, !lookup_insert_ne by congruence. reflexivity.
Qed.

(** *** The call against the accepted UPDATE *)

Lemma inherited_unmapped key :
  existsb (String.eqb key) inheritedKeys = true -> fieldMapping !! key = None.
Proof.
  intros H. apply existsb_exists in H as (k & Hin & E).
  apply String.eqb_eq in E. subst k. simpl in Hin.
  repeat (destruct Hin as [<-|Hin]; [vm_compute; reflexivity|]). destruct Hin.
Qed.

Lemma assignments_entries (l : list (string * value)) :
  assignments
    (omap (fun '(key, v) =>
             match lookupField key with
             | Some dbField => if nullish v then None else Some (dbField, v)
             | None => None
             end) l)
  = if existsb (fun '(key, v) =>
                  existsb (String.eqb key) inheritedKeys && negb (nullish v)) l
    then None
    else Some (omap (fun '(key, v) =>
                       match fieldMapping !! key with
                       | Some name => if nullish v then None else Some (name, v)
                       | None => None
                       end) l).
Proof.
  induction l as [|[key v] l IH]; [reflexivity|].
  cbn [omap list_omap existsb]. unfold lookupField at 1.
  destruct (fieldMapping !! key) as [name|] eqn:Hk.
  - assert (Hi : existsb (String.eqb key) inheritedKeys = false).
    { destruct (existsb (String.eqb key) inheritedKeys) eqn:Hi; [|reflexivity].
      apply inherited_unmapped in Hi. congruence. }
    rewrite Hi. cbn [andb orb].
    destruct (nullish v); [exact IH|].
    cbn [assignments]. rewrite IH. now destruct (existsb _ l).
  - destruct (existsb (String.eqb key) inheritedKeys).
    + destruct (nullish v); cbn [andb negb orb]; [exact IH|reflexivity].
    + cbn [andb orb]. exact IH.
Qed.

Lemma setsInherited_entries (fragment : object) :
  existsb (fun '(key, v) =>
             existsb (String.eqb key) inheritedKeys && negb (nullish v))
    (map_to_list fragment)
  = setsInherited fragment.
Proof.
  apply eq_true_iff_eq. unfold setsInherited. rewrite !existsb_exists. split.
  - intros ([key v] & Hin & H). apply andb_true_iff in H as [Hk Hv].
    apply existsb_exists in Hk as (k & Hk & E). apply String.eqb_eq in E.
    subst k. exists key. split; [exact Hk|].
    apply list_elem_of_In, elem_of_map_to_list in Hin. now rewrite Hin.
  - intros (key & Hk & H).
    destruct (fragment !! key) as [v|] eqn:Hf; [|discriminate].
    exists (key, v). split.
    + apply list_elem_of_In, elem_of_map_to_list. exact Hf.
    + rewrite H, andb_true_r. apply existsb_exists. exists key.
      split; [exact Hk|apply String.eqb_refl].
Qed.

Lemma assignments_updateFields fragment :
  assignments (updateFields fragment)
  = if setsInherited fragment then None else Some (columnUpdates fragment).
Proof.
  unfold updateFields, columnUpdates. rewrite assignments_entries.
  now rewrite setsInherited_entries.
Qed.

Lemma assignments_length fields : forall columns,
  assignments fields = Some columns -> length columns = length fields.
Proof.
  induction fields as [|[[name|key] v] fields IH]; intros columns H;
    cbn [assignments] in H.
  - injection H as <-. reflexivity.
  - destruct (assignments fields) as [c|]; [|discriminate].
    injection H as <-. simpl. f_equal. now apply IH.
  - discriminate.
Qed.

(** The call throws exactly on a fragment that sets an inherited name, and
    returns the row of the accepted UPDATE otherwise. *)
Lemma updateProfileData_cases now profile fragment :
  updateProfileData now profile fragment
  = if setsInherited fragment then Threw "DatabaseError"
    else Returned (applyUpdate now profile fragment).
Proof.
  unfold updateProfileData, applyUpdate.
  pose proof (assignments_updateFields fragment) as HA.
  destruct (updateFields fragment) as [|e fields] eqn:E.
  - cbn [assignments] in HA.
    destruct (setsInherited fragment); [discriminate|].
    injection HA as <-. reflexivity.
  - destruct (setsInherited fragment).
    + now rewrite HA.
    + rewrite HA. apply assignments_length in HA.
      destruct (columnUpdates fragment) as [|c columns]; [discriminate|].
      reflexivity.
Qed.

Lemma updatedRow_cases now profile fragment :
  updatedRow now profile fragment
  = if setsInherited fragment then profile
    else applyUpdate now profile fragment.
Proof.
  unfold updatedRow. rewrite updateProfileData_cases.
  now destruct (setsInherited fragment).
Qed.

End Merge.

Section MergeProperties.

Lemma strip_lookup profile col :
  strip profile !! col = if isMeta col then None else profile !! col.
Proof.
  unfold strip, isMeta, metaColumns. cbn [existsb].
  destruct (String.eqb_spec col "updated_at") as [->|H1].
  { apply lookup_delete_eq. }
  rewrite lookup_delete_ne by congruence.
  destruct (String.eqb_spec col "last_updated_via_sms") as [->|H2].
  { apply lookup_delete_eq. }
  rewrite lookup_delete_ne by congruence.
  destruct (String.eqb_spec col "sms_conversation_count") as [->|H3].
  { apply lookup_delete_eq. }
  rewrite lookup_delete_ne by congruence. reflexivity.
Qed.

Lemma union_assigned_twice (F profile updated : row) col :
  updated !! col = (F ∪ profile) !! col ->
  (F ∪ updated) !! col = (F ∪ profile) !! col.
Proof.
  intros H. rewrite !lookup_union, H, lookup_union.
  destruct (F !! col), (profile !! col); reflexivity.
Qed.

Lemma filled_spec fragment key v :
  filled fragment = true -> fragment !! key = Some v ->
  truthy v && nonBlank v = true.
Proof.
  unfold filled. rewrite forallb_forall. intros H Hk.
  apply (H (key, v)). apply list_elem_of_In. now apply elem_of_map_to_list.
Qed.

(** A merge of present values keeps every scored field that was present. *)
Lemma present_merge now profile fragment col :
  filled fragment = true -> isMeta col = false ->
  present profile col = true ->
  present (updatedRow now profile fragment) col = true.
Proof.
  intros Hf Hm Hp. rewrite updatedRow_cases.
  destruct (setsInherited fragment); [exact Hp|].
  unfold present in *.
  destruct (columnUpdates fragment) as [|e l] eqn:E.
  - unfold applyUpdate. rewrite E. exact Hp.
  - rewrite update_lookup by (auto; congruence). rewrite lookup_union.
    destruct (list_to_map (columnUpdates fragment) !! col) as [v|] eqn:Hv.
    + apply assigned_lookup in Hv as (key & _ & Hk & _).
      destruct (profile !! col); simpl; apply (filled_spec _ _ _ Hf Hk).
    + destruct (profile !! col); [exact Hp|discriminate].
Qed.

Lemma tally_mono p p' weight fields : forall score score' maxScore,
  (0 <= weight)%Z ->
  (forall f, In f fields -> present p f = true -> present p' f = true) ->
  (score <= score')%Z ->
  (fst (tally p weight fields (score, maxScore))
   <= fst (tally p' weight fields (score', maxScore)))%Z
  /\ snd (tally p weight fields (score, maxScore))
     = snd (tally p' weight fields (score', maxScore)).
Proof.
  unfold tally.
  induction fields as [|f fields IH]; intros score score' maxScore Hw Hp Hs;
    simpl; [auto|].
  apply IH; auto.
  - intros g Hg. apply Hp. now right.
  - specialize (Hp f (or_introl eq_refl)).
    destruct (present p f); [rewrite Hp by reflexivity; lia|].
    destruct (present p' f); lia.
Qed.

Lemma roundPercent_mono score score' maxScore :
  (0 < maxScore)%Z -> (score <= score')%Z ->
  (roundPercent score maxScore <= roundPercent score' maxScore)%Z.
Proof.
  intros Hm Hs. unfold roundPercent. apply Z.div_le_mono; lia.
Qed.

Lemma scored_not_meta f :
  In f (requiredFields ++ importantFields ++ optionalFields) ->
  isMeta f = false.
Proof.
  intros H. simpl in H.
  repeat (destruct H as [<-|H]; [reflexivity|]). destruct H.
Qed.

Lemma completion_step now profile fragment :
  filled fragment = true ->
  (calculateCompletionPercentage (Some profile)
   <= calculateCompletionPercentage
        (Some (updatedRow now profile fragment)))%Z.
Proof.
  intros Hf. unfold calculateCompletionPercentage.
  set (p' := updatedRow now profile fragment).
  assert (Hp : forall fields f,
             incl fields (requiredFields ++ importantFields ++ optionalFields) ->
             In f fields -> present profile f = true -> present p' f = true).
  { intros fields f Hi Hin. apply present_merge; auto.
    apply scored_not_meta. auto. }
  destruct (tally_mono profile p' 40 requiredFields 0 0 0) as [H1 E1];
    [lia| |lia|].
  { intros f. apply (Hp requiredFields). apply incl_appl, incl_refl. }
  destruct (tally profile 40 requiredFields (0, 0)%Z) as [s1 m1].
  destruct (tally p' 40 requiredFields (0, 0)%Z) as [s1' m1'].
  simpl in H1, E1. subst m1'.
  destruct (tally_mono profile p' 30 importantFields s1 s1' m1) as [H2 E2];
    [lia| |lia|].
  { intros f. apply (Hp importantFields).
    apply incl_appr, incl_appl, incl_refl. }
  destruct (tally profile 30 importantFields (s1, m1)) as [s2 m2].
  destruct (tally p' 30 importantFields (s1', m1)) as [s2' m2'].
  simpl in H2, E2. subst m2'.
  destruct (tally_mono profile p' 10 optionalFields s2 s2' m2) as [H3 E3];
    [lia| |lia|].
  { intros f. apply (Hp optionalFields).
    apply incl_appr, incl_appr, incl_refl. }
  destruct (tally profile 10 optionalFields (s2, m2)) as [s3 m3].
  destruct (tally p' 10 optionalFields (s2', m2)) as [s3' m3'].
  simpl in H3, E3. subst m3'.
  destruct (m3 >? 0)%Z eqn:Hm; [|lia].
  apply roundPercent_mono; lia.
Qed.

End MergeProperties.

(** C6: along any sequence of merges whose fragments hold only values that
    count as present, the completion percentage never decreases from one
    merge to the next. *)
Theorem completion_never_decreases (profile : row) (steps : list (Z * object)) :
  Forall (fun step => filled (snd step) = true) steps ->
  Sorted Z.le (completions profile steps).
Proof.
  revert profile. induction steps as [|[now fragment] steps IH];
    intros profile H; cbn [completions].
  - repeat constructor.
  - inversion H as [|? ? Hf Hrest]; subst. cbn [snd] in Hf.
    constructor; [apply IH; assumption|].
    destruct steps as [|[now' fragment'] steps]; cbn [completions];
      constructor; apply completion_step; assumption.
Qed.

Lemma completion_never_decreases_witness :
  let steps : list (Z * object) :=
    [ (10%Z, {[ "firstName" := VStr (str "Ann") ]});
      (20%Z, {[ "lastName" := VStr (str "Lee"); "zipCode" := VStr (str "89101") ]});
      (30%Z, {[ "firstName" := VStr (str "Anna") ]}) ] in
  Forall (fun step => filled (snd step) = true) steps
  /\ completions ∅ steps = [0; 9; 27; 27]%Z
  /\ Sorted Z.le (completions ∅ steps).
Proof.
  intros steps.
  assert (H : Forall (fun step => filled (snd step) = true) steps)
    by (repeat constructor).
  split; [exact H|]. split; [vm_compute; reflexivity|].
  exact (completion_never_decreases ∅ steps H).
Defined.

(** C7: merging a fragment a second time changes nothing but the counter and
    the timestamps. *)
Theorem merge_idempotent (now1 now2 : Z) (profile : row) (fragment : object) :
  strip (updatedRow now2 (updatedRow now1 profile fragment) fragment)
  = strip (updatedRow now1 profile fragment).
Proof.
  rewrite !updatedRow_cases.
  destruct (setsInherited fragment); [reflexivity|].
  apply map_eq. intros col. rewrite !strip_lookup.
  destruct (isMeta col) eqn:Hm; [reflexivity|].
  destruct (columnUpdates fragment) as [|e l] eqn:E.
  - unfold applyUpdate. rewrite E. reflexivity.
  - rewrite !update_lookup by (auto; congruence).
    apply union_assigned_twice. apply update_lookup; auto. congruence.
Qed.

Section Overwrite.

Lemma applyUpdate_overwrites (now : Z) (profile : row) (fragment : object) :
  let updated := applyUpdate now profile fragment in
  ((forall col v, ~ sets fragment col v) /\ updated = profile)
  \/ ((exists col v, sets fragment col v)
      /\ (forall col v, sets fragment col v -> updated !! col = Some v)
      /\ (forall col, isMeta col = false -> (forall v, ~ sets fragment col v) ->
                      updated !! col = profile !! col)
      /\ updated !! "sms_conversation_count"
         = sqlIncrement (profile !! "sms_conversation_count")
      /\ updated !! "updated_at" = Some (VDate now)
      /\ updated !! "last_updated_via_sms" = Some (VDate now)).
Proof.
  intros updated. subst updated.
  destruct (columnUpdates fragment) as [|[c0 v0] l] eqn:E.
  - left. split.
    + intros col v Hs. apply columnUpdates_elem in Hs. rewrite E in Hs.
      inversion Hs.
    + unfold applyUpdate. rewrite E. reflexivity.
  - right.
    assert (Hne : columnUpdates fragment <> []) by congruence.
    split; [|split; [|split; [|split; [|split]]]].
    + exists c0, v0. apply columnUpdates_elem. rewrite E. left.
    + intros col v Hs. rewrite update_lookup; eauto using sets_not_meta.
      apply assigned_lookup in Hs as Hl. rewrite lookup_union, Hl.
      destruct (profile !! col); reflexivity.
    + intros col Hm Hno. rewrite update_lookup by auto.
      rewrite lookup_union.
      destruct (list_to_map (columnUpdates fragment) !! col) as [v|] eqn:Hl.
      * apply assigned_lookup in Hl. destruct (Hno v Hl).
      * destruct (profile !! col); reflexivity.
    + unfold applyUpdate. rewrite E.
      destruct (sqlIncrement _) as [n|].
      * apply lookup_insert_eq.
      * apply lookup_delete_eq.
    + unfold applyUpdate. rewrite E.
      destruct (sqlIncrement _) as [n|].
      * rewrite lookup_insert_ne, lookup_insert_ne by discriminate.
        apply lookup_insert_eq.
      * rewrite lookup_delete_ne, lookup_insert_ne by discriminate.
        apply lookup_insert_eq.
    + unfold applyUpdate. rewrite E.
      destruct (sqlIncrement _) as [n|].
      * rewrite lookup_insert_ne by discriminate. apply lookup_insert_eq.
      * rewrite lookup_delete_ne by discriminate. apply lookup_insert_eq.
Qed.

End Overwrite.

(** C8 (as the code has it): for a fragment that holds no value under a
    name inherited from [Object.prototype], the call returns a row.  When
    the fragment sets no column (no key of it is mapped, or every mapped key
    holds [null] or [undefined]), that row is the profile unchanged, counter
    and timestamps included.  Otherwise every column the fragment sets holds
    the fragment's value, every other column except the counter and the two
    timestamps keeps its value, a counter that holds a number is
    incremented by one (one that is not set stays not set), and both
    timestamps are the current time. *)
Theorem merge_overwrites_set_columns
    (now : Z) (profile : row) (fragment : object) :
  setsInherited fragment = false ->
  exists updated,
    updateProfileData now profile fragment = Returned updated
    /\ (((forall col v, ~ sets fragment col v) /\ updated = profile)
        \/ ((exists col v, sets fragment col v)
            /\ (forall col v, sets fragment col v -> updated !! col = Some v)
            /\ (forall col, isMeta col = false ->
                            (forall v, ~ sets fragment col v) ->
                            updated !! col = profile !! col)
            /\ match profile !! "sms_conversation_count" with
               | Some (VNum n) =>
                   updated !! "sms_conversation_count" = Some (VNum (n + 1))
               | _ => updated !! "sms_conversation_count" = None
               end
            /\ updated !! "updated_at" = Some (VDate now)
            /\ updated !! "last_updated_via_sms" = Some (VDate now))).
Proof.
  intros Hown. exists (applyUpdate now profile fragment).
  rewrite updateProfileData_cases, Hown. split; [reflexivity|].
  destruct (applyUpdate_overwrites now profile fragment)
    as [H|(H1 & H2 & H3 & H4 & H5 & H6)]; [left; exact H|right].
  repeat (split; [assumption|]). split; [|split; assumption].
  rewrite H4. destruct (profile !! "sms_conversation_count") as [[]|];
    reflexivity.
Qed.

Lemma merge_overwrites_set_columns_witness :
  let fragment : object :=
    {[ "firstName" := VStr (str "Anna"); "nickname" := VStr (str "Al") ]} in
  setsInherited fragment = false
  /\ (exists updated,
        updateProfileData 100 countedProfile fragment = Returned updated)
  /\ updatedRow 100 countedProfile fragment !! "first_name"
     = Some (VStr (str "Anna"))
  /\ updatedRow 100 countedProfile fragment !! "sms_conversation_count"
     = Some (VNum 4).
Proof.
  intros fragment.
  assert (H : setsInherited fragment = false) by (vm_compute; reflexivity).
  split; [exact H|]. split.
  - destruct (merge_overwrites_set_columns 100 countedProfile fragment H)
      as (updated & Hu & _).
    exists updated. exact Hu.
  - split; vm_compute; reflexivity.
Defined.

(** C8 as stated fails: a fragment without a mapped key leaves the counter
    and the timestamps as they were. *)
Lemma unmapped_fragment_does_not_count :
  updateProfileData 100 countedProfile unmappedFragment = Returned countedProfile
  /\ updatedRow 100 countedProfile unmappedFragment
       !! "sms_conversation_count" = Some (VNum 3)
  /\ updatedRow 100 countedProfile unmappedFragment !! "updated_at" = None.
Proof.
  repeat split; vm_compute; reflexivity.
Qed.

Local Close Scope string_scope.

(** * Properties of the extractor, the guard and the pipeline *)

Section ExtractorLookups.

Lemma extractName_other message (data : object) (k : string) :
  k <> "firstName"%string -> k <> "lastName"%string -> k <> "middleName"%string ->
  extractName message data !! k = data !! k.
Proof.
  intros H1 H2 H3. unfold extractName.
  destruct (firstMatch namePatterns message) as [caps|]; [|reflexivity].
  destruct (2 <=? _)%nat; [destruct (2 <? _)%nat|];
    rewrite ?lookup_insert_ne by congruence; reflexivity.
Qed.

Lemma extractZip_lookup message (data : object) (k : string) :
  extractZip message data !! k
  = if String.eqb k "zipCode" then
      match matchOf message zipPattern with
      | Some (_, caps) => Some (VStr (capture 1 caps))
      | None => data !! k
      end
    else data !! k.
Proof.
  unfold extractZip.
  destruct (String.eqb_spec k "zipCode") as [->|Hk];
    destruct (matchOf message zipPattern) as [[m caps]|]; try reflexivity.
  - apply lookup_insert_eq.
  - apply lookup_insert_ne. congruence.
Qed.

Lemma extractPhone_lookup message (data : object) (k : string) :
  extractPhone message data !! k
  = if String.eqb k "phoneNumber" then
      match matchOf message Extractor.phonePattern with
      | Some (_, caps) => Some (VStr (stripSeparators (capture 1 caps)))
      | None => data !! k
      end
    else data !! k.
Proof.
  unfold extractPhone.
  destruct (String.eqb_spec k "phoneNumber") as [->|Hk];
    destruct (matchOf message Extractor.phonePattern) as [[m caps]|];
    try reflexivity.
  - apply lookup_insert_eq.
  - apply lookup_insert_ne. congruence.
Qed.

Lemma extractMedicaid_lookup message (data : object) (k : string) :
  extractMedicaid message data !! k
  = if String.eqb k "medicaidId" then
      match matchOf message medicaidPattern with
      | Some (_, caps) => Some (VStr (capture 1 caps))
      | None => data !! k
      end
    else data !! k.
Proof.
  unfold extractMedicaid.
  destruct (String.eqb_spec k "medicaidId") as [->|Hk];
    destruct (matchOf message medicaidPattern) as [[m caps]|]; try reflexivity.
  - apply lookup_insert_eq.
  - apply lookup_insert_ne. congruence.
Qed.

Lemma extractAge_lookup message (data : object) (k : string) :
  extractAge message data !! k
  = if String.eqb k "age" then
      match matchOf message agePattern with
      | Some (_, caps) => Some (VNum (parseDigits (capture 1 caps)))
      | None => data !! k
      end
    else data !! k.
Proof.
  unfold extractAge.
  destruct (String.eqb_spec k "age") as [->|Hk];
    destruct (matchOf message agePattern) as [[m caps]|]; try reflexivity.
  - apply lookup_insert_eq.
  - apply lookup_insert_ne. congruence.
Qed.

Lemma extractAddress_lookup message (data : object) (k : string) :
  extractAddress message data !! k
  = if String.eqb k "streetAddress" then
      match matchOf message addressPattern with
      | Some (_, caps) => Some (VStr (capture 1 caps))
      | None => data !! k
      end
    else data !! k.
Proof.
  unfold extractAddress.
  destruct (String.eqb_spec k "streetAddress") as [->|Hk];
    destruct (matchOf message addressPattern) as [[m caps]|]; try reflexivity.
  - apply lookup_insert_eq.
  - apply lookup_insert_ne. congruence.
Qed.

(** The keys set by the pattern rules, read off the fragment. *)
Lemma extract_zipCode message :
  extractInformationFromSMS (VStr message) !! "zipCode"
  = match matchOf message zipPattern with
    | Some (_, caps) => Some (VStr (capture 1 caps))
    | None => None
    end.
Proof.
  unfold extractInformationFromSMS.
  rewrite extractAddress_lookup, extractAge_lookup, extractMedicaid_lookup,
    extractPhone_lookup, extractZip_lookup. cbn [String.eqb Ascii.eqb Bool.eqb].
  rewrite extractName_other by discriminate. reflexivity.
Qed.

Lemma extract_phoneNumber message :
  extractInformationFromSMS (VStr message) !! "phoneNumber"
  = match matchOf message Extractor.phonePattern with
    | Some (_, caps) => Some (VStr (stripSeparators (capture 1 caps)))
    | None => None
    end.
Proof.
  unfold extractInformationFromSMS.
  rewrite extractAddress_lookup, extractAge_lookup, extractMedicaid_lookup,
    extractPhone_lookup. cbn [String.eqb Ascii.eqb Bool.eqb].
  rewrite extractZip_lookup. cbn [String.eqb Ascii.eqb Bool.eqb].
  rewrite extractName_other by discriminate. reflexivity.
Qed.

Lemma extract_age message :
  extractInformationFromSMS (VStr message) !! "age"
  = match matchOf message agePattern with
    | Some (_, caps) => Some (VNum (parseDigits (capture 1 caps)))
    | None => None
    end.
Proof.
  unfold extractInformationFromSMS.
  rewrite extractAddress_lookup, extractAge_lookup.
  cbn [String.eqb Ascii.eqb Bool.eqb].
  rewrite extractMedicaid_lookup, extractPhone_lookup, extractZip_lookup.
  cbn [String.eqb Ascii.eqb Bool.eqb].
  rewrite extractName_other by discriminate. reflexivity.
Qed.

End ExtractorLookups.

Section ExtractedShapes.

Lemma search_complete r a : forall prev w b,
  den r (lastO a prev) w (head b) -> search r prev (a ++ w ++ b) <> None.
Proof.
  induction a as [|x a IH]; intros prev w b D.
  - apply matchAt_complete in D. simpl in *.
    destruct (w ++ b) as [|y l] eqn:E; simpl;
      destruct (matchAt r prev _) as [[? ?]|]; congruence.
  - change (search r prev ((x :: a) ++ w ++ b))
      with (match matchAt r prev (x :: a ++ w ++ b) with
            | Some (rest, caps) =>
                Some (firstn (length (x :: a ++ w ++ b) - length rest)
                        (x :: a ++ w ++ b), caps)
            | None => search r (Some x) (a ++ w ++ b)
            end).
    destruct (matchAt r prev _) as [[? ?]|]; [discriminate|].
    apply IH. exact D.
Qed.

Lemma exact_length (w : jsstring) n :
  (n <= length w)%nat -> (forall h, Some n = Some h -> (length w <= h)%nat) ->
  length w = n.
Proof. intros H1 H2. specialize (H2 n eq_refl). lia. Qed.

End ExtractedShapes.

(** X1: a zip code in the fragment is a run of exactly five digits that
    occurs in the message. *)
Theorem extracted_zip_is_five_digits (message : jsstring) (v : value) :
  extractInformationFromSMS (VStr message) !! "zipCode"%string = Some v ->
  exists digits pre post,
    v = VStr digits /\ length digits = 5%nat
    /\ Forall (fun c => isDigit c = true) digits
    /\ message = pre ++ digits ++ post.
Proof.
  rewrite extract_zipCode. unfold matchOf.
  destruct (search zipPattern None message) as [[m caps]|] eqn:S; [|discriminate].
  intros [= <-]. apply search_sound in S as (a & b & -> & D).
  cbv [zipPattern seqs rep] in D. inv_denc.
  simpl. rewrite app_nil_r.
  match goal with
  | H : Forall _ ?w |- _ => exists w, a, b
  end.
  repeat split; auto. eapply exact_length; eauto.
Qed.

Lemma extracted_zip_is_five_digits_witness :
  extractInformationFromSMS (VStr mariaMessage) !! "zipCode"%string
  = Some (VStr (str "89101"))
  /\ exists digits pre post,
       VStr (str "89101") = VStr digits /\ length digits = 5%nat
       /\ Forall (fun c => isDigit c = true) digits
       /\ mariaMessage = pre ++ digits ++ post.
Proof.
  assert (H : extractInformationFromSMS (VStr mariaMessage) !! "zipCode"%string
              = Some (VStr (str "89101"))) by (vm_compute; reflexivity).
  split; [exact H|].
  exact (extracted_zip_is_five_digits mariaMessage (VStr (str "89101")) H).
Defined.

Section PhoneShape.

Lemma strip_digits (w : jsstring) :
  Forall (fun c => isDigit c = true) w -> stripSeparators w = w.
Proof.
  unfold stripSeparators. induction 1 as [|c w Hc _ IH]; simpl; [reflexivity|].
  assert (E : oneOf "-." c = false).
  { revert Hc. unfold oneOf, isDigit, between. cbn.
    rewrite andb_true_iff, !N.leb_le, !orb_false_iff, !N.eqb_neq. lia. }
  rewrite E. simpl. now rewrite IH.
Qed.

Lemma strip_separators (w : jsstring) :
  Forall (fun c => chr "-." c = true) w -> stripSeparators w = [].
Proof.
  unfold stripSeparators, chr. induction 1 as [|c w Hc _ IH]; simpl; [reflexivity|].
  rewrite Hc. simpl. exact IH.
Qed.

Lemma strip_app (u v : jsstring) :
  stripSeparators (u ++ v) = stripSeparators u ++ stripSeparators v.
Proof. unfold stripSeparators. apply List.filter_app. Qed.

Lemma ten_digits_accepted (p : jsstring) :
  length p = 10%nat -> Forall (fun c => isDigit c = true) p ->
  testAnchored sendToPattern p = true.
Proof.
  intros Hl HF. unfold testAnchored.
  assert (D : den sendToPattern None p None).
  { cbv [sendToPattern seqs opt rep].
    apply (den_seq _ _ None [] p None); [apply den_chars; simpl; auto; lia|].
    apply (den_seq _ _ None [] p None); [apply den_chars; simpl; auto; lia|].
    apply den_chars; auto; [lia|]. intros h [= <-]. lia. }
  pose proof (run_complete sendToPattern None p None D [] []
                (fun _ rest _ => match rest with [] => Some tt | _ => None end)
                eq_refl) as H.
  rewrite app_nil_r in H.
  destruct (run sendToPattern None p [] _); [reflexivity|].
  exfalso. apply H; [discriminate|reflexivity].
Qed.

End PhoneShape.

(** X2: a phone number in the fragment is exactly ten digits, the separators
    of the message removed, and passes the validation of the [to] field of
    [/send]. *)
Theorem extracted_phone_is_ten_digits (message : jsstring) (v : value) :
  extractInformationFromSMS (VStr message) !! "phoneNumber"%string = Some v ->
  exists digits,
    v = VStr digits /\ length digits = 10%nat
    /\ Forall (fun c => isDigit c = true) digits
    /\ testAnchored sendToPattern digits = true.
Proof.
  rewrite extract_phoneNumber. unfold matchOf.
  destruct (search Extractor.phonePattern None message) as [[m caps]|] eqn:S;
    [|discriminate].
  intros [= <-]. apply search_sound in S as (a & b & -> & D).
  cbv [Extractor.phonePattern seqs rep opt] in D. inv_denc.
  simpl. rewrite !strip_app.
  repeat match goal with
         | H : Forall (fun x => isDigit x = true) ?w |- _ =>
             rewrite (strip_digits w H)
         | H : Forall (fun x => chr "-." x = true) ?w |- _ =>
             rewrite (strip_separators w H)
         end.
  simpl. rewrite ?app_nil_r.
  match goal with
  | |- exists d, VStr ?x = VStr d /\ _ =>
      assert (L : length x = 10%nat
                  /\ Forall (fun c => isDigit c = true) x)
  end.
  { rewrite !length_app, !List.Forall_app.
    repeat match goal with
           | H : forall h, Some ?n = Some h -> _ |- _ => specialize (H n eq_refl)
           end.
    repeat split; auto; lia. }
  destruct L as [L1 L2]. eexists. repeat split; eauto.
  apply ten_digits_accepted; auto.
Qed.

Lemma extracted_phone_is_ten_digits_witness :
  let message := str "Call me at 702.555-1234 please" in
  extractInformationFromSMS (VStr message) !! "phoneNumber"%string
  = Some (VStr (str "7025551234"))
  /\ exists digits,
       VStr (str "7025551234") = VStr digits /\ length digits = 10%nat
       /\ Forall (fun c => isDigit c = true) digits
       /\ testAnchored sendToPattern digits = true.
Proof.
  intros message.
  assert (H : extractInformationFromSMS (VStr message) !! "phoneNumber"%string
              = Some (VStr (str "7025551234"))) by (vm_compute; reflexivity).
  split; [exact H|].
  exact (extracted_phone_is_ten_digits message (VStr (str "7025551234")) H).
Defined.

Section AgeShape.

Lemma parseDigits_bound (w : jsstring) : forall acc,
  Forall (fun c => isDigit c = true) w -> (0 <= acc)%Z ->
  (0 <= fold_left (fun acc c => (10 * acc + Z.of_N (c - 48))%Z) w acc
   < (acc + 1) * 10 ^ Z.of_nat (length w))%Z.
Proof.
  induction w as [|c w IH]; intros acc HF Ha.
  - simpl. lia.
  - inversion HF as [|? ? Hc HF']; subst.
    cbn [fold_left length].
    assert (Hd : (0 <= Z.of_N (c - 48) <= 9)%Z).
    { revert Hc. unfold isDigit, between. rewrite andb_true_iff, !N.leb_le. lia. }
    specialize (IH (10 * acc + Z.of_N (c - 48))%Z HF' ltac:(lia)).
    rewrite Nat2Z.inj_succ, Z.pow_succ_r by lia.
    split; [lia|]. eapply Z.lt_le_trans; [apply IH|].
    assert (0 < 10 ^ Z.of_nat (length w))%Z by (apply Z.pow_pos_nonneg; lia).
    nia.
Qed.

End AgeShape.

(** X3: an age in the fragment is a number between 0 and 999. *)
Theorem extracted_age_is_bounded (message : jsstring) (v : value) :
  extractInformationFromSMS (VStr message) !! "age"%string = Some v ->
  exists n, v = VNum n /\ (0 <= n <= 999)%Z.
Proof.
  rewrite extract_age. unfold matchOf.
  destruct (search agePattern None message) as [[m caps]|] eqn:S; [|discriminate].
  intros [= <-]. apply search_sound in S as (a & b & -> & D).
  cbv [agePattern seqs star repr liti one map str list_ascii_of_string] in D.
  inv_denc; cbn [app capture Nat.eqb];
    (eexists; split; [reflexivity|]);
    match goal with
    | H : Forall (fun x => isDigit x = true) ?w |- _ =>
        pose proof (parseDigits_bound w 0 H ltac:(lia)) as B
    end;
    repeat match goal with
           | H : forall h, Some ?n = Some h -> _ |- _ => specialize (H n eq_refl)
           end;
    unfold parseDigits;
    match goal with
    | H : (length ?w <= 3)%nat, B : (_ <= _ < _ * 10 ^ Z.of_nat (length ?w))%Z |- _ =>
        assert (10 ^ Z.of_nat (length w) <= 10 ^ 3)%Z
          by (apply Z.pow_le_mono_r; lia)
    end; lia.
Qed.

Lemma extracted_age_is_bounded_witness :
  extractInformationFromSMS (VStr mariaMessage) !! "age"%string = Some (VNum 34)
  /\ exists n, VNum 34 = VNum n /\ (0 <= n <= 999)%Z.
Proof.
  assert (H : extractInformationFromSMS (VStr mariaMessage) !! "age"%string
              = Some (VNum 34)) by (vm_compute; reflexivity).
  split; [exact H|].
  exact (extracted_age_is_bounded mariaMessage (VNum 34) H).
Defined.

Section ExtractedKeys.

Lemma extract_other_key message (k : string) :
  ~ In k extractedKeys -> extractInformationFromSMS message !! k = None.
Proof.
  intros Hk. destruct message; try apply lookup_empty.
  assert (N : forall k', In k' extractedKeys -> String.eqb k k' = false).
  { intros k' Hin. apply String.eqb_neq. intros ->. contradiction. }
  unfold extractInformationFromSMS.
  rewrite extractAddress_lookup, extractAge_lookup, extractMedicaid_lookup,
    extractPhone_lookup, extractZip_lookup.
  rewrite !N by (simpl; tauto).
  rewrite extractName_other; [apply lookup_empty|..];
    intros ->; apply Hk; simpl; tauto.
Qed.

End ExtractedKeys.

(** X4: whatever the message, a non-string included, the fragment has no key
    besides the eight the rules set. *)
Theorem extracted_keys_are_known (message : value) :
  dom (extractInformationFromSMS message) ⊆ list_to_set extractedKeys.
Proof.
  intros k Hk. apply elem_of_dom in Hk. apply elem_of_list_to_set.
  apply list_elem_of_In.
  destruct (in_dec string_dec k extractedKeys) as [Hin|Hn]; [exact Hin|].
  rewrite extract_other_key in Hk by exact Hn. destruct Hk; discriminate.
Qed.

Section StageOfZip.

Lemma digit_is_word c : isDigit c = true -> isWordChar c = true.
Proof. intros H. unfold isWordChar. rewrite H. now rewrite orb_true_r. Qed.

End StageOfZip.

(** X5: a message with a run of exactly five digits that stands alone (no
    letter, digit or underscore next to it) is put in stage "address",
    whatever else it says. *)
Theorem standalone_zip_selects_address (pre digits post : jsstring) :
  length digits = 5%nat ->
  Forall (fun c => isDigit c = true) digits ->
  isWordO (last pre) = false ->
  isWordO (head post) = false ->
  let message := pre ++ digits ++ post in
  determineConversationStage message (extractInformationFromSMS (VStr message))
  = "address"%string.
Proof.
  intros Hl HF Hp Hn message.
  assert (D : den zipPattern (lastO pre None) digits (head post)).
  { destruct digits as [|d ds]; [discriminate|].
    assert (Hd : isWordChar d = true).
    { apply digit_is_word. now apply List.Forall_inv in HF. }
    assert (Hlast : isWordO (lastO (d :: ds) (lastO pre None)) = true).
    { rewrite lastO_last. destruct (last (d :: ds)) as [c|] eqn:E.
      - apply last_Some in E as [l E]. rewrite E in HF.
        apply List.Forall_app in HF as [_ HF]. apply List.Forall_inv in HF.
        simpl. now apply digit_is_word.
      - apply last_None in E. discriminate. }
    cbv [zipPattern seqs rep].
    apply (den_seq _ _ _ [] (d :: ds)).
    { apply den_wordb. rewrite lastO_last. simpl headO.
      destruct (last pre); simpl in *; rewrite ?Hp, Hd; discriminate. }
    rewrite <- (app_nil_r (d :: ds)).
    apply den_seq.
    - apply den_group, den_chars; auto; [lia|]. intros h [= <-]. lia.
    - apply den_wordb. cbn [lastO] in *. rewrite Hlast, Hn. discriminate. }
  unfold determineConversationStage.
  assert (Z : has (extractInformationFromSMS (VStr message)) "zipCode" = true).
  { unfold has. rewrite extract_zipCode. unfold matchOf.
    pose proof (search_complete zipPattern pre None digits post D) as S.
    fold message in S.
    destruct (search zipPattern None message) as [[m caps]|] eqn:E; [|congruence].
    apply search_sound in E as (a & b & _ & Dc).
    cbv [zipPattern seqs rep] in Dc. inv_denc. simpl.
    match goal with
    | H : (5 <= length ?w)%nat |- _ => destruct w; [simpl in H; lia|reflexivity]
    end. }
  rewrite Z. rewrite !orb_true_r. reflexivity.
Qed.

Lemma standalone_zip_selects_address_witness :
  let pre := str "In an emergency contact my son. Our zip: " in
  let digits := str "89101" in
  let post := str "." in
  length digits = 5%nat
  /\ Forall (fun c => isDigit c = true) digits
  /\ isWordO (last pre) = false
  /\ isWordO (head post) = false
  /\ determineConversationStage (pre ++ digits ++ post)
       (extractInformationFromSMS (VStr (pre ++ digits ++ post)))
     = "address"%string.
Proof.
  intros pre digits post.
  assert (H1 : length digits = 5%nat) by reflexivity.
  assert (H2 : Forall (fun c => isDigit c = true) digits)
    by (repeat (apply List.Forall_cons; [reflexivity|]); apply List.Forall_nil).
  assert (H3 : isWordO (last pre) = false) by reflexivity.
  assert (H4 : isWordO (head post) = false) by reflexivity.
  split; [exact H1|]. split; [exact H2|]. split; [exact H3|]. split; [exact H4|].
  exact (standalone_zip_selects_address pre digits post H1 H2 H3 H4).
Defined.

Section Detection.

Lemma matchAll_nil r s : forall prev,
  matchAll r 0 prev s = [] ->
  forall a rest, s = a ++ rest -> matchAt r (lastO a prev) rest = None.
Proof.
  induction s as [|x s IH]; intros prev H a rest E.
  - destruct a; [|discriminate]. simpl in E. subst rest. simpl in *.
    destruct (matchAt r prev []) as [[? ?]|]; [discriminate|reflexivity].
  - change (matchAll r 0 prev (x :: s))
      with (match matchAt r prev (x :: s) with
            | Some (rest, _) =>
                let len := (length (x :: s) - length rest)%nat in
                firstn len (x :: s) :: matchAll r (Nat.pred len) (Some x) s
            | None => matchAll r O (Some x) s
            end) in H.
    destruct (matchAt r prev (x :: s)) as [[? ?]|] eqn:M; [discriminate|].
    destruct a as [|y a]; simpl in E.
    + subst rest. exact M.
    + injection E as <- E. simpl. eapply IH; eauto.
Qed.

Lemma matchAll_nil_noMatch r prev s :
  matchAll r 0 prev s = [] -> noMatch r prev s.
Proof.
  intros H a w b E D. apply matchAt_complete in D. apply D.
  eapply matchAll_nil; eauto.
Qed.

Lemma detect_nil_noMatch text :
  detectPHI text = [] -> Forall (fun r => noMatch r None text) phiPatterns.
Proof.
  unfold detectPHI, phiTypes, phiPatterns. cbn [combine flat_map].
  intros H.
  repeat match type of H with
         | context [matchAll ?r 0 None text] =>
             let E := fresh "E" in
             destruct (matchAll r 0 None text) eqn:E; [|discriminate H]
         end.
  repeat (apply List.Forall_cons; [apply matchAll_nil_noMatch; assumption|]).
  apply List.Forall_nil.
Qed.

Lemma fold_replace_id (patterns : list regex) (text : jsstring) :
  Forall (fun r => noMatch r None text) patterns ->
  fold_left (fun redacted pattern => replace pattern (fun _ => REDACTED) redacted)
    patterns text = text.
Proof.
  induction 1 as [|r patterns Hr _ IH]; simpl; [reflexivity|].
  unfold replace at 2. rewrite (noMatch_replaceAll _ _ _ _ Hr). exact IH.
Qed.

Lemma full_redact_noMatch text :
  Forall (fun r => noMatch r None (redactPHI text "full_redact")) phiPatterns.
Proof.
  apply List.Forall_forall. intros r Hin. unfold redactPHI.
  simpl String.eqb. cbv iota.
  apply fold_replace_noMatch; auto using delimited_phiPatterns.
Qed.

End Detection.

(** X6: a text in which [detectPHI] finds nothing is returned unchanged by
    the full redaction. *)
Theorem nothing_detected_nothing_redacted (text : jsstring) :
  detectPHI text = [] -> redactPHI text "full_redact" = text.
Proof.
  intros H. apply detect_nil_noMatch in H.
  unfold redactPHI. simpl String.eqb. cbv iota.
  apply fold_replace_id. exact H.
Qed.

Lemma nothing_detected_nothing_redacted_witness :
  let text := str "Call me at 702-555-1234 [REDACTED] soon" in
  detectPHI text = [] /\ redactPHI text "full_redact" = text.
Proof.
  intros text.
  assert (H : detectPHI text = []) by (vm_compute; reflexivity).
  split; [exact H|]. exact (nothing_detected_nothing_redacted text H).
Defined.

(** X7: the full redaction is idempotent. *)
Theorem full_redact_idempotent (text : jsstring) :
  redactPHI (redactPHI text "full_redact") "full_redact"
  = redactPHI text "full_redact".
Proof.
  pose proof (full_redact_noMatch text) as H.
  set (t := redactPHI text "full_redact") in *.
  unfold redactPHI at 1. simpl String.eqb. cbv iota.
  apply fold_replace_id. exact H.
Qed.

Section DetectionSound.

Lemma matchAll_sound r s : forall skip prev m,
  In m (matchAll r skip prev s) ->
  exists a b, s = a ++ m ++ b /\ den r (lastO a prev) m (head b).
Proof.
  induction s as [|x s IH]; intros skip prev m Hin.
  - simpl in Hin. destruct skip; [|destruct Hin].
    destruct (matchAt r prev []) as [[rest caps]|] eqn:M; [|destruct Hin].
    destruct Hin as [<-|[]]. apply matchAt_sound in M as (w & E & D).
    symmetry in E. apply app_eq_nil in E as [-> ->]. exists [], []. auto.
  - destruct skip as [|n].
    + change (matchAll r 0 prev (x :: s))
        with (match matchAt r prev (x :: s) with
              | Some (rest, _) =>
                  let len := (length (x :: s) - length rest)%nat in
                  firstn len (x :: s) :: matchAll r (Nat.pred len) (Some x) s
              | None => matchAll r O (Some x) s
              end) in Hin.
      destruct (matchAt r prev (x :: s)) as [[rest caps]|] eqn:M.
      * destruct Hin as [<-|Hin].
        -- apply matchAt_sound in M as (w & E & D). exists [], rest.
           rewrite E, firstn_consumed. auto.
        -- apply IH in Hin as (a & b & -> & D). exists (x :: a), b. auto.
      * apply IH in Hin as (a & b & -> & D). exists (x :: a), b. auto.
    + simpl in Hin. apply IH in Hin as (a & b & -> & D).
      exists (x :: a), b. auto.
Qed.

Lemma detection_pattern text d :
  In d (detectPHI text) ->
  exists r, In r phiPatterns /\ matches d = matchAll r 0 None text.
Proof.
  unfold detectPHI, phiTypes, phiPatterns. cbn [combine flat_map].
  rewrite !in_app_iff. intros H.
  repeat match type of H with
         | _ \/ _ => destruct H as [H|H]
         end;
  match type of H with
  | In d (match matchAll ?r 0 None text with _ => _ end) =>
      exists r; split; [simpl; tauto|];
      destruct (matchAll r 0 None text); [destruct H|];
      destruct H as [<-|[]]; reflexivity
  | In d [] => destruct H
  end.
Qed.

End DetectionSound.

(** X8: every match [detectPHI] reports is a non-empty substring of the
    text. *)
Theorem detections_occur_in_text (text : jsstring) (d : detection) (m : jsstring) :
  In d (detectPHI text) -> In m (matches d) ->
  m <> [] /\ includes text m = true.
Proof.
  intros Hd Hm. apply detection_pattern in Hd as (r & Hr & E).
  rewrite E in Hm. apply matchAll_sound in Hm as (a & b & -> & D).
  split.
  - pose proof delimited_phiPatterns as HD.
    rewrite List.Forall_forall in HD. specialize (HD r Hr).
    eapply den_nonempty; [apply (d_must _ HD)|exact D].
  - apply includes_spec. eauto.
Qed.

Lemma detections_occur_in_text_witness :
  let text := str "ssn 123-45-6789 ok" in
  let d := {| type := "ssn"; matches := [str "123-45-6789"] |} in
  In d (detectPHI text) /\ In (str "123-45-6789") (matches d)
  /\ str "123-45-6789" <> [] /\ includes text (str "123-45-6789") = true.
Proof.
  intros text d.
  assert (H1 : In d (detectPHI text)) by (vm_compute; left; reflexivity).
  assert (H2 : In (str "123-45-6789") (matches d)) by (left; reflexivity).
  split; [exact H1|]. split; [exact H2|].
  exact (detections_occur_in_text text d _ H1 H2).
Defined.

Section Tiers.

Variable lower : jsstring -> jsstring.

Lemma some_mentions (l : list jsstring) (message : jsstring) :
  Classifier.some lower l (lower message) = true <-> mentions lower l message.
Proof.
  unfold Classifier.some, mentions. rewrite existsb_exists. split.
  - intros (k & Hin & Hk). apply includes_spec in Hk as (pre & post & E).
    exists k, pre, post. auto.
  - intros (k & pre & post & Hin & E). exists k. split; auto.
    apply includes_spec. eauto.
Qed.

Lemma some_not_mentions (l : list jsstring) (message : jsstring) :
  Classifier.some lower l (lower message) = false <-> ~ mentions lower l message.
Proof.
  rewrite <- some_mentions. destruct (Classifier.some _ _ _); split;
    try congruence; intros H; exfalso; apply H; reflexivity.
Qed.

End Tiers.

(** X9: the tier table.  For any lower-casing function, the category of a
    string message is decided by the first list of the policy, in the order
    emergency, strict block, soft block, allowed domains, that holds a
    phrase contained in the message; "unknown" when none does. *)
Theorem classification_tiers
    (lower : jsstring -> jsstring) (mcpPolicy : policy) (message : jsstring) :
  let c := classifyString lower mcpPolicy message in
  let E := mentions lower (keywords (emergency_handling mcpPolicy)) message in
  let S := mentions lower (strict_blocks mcpPolicy) message in
  let B := mentions lower (soft_blocks mcpPolicy) message in
  let A := mentions lower (allowedPhrases mcpPolicy) message in
  (category c = "emergency"%string <-> E)
  /\ (category c = "blocked"%string <-> ~ E /\ S)
  /\ (category c = "soft_block"%string <-> ~ E /\ ~ S /\ B)
  /\ (category c = "allowed"%string <-> ~ E /\ ~ S /\ ~ B /\ A)
  /\ (category c = "unknown"%string <-> ~ E /\ ~ S /\ ~ B /\ ~ A).
Proof.
  intros c E S B A. subst c E S B A. unfold classifyString, allowedPhrases.
  pose proof (some_mentions lower (keywords (emergency_handling mcpPolicy)) message) as H1.
  pose proof (some_mentions lower (strict_blocks mcpPolicy) message) as H2.
  pose proof (some_mentions lower (soft_blocks mcpPolicy) message) as H3.
  pose proof (some_mentions lower
                (primary_services (allowed_domains mcpPolicy)
                 ++ administrative (allowed_domains mcpPolicy)
                 ++ informational (allowed_domains mcpPolicy)) message) as H4.
  cbv zeta.
  destruct (Classifier.some lower (keywords (emergency_handling mcpPolicy)) _);
    destruct (Classifier.some lower (strict_blocks mcpPolicy) _);
    destruct (Classifier.some lower (soft_blocks mcpPolicy) _);
    destruct (Classifier.some lower (_ ++ _) _);
    cbn [category];
    repeat match goal with
           | H : true = true <-> ?P |- _ =>
               assert P by (apply H; reflexivity); clear H
           | H : false = true <-> ?P |- _ =>
               assert (~ P) by (intros X; apply H in X; discriminate); clear H
           end;
    repeat split; intros; try discriminate; tauto.
Qed.

Section RouteDecisions.

Variable lower : jsstring -> jsstring.
Variable mcpPolicy : policy.

Lemma classifyString_cases (message : jsstring) :
  let c := classifyString lower mcpPolicy message in
  let E := mentions lower (keywords (emergency_handling mcpPolicy)) message in
  let S := mentions lower (strict_blocks mcpPolicy) message in
  let B := mentions lower (soft_blocks mcpPolicy) message in
  let A := mentions lower (allowedPhrases mcpPolicy) message in
  (E /\ c = {| category := "emergency"; action := "immediate_redirect";
               priority := "critical" |})
  \/ (~ E /\ S /\ c = {| category := "blocked"; action := "strict_block";
                         priority := "high" |})
  \/ (~ E /\ ~ S /\ B
      /\ c = {| category := "soft_block"; action := "brief_redirect";
                priority := "medium" |})
  \/ (~ E /\ ~ S /\ ~ B /\ A
      /\ c = {| category := "allowed"; action := "process"; priority := "low" |})
  \/ (~ E /\ ~ S /\ ~ B /\ ~ A
      /\ c = {| category := "unknown"; action := "brief_redirect";
                priority := "low" |}).
Proof.
  intros c E S B A. subst c E S B A. unfold classifyString, allowedPhrases.
  pose proof (some_mentions lower (keywords (emergency_handling mcpPolicy)) message) as H1.
  pose proof (some_mentions lower (strict_blocks mcpPolicy) message) as H2.
  pose proof (some_mentions lower (soft_blocks mcpPolicy) message) as H3.
  pose proof (some_mentions lower
                (primary_services (allowed_domains mcpPolicy)
                 ++ administrative (allowed_domains mcpPolicy)
                 ++ informational (allowed_domains mcpPolicy)) message) as H4.
  cbv zeta.
  destruct (Classifier.some lower (keywords (emergency_handling mcpPolicy)) _);
    destruct (Classifier.some lower (strict_blocks mcpPolicy) _);
    destruct (Classifier.some lower (soft_blocks mcpPolicy) _);
    destruct (Classifier.some lower (_ ++ _) _);
    repeat match goal with
           | H : true = true <-> ?P |- _ =>
               assert P by (apply H; reflexivity); clear H
           | H : false = true <-> ?P |- _ =>
               assert (~ P) by (intros X; apply H in X; discriminate); clear H
           end;
    tauto.
Qed.

End RouteDecisions.

(** X10: what the [/process] route does with a non-empty string.  When the
    policy holds its [privacy_protection] section, and its [ai_model_config]
    section if the message is an allowed one, the route answers 200: the
    answer says "process" exactly when the message mentions an
    allowed-domain phrase and no emergency keyword, strict-block or
    soft-block phrase; it says "block" exactly on a strict-block phrase
    without an emergency keyword; and it escalates exactly on an emergency
    keyword.  Otherwise the read of the missing section throws inside the
    [try] and the route answers 500 PROCESSING_ERROR. *)
Theorem process_route_decisions
    (lower : jsstring -> jsstring) (mcpPolicy : policy) (message : jsstring) :
  message <> [] ->
  let E := mentions lower (keywords (emergency_handling mcpPolicy)) message in
  let S := mentions lower (strict_blocks mcpPolicy) message in
  let B := mentions lower (soft_blocks mcpPolicy) message in
  let A := mentions lower (allowedPhrases mcpPolicy) message in
  let allowed := ~ E /\ ~ S /\ ~ B /\ A in
  let complete :=
    privacy_protection mcpPolicy <> None
    /\ (allowed -> ai_model_config mcpPolicy <> None) in
  (complete
   /\ exists r,
        processRoute lower mcpPolicy (VStr message) = Answered r
        /\ (r_action r = "process"%string <-> allowed)
        /\ (r_action r = "block"%string <-> ~ E /\ S)
        /\ (r_escalate r = Some true <-> E))
  \/ (~ complete
      /\ processRoute lower mcpPolicy (VStr message) = ProcessingError).
Proof.
  intros Hne E S B A allowed complete. subst E S B A allowed complete.
  unfold processRoute, invalidInput.
  destruct message as [|x message]; [congruence|]. cbn [truthy negb orb].
  cbn [classifyContent].
  destruct (classifyString_cases lower mcpPolicy (x :: message))
    as [(H1 & ->)|[(H1 & H2 & ->)|[(H1 & H2 & H3 & ->)
       |[(H1 & H2 & H3 & H4 & ->)|(H1 & H2 & H3 & H4 & ->)]]]];
    unfold respond;
    destruct (privacy_protection mcpPolicy) as [pp|];
    destruct (ai_model_config mcpPolicy) as [ac|];
    cbn;
    first [ left; split; [intuition (try discriminate; try congruence)|];
            eexists; (split; [reflexivity|]); cbn; repeat split; intros;
            try discriminate; tauto
          | right; split; [|reflexivity];
            intuition (try discriminate; try congruence) ].
Qed.

Lemma process_route_decisions_witness :
  let message := str "What are your hours? I also want a diagnosis." in
  message <> []
  /\ (exists r,
        processRoute toLowerCase examplePolicy (VStr message) = Answered r
        /\ r_action r = "block"%string)
  /\ processRoute toLowerCase policyWithoutPrivacy (VStr message)
     = ProcessingError.
Proof.
  intros message.
  assert (H : message <> []) by discriminate.
  split; [exact H|]. split.
  - destruct (process_route_decisions toLowerCase examplePolicy message H)
      as [(_ & r & Hr & _ & Hb & _)|(Hc & _)].
    + exists r. split; [exact Hr|].
      apply Hb. split.
      * intros (k & pre & post & Hin & E).
        assert (I : includes (toLowerCase message) (toLowerCase k) = true)
          by (apply includes_spec; eauto).
        destruct Hin as [<-|[<-|[]]]; vm_compute in I; discriminate.
      * exists (str "diagnosis"), (str "what are your hours? i also want a "),
          (str ".").
        split; [left; reflexivity|vm_compute; reflexivity].
    + exfalso. apply Hc. split; [discriminate|]. intros _. discriminate.
  - destruct (process_route_decisions toLowerCase policyWithoutPrivacy message H)
      as [((Hp & _) & _)|(_ & He)].
    + exfalso. apply Hp. reflexivity.
    + exact He.
Defined.

(** X11: the guardrail of the chat endpoint lets a string message through
    (action "process") exactly when it mentions no emergency keyword and no
    strict-block phrase: a soft-blocked or unknown message, which the
    [/process] route redirects, is processed; on a value that is not a
    string it throws. *)
Theorem chat_guardrail_decisions
    (lower : jsstring -> jsstring) (mcpPolicy : policy) (message : jsstring) :
  let E := mentions lower (keywords (emergency_handling mcpPolicy)) message in
  let S := mentions lower (strict_blocks mcpPolicy) message in
  (exists r,
     processThroughMCP lower mcpPolicy (VStr message) = Returned r
     /\ (r_action r = "process"%string <-> ~ E /\ ~ S)
     /\ (r_action r = "block"%string <-> ~ E /\ S)
     /\ (r_action r = "redirect"%string <-> E))
  /\ processThroughMCP lower mcpPolicy VUndefined = Threw "TypeError"
  /\ processThroughMCP lower mcpPolicy VNull = Threw "TypeError".
Proof.
  intros E S. subst E S. split; [|split; reflexivity].
  unfold processThroughMCP. cbn [classifyContent].
  destruct (classifyString_cases lower mcpPolicy message)
    as [(H1 & ->)|[(H1 & H2 & ->)|[(H1 & H2 & H3 & ->)
       |[(H1 & H2 & H3 & H4 & ->)|(H1 & H2 & H3 & H4 & ->)]]]];
    eexists; (split; [reflexivity|]); cbn; repeat split; intros;
    try discriminate; tauto.
Qed.

Section Unreached.

Lemma extracted_sets_sms_column message col v :
  sets (extractInformationFromSMS message) col v -> In col smsColumns.
Proof.
  intros (key & Hk & Hf & _).
  destruct (in_dec string_dec key extractedKeys) as [Hin|Hn].
  - simpl in Hin.
    repeat (destruct Hin as [<-|Hin];
            [vm_compute in Hk; first [discriminate Hk
                                     |injection Hk as <-; simpl; tauto]|]).
    destruct Hin.
  - rewrite extract_other_key in Hf by exact Hn. discriminate.
Qed.

(** No key of an extracted fragment is an inherited name: its merge is
    never refused. *)
Lemma extracted_own message :
  setsInherited (extractInformationFromSMS message) = false.
Proof.
  unfold setsInherited. apply not_true_is_false. intros H.
  apply existsb_exists in H as (key & Hin & H).
  rewrite extract_other_key in H; [discriminate|].
  intros Hk. simpl in Hin, Hk.
  repeat (destruct Hin as [<-|Hin];
          [repeat (destruct Hk as [Hk|Hk]; [discriminate Hk|]); destruct Hk|]).
  destruct Hin.
Qed.

Lemma extracted_returns now profile message :
  updateProfileData now profile (extractInformationFromSMS message)
  = Returned (applyUpdate now profile (extractInformationFromSMS message)).
Proof. now rewrite updateProfileData_cases, extracted_own. Qed.

Lemma merge_extracted_other now profile message col :
  ~ In col smsColumns ->
  applyUpdate now profile (extractInformationFromSMS message) !! col
  = profile !! col.
Proof.
  intros Hc.
  assert (Hm : isMeta col = false).
  { unfold isMeta, metaColumns. cbn [existsb]. rewrite !orb_false_iff.
    repeat split; try reflexivity; apply String.eqb_neq; intros ->;
      apply Hc; simpl; tauto. }
  destruct (columnUpdates (extractInformationFromSMS message)) as [|e l] eqn:E.
  - unfold applyUpdate. rewrite E. reflexivity.
  - rewrite update_lookup by (auto; congruence). rewrite lookup_union.
    destruct (list_to_map _ !! col) as [v|] eqn:Hv.
    + apply assigned_lookup in Hv. apply extracted_sets_sms_column in Hv.
      contradiction.
    + destruct (profile !! col); reflexivity.
Qed.

End Unreached.

Section PipelineRows.

Lemma storeCompletion_other p col :
  col <> "profile_completion_percentage"%string ->
  storeCompletion p !! col = p !! col.
Proof. intros H. unfold storeCompletion. apply lookup_insert_ne. congruence. Qed.

Lemma smsStep_other p step col :
  ~ In col pipelineColumns -> smsStep p step !! col = p !! col.
Proof.
  intros Hc. destruct step as [[now q] message].
  assert (N : forall c, In c pipelineColumns -> c <> col).
  { intros c Hin ->. contradiction. }
  unfold smsStep, updateFoundProfile. rewrite extracted_returns.
  cbn [stored]. unfold updateProfileMetrics.
  rewrite storeCompletion_other by (apply not_eq_sym, N; simpl; tauto).
  rewrite !lookup_insert_ne by (apply N; simpl; tauto).
  rewrite storeCompletion_other by (apply not_eq_sym, N; simpl; tauto).
  apply merge_extracted_other. intros Hin. apply Hc.
  unfold pipelineColumns. apply in_or_app. now left.
Qed.

Lemma smsHistory_other steps : forall p col,
  ~ In col pipelineColumns -> smsHistory p steps !! col = p !! col.
Proof.
  unfold smsHistory.
  induction steps as [|step steps IH]; intros p col Hc; simpl; [reflexivity|].
  rewrite IH by exact Hc. apply smsStep_other. exact Hc.
Qed.

Lemma present_lookup p q f : p !! f = q !! f -> present p f = present q f.
Proof. unfold present. now intros ->. Qed.

(** The completion is monotone in the set of present scored fields. *)
Lemma completion_mono (p p' : row) :
  (forall f, In f (requiredFields ++ importantFields ++ optionalFields) ->
             present p f = true -> present p' f = true) ->
  (calculateCompletionPercentage (Some p)
   <= calculateCompletionPercentage (Some p'))%Z.
Proof.
  intros Hp. unfold calculateCompletionPercentage.
  destruct (tally_mono p p' 40 requiredFields 0 0 0) as [H1 E1];
    [lia| |lia|].
  { intros f Hin. apply Hp. apply in_or_app. now left. }
  destruct (tally p 40 requiredFields (0, 0)%Z) as [s1 m1].
  destruct (tally p' 40 requiredFields (0, 0)%Z) as [s1' m1'].
  simpl in H1, E1. subst m1'.
  destruct (tally_mono p p' 30 importantFields s1 s1' m1) as [H2 E2];
    [lia| |lia|].
  { intros f Hin. apply Hp. apply in_or_app. right. apply in_or_app. now left. }
  destruct (tally p 30 importantFields (s1, m1)) as [s2 m2].
  destruct (tally p' 30 importantFields (s1', m1)) as [s2' m2'].
  simpl in H2, E2. subst m2'.
  destruct (tally_mono p p' 10 optionalFields s2 s2' m2) as [H3 E3];
    [lia| |lia|].
  { intros f Hin. apply Hp. apply in_or_app. right. apply in_or_app. now right. }
  destruct (tally p 10 optionalFields (s2, m2)) as [s3 m3].
  destruct (tally p' 10 optionalFields (s2', m2)) as [s3' m3'].
  simpl in H3, E3. subst m3'.
  destruct (m3 >? 0)%Z eqn:Hm; [|lia].
  apply roundPercent_mono; lia.
Qed.

Lemma unreached_completion (p : row) :
  (forall f, In f unreachedFields -> present p f = false) ->
  (calculateCompletionPercentage (Some p) <= 48)%Z.
Proof.
  intros Hu.
  change 48%Z with (calculateCompletionPercentage (Some reachedProfile)).
  apply completion_mono. intros f Hin Hp. simpl in Hin.
  repeat (destruct Hin as [<-|Hin];
          [first [reflexivity
                 |rewrite Hu in Hp by (simpl; tauto); discriminate Hp]|]).
  destruct Hin.
Qed.

Lemma unreached_not_pipeline f :
  In f unreachedFields -> ~ In f pipelineColumns.
Proof.
  intros Hin. simpl in Hin.
  repeat (destruct Hin as [<-|Hin];
          [intros H; simpl in H;
           repeat (destruct H as [H|H]; [discriminate H|]); destruct H|]).
  destruct Hin.
Qed.

(** The update for an extracted fragment returns, and leaves the row of one
    more step of the history. *)
Lemma extracted_update now q p message :
  exists result,
    updateFoundProfile now q p (extractInformationFromSMS message)
    = Returned result
    /\ stored result = smsStep p (now, q, message).
Proof.
  unfold smsStep, updateFoundProfile. rewrite extracted_returns.
  eexists. split; reflexivity.
Qed.

End PipelineRows.

(** X12: processing the messages of a sender writes no column besides the
    seven the extractor's keys are mapped to, the counter and timestamps,
    and the four metrics columns; in particular the phone number found in a
    message is stored nowhere, and city, state, date of birth and the
    emergency contact keep the values they had. *)
Theorem sms_history_writes_only_pipeline_columns
    (p : row) (steps : list (Z * Z * value)) (col : string) :
  ~ In col pipelineColumns -> smsHistory p steps !! col = p !! col.
Proof. apply smsHistory_other. Qed.

Lemma sms_history_writes_only_pipeline_columns_witness :
  let p := createProfile (str "p-1") (str "u-1") (str "+17025550100") in
  let steps := [(10, 50, VStr mariaMessage);
                (20, 50, VStr (str "call me at 702-555-1234, I live in Reno"))]%Z in
  ~ In "primary_phone"%string pipelineColumns
  /\ smsHistory p steps !! "primary_phone"%string = Some (VStr (str "+17025550100")).
Proof.
  intros p steps.
  assert (H : ~ In "primary_phone"%string pipelineColumns).
  { intros H. simpl in H. repeat (destruct H as [H|H]; [discriminate H|]).
    destruct H. }
  split; [exact H|].
  rewrite (sms_history_writes_only_pipeline_columns p steps _ H).
  reflexivity.
Defined.

(** X13: the profile of a sender that was created by [createProfile] and
    filled only from messages never reaches half completion: its percentage
    is at most 48, something is always missing, and its status is never
    "verified". *)
Theorem sms_profile_stays_incomplete
    (profileId userId phoneNumber : jsstring) (steps : list (Z * Z * value))
    (dataQualityScore : Z) :
  let p := smsHistory (createProfile profileId userId phoneNumber) steps in
  (calculateCompletionPercentage (Some p) <= 48)%Z
  /\ getMissingProfileInfo (Some p) <> []
  /\ verificationStatus (calculateCompletionPercentage (Some p)) dataQualityScore
     <> "verified"%string.
Proof.
  intros p.
  assert (Hu : forall f, In f unreachedFields -> present p f = false).
  { intros f Hin. subst p.
    rewrite (present_lookup _ (createProfile profileId userId phoneNumber)).
    - simpl in Hin.
      repeat (destruct Hin as [<-|Hin]; [reflexivity|]). destruct Hin.
    - apply smsHistory_other. now apply unreached_not_pipeline. }
  clearbody p.
  pose proof (unreached_completion p Hu) as Hc.
  split; [exact Hc|]. split.
  - intros Hm. unfold getMissingProfileInfo in Hm. rewrite missing_nil in Hm.
    rewrite forallb_forall in Hm.
    assert (Hcity : In "city"%string (map fst missingTable)) by (simpl; tauto).
    apply Hm in Hcity.
    rewrite Hu in Hcity by (simpl; tauto). discriminate.
  - unfold verificationStatus.
    destruct (calculateCompletionPercentage (Some p) >=? 80)%Z eqn:E.
    + rewrite Z.geb_leb in E. apply Z.leb_le in E. lia.
    + cbn [andb]. destruct (_ || _); discriminate.
Qed.

Section Guarded.

Variable lower : jsstring -> jsstring.
Variable mcpPolicy : policy.
Variable display : value -> jsstring.


End Guarded.

Section SmsOnly.

Variable lower : jsstring -> jsstring.
Variable mcpPolicy : policy.
Variable display : value -> jsstring.

Lemma unreached_created profileId userId phoneNumber :
  unreached (createProfile profileId userId phoneNumber).
Proof.
  intros f Hin. simpl in Hin.
  repeat (destruct Hin as [<-|Hin]; [reflexivity|]). destruct Hin.
Qed.

Lemma unreached_step p step : unreached p -> unreached (smsStep p step).
Proof.
  intros Hu f Hin. rewrite (present_lookup _ p); [now apply Hu|].
  apply smsStep_other. now apply unreached_not_pipeline.
Qed.

Lemma unreached_history steps : forall p,
  unreached p -> unreached (smsHistory p steps).
Proof.
  unfold smsHistory. induction steps as [|s steps IH]; intros p Hu; simpl; auto.
  apply IH, unreached_step, Hu.
Qed.

Lemma completion_stored p :
  calculateCompletionPercentage (Some (storeCompletion p))
  = calculateCompletionPercentage (Some p).
Proof.
  apply Z.le_antisymm; apply completion_mono; intros f Hin Hp;
    rewrite <- Hp; [symmetry|]; apply present_lookup;
    apply storeCompletion_other; intros ->; simpl in Hin;
    repeat (destruct Hin as [Hin|Hin]; [discriminate Hin|]); destruct Hin.
Qed.

Lemma Returned_inj {A : Type} (a b : A) : Returned a = Returned b -> a = b.
Proof. intros H. injection H. auto. Qed.

Lemma update_completion now q p extractedData result :
  updateFoundProfile now q p extractedData = Returned result ->
  completionPercentage result
  = calculateCompletionPercentage (Some (stored result)).
Proof.
  unfold updateFoundProfile.
  destruct (updateProfileData now p extractedData) as [updated|];
    [|discriminate].
  intros H. apply Returned_inj in H. subst result.
  cbn [completionPercentage stored]. now rewrite completion_stored.
Qed.

Lemma generateAIResponse_below_half extractedData result :
  (completionPercentage result < 50)%Z ->
  generateAIResponse display extractedData (Some result) = fallbackReply.
Proof.
  intros H. unfold generateAIResponse. cbv zeta.
  apply Z.ltb_lt in H. rewrite H. reflexivity.
Qed.

Lemma generateAIResponse_nothing :
  generateAIResponse display ∅ None = (thanksText ++ servicesText)%list.
Proof. reflexivity. Qed.

Lemma questions_not_complete p stage :
  getMissingProfileInfo (Some p) <> [] ->
  ~ In completeText (generateNextQuestions (Some p) stage).
Proof.
  intros Hm. unfold generateNextQuestions.
  destruct (getMissingProfileInfo (Some p)) as [|next missing]; [congruence|].
  clear Hm. cbv zeta.
  repeat match goal with
         | |- context [if ?b then _ else _] =>
             match type of b with bool => destruct b end
         end;
    cbn [In]; intros [X|X]; try contradiction; vm_compute in X; discriminate X.
Qed.

Lemma unreached_missing p : unreached p -> getMissingProfileInfo (Some p) <> [].
Proof.
  intros Hu Hm. unfold getMissingProfileInfo in Hm. rewrite missing_nil in Hm.
  rewrite forallb_forall in Hm.
  assert (Hcity : In "city"%string (map fst missingTable)) by (simpl; tauto).
  apply Hm in Hcity. rewrite Hu in Hcity by (simpl; tauto). discriminate.
Qed.

Lemma processed_passed reachable now q pid uid phone found message :
  s_action (fst (processSMSMessage lower mcpPolicy display reachable now q pid
                   uid phone found message)) = "processed"%string ->
  (String.eqb (r_action (checkMCPGuardrails lower mcpPolicy reachable (VStr message)))
     "block"
   || String.eqb (r_action (checkMCPGuardrails lower mcpPolicy reachable (VStr message)))
        "redirect") = false.
Proof.
  unfold processSMSMessage.
  destruct (String.eqb _ "block") eqn:E1; cbn [orb].
  - cbn. apply String.eqb_eq in E1. rewrite E1. discriminate.
  - destruct (String.eqb _ "redirect") eqn:E2; [|reflexivity].
    cbn. apply String.eqb_eq in E2. rewrite E2. discriminate.
Qed.

End SmsOnly.

(** X15: a sender whose row was created by [createProfile] and written only
    by this pipeline gets one of two replies to a processed message: the
    fixed fallback text when something was extracted, the plain greeting
    otherwise.  The name, the ZIP code and the missing-field question never
    appear in it, the closing acknowledgment is never among the next
    questions, and the row stays one written only by the pipeline. *)
Theorem sms_only_sender_reply
    (lower : jsstring -> jsstring) (mcpPolicy : policy)
    (display : value -> jsstring)
    (reachable : bool) (now dataQualityScore : Z)
    (profileId userId phoneNumber : jsstring)
    (history : option (list (Z * Z * value))) (message : jsstring) :
  let created := createProfile profileId userId phoneNumber in
  let found := option_map (smsHistory created) history in
  let res := processSMSMessage lower mcpPolicy display reachable now
               dataQualityScore profileId userId phoneNumber found message in
  let extracted := extractInformationFromSMS (VStr message) in
  s_action (fst res) = "processed"%string ->
  reply (fst res)
  = Some (if (0 <? size extracted)%nat then fallbackReply
          else (thanksText ++ servicesText)%list)
  /\ ~ In completeText (nextQuestions (fst res))
  /\ (snd res = found
      \/ snd res
         = Some (smsHistory created
                   (default [] history ++ [(now, dataQualityScore, VStr message)]))).
Proof.
  intros created found res extracted Hp. subst res.
  apply processed_passed in Hp. unfold processSMSMessage. rewrite Hp.
  cbv zeta. fold extracted. unfold createOrUpdateProfileFromSMS.
  destruct (extracted_update now dataQualityScore
              (foundOrCreated profileId userId phoneNumber found)
              (VStr message)) as (result & Hres & Hstored).
  fold extracted in Hres. rewrite Hres.
  destruct (0 <? size extracted)%nat eqn:Hs.
  - assert (Hstep :
      stored result
      = smsHistory created
          (default [] history ++ [(now, dataQualityScore, VStr message)])).
    { rewrite Hstored. unfold smsHistory. rewrite fold_left_app.
      cbn [fold_left]. subst found. destruct history; reflexivity. }
    assert (Hu : unreached (stored result)).
    { rewrite Hstep. apply unreached_history, unreached_created. }
    cbn [fst snd reply nextQuestions]. split; [|split].
    + f_equal. apply generateAIResponse_below_half.
      rewrite (update_completion _ _ _ _ _ Hres).
      pose proof (unreached_completion _ Hu). lia.
    + apply questions_not_complete, unreached_missing, Hu.
    + right. now rewrite Hstep.
  - cbn [fst snd reply nextQuestions]. split; [|split].
    + f_equal. apply Nat.ltb_ge in Hs.
      assert (E : extracted = ∅) by (apply map_size_empty_iff; lia).
      rewrite E. reflexivity.
    + intros [].
    + now left.
Qed.

Lemma sms_only_sender_reply_witness :
  let res := processSMSMessage toLowerCase examplePolicy (fun _ => [])
               false 10 50 (str "p-1") (str "u-1") (str "+17025550100")
               None mariaMessage in
  s_action (fst res) = "processed"%string
  /\ reply (fst res) = Some fallbackReply.
Proof.
  intros res.
  assert (H : s_action (fst res) = "processed"%string) by reflexivity.
  split; [exact H|].
  destruct (sms_only_sender_reply toLowerCase examplePolicy (fun _ => [])
              false 10 50 (str "p-1") (str "u-1") (str "+17025550100")
              None mariaMessage H) as (Hr & _).
  exact Hr.
Defined.

(** X16: whatever the profile, when the completion returned for it is below
    50 the reply of a processed message is the fixed fallback text: the
    question for the first missing field is built on a service without a
    database, whose query throws. *)
Theorem reply_below_half_is_fallback
    (lower : jsstring -> jsstring) (mcpPolicy : policy)
    (display : value -> jsstring)
    (reachable : bool) (now dataQualityScore : Z)
    (profileId userId phoneNumber : jsstring)
    (found : option row) (message : jsstring) (result : profileUpdate) :
  let res := processSMSMessage lower mcpPolicy display reachable now
               dataQualityScore profileId userId phoneNumber found message in
  s_profileResult (fst res) = Some result ->
  (completionPercentage result < 50)%Z ->
  reply (fst res) = Some fallbackReply.
Proof.
  intros res Hr Hc. subst res. unfold processSMSMessage in *.
  destruct (_ || _); [discriminate Hr|]. cbv zeta in *.
  destruct (0 <? size _)%nat;
    [destruct (createOrUpdateProfileFromSMS _ _ _ _ _ _ _)|];
    cbn [fst reply s_profileResult] in *; try discriminate Hr.
  rewrite Hr. f_equal. now apply generateAIResponse_below_half.
Qed.

Lemma reply_below_half_is_fallback_witness :
  let found :=
    Some (<["city" := VStr (str "Reno")]>
            (createProfile (str "p-1") (str "u-1") (str "+17025550100"))) in
  let res := processSMSMessage toLowerCase examplePolicy (fun _ => [])
               false 10 50 (str "p-1") (str "u-1") (str "+17025550100")
               found mariaMessage in
  exists result,
    s_profileResult (fst res) = Some result
    /\ (completionPercentage result < 50)%Z
    /\ reply (fst res) = Some fallbackReply.
Proof.
  intros found res.
  eassert (H1 : s_profileResult (fst res) = Some _) by reflexivity.
  match type of H1 with
  | _ = Some ?result =>
      assert (H2 : (completionPercentage result < 50)%Z)
        by (vm_compute; reflexivity);
      exists result
  end.
  split; [exact H1|]. split; [exact H2|].
  exact (reply_below_half_is_fallback toLowerCase examplePolicy (fun _ => [])
           false 10 50 (str "p-1") (str "u-1") (str "+17025550100")
           found mariaMessage _ H1 H2).
Defined.

Section Status.

Lemma geb_cases (a b : Z) :
  ((a >=? b)%Z = true /\ (b <= a)%Z) \/ ((a >=? b)%Z = false /\ (a < b)%Z).
Proof. rewrite Z.geb_leb. destruct (Z.leb_spec b a); auto. Qed.

End Status.

(** X17: the verification status never goes down when the completion and the
    data quality score do not: with the order unverified, partial,
    verified, the status is monotone in both. *)
Theorem verification_status_monotone
    (completion completion' quality quality' : Z) :
  (completion <= completion')%Z -> (quality <= quality')%Z ->
  (statusRank (verificationStatus completion quality)
   <= statusRank (verificationStatus completion' quality'))%nat.
Proof.
  intros Hc Hq. unfold verificationStatus.
  destruct (geb_cases completion 80) as [[-> ?]|[-> ?]];
    destruct (geb_cases completion' 80) as [[-> ?]|[-> ?]];
    destruct (geb_cases quality 80) as [[-> ?]|[-> ?]];
    destruct (geb_cases quality' 80) as [[-> ?]|[-> ?]];
    destruct (geb_cases completion 50) as [[-> ?]|[-> ?]];
    destruct (geb_cases completion' 50) as [[-> ?]|[-> ?]];
    destruct (geb_cases quality 60) as [[-> ?]|[-> ?]];
    destruct (geb_cases quality' 60) as [[-> ?]|[-> ?]];
    cbn; lia.
Qed.

Lemma verification_status_monotone_witness :
  (27 <= 85)%Z /\ (50 <= 90)%Z
  /\ (statusRank (verificationStatus 27 50)
      <= statusRank (verificationStatus 85 90))%nat.
Proof.
  assert (H1 : (27 <= 85)%Z) by lia.
  assert (H2 : (50 <= 90)%Z) by lia.
  split; [exact H1|]. split; [exact H2|].
  exact (verification_status_monotone 27 85 50 90 H1 H2).
Defined.

Section MergeOrder.

(** A column that is not a counter or a timestamp, after an accepted
    UPDATE. *)
Lemma update_column now profile fragment col :
  isMeta col = false ->
  applyUpdate now profile fragment !! col
  = match (list_to_map (columnUpdates fragment) : row) !! col with
    | Some v => Some v
    | None => profile !! col
    end.
Proof.
  intros Hm.
  destruct (columnUpdates fragment) as [|e l] eqn:E.
  - unfold applyUpdate. rewrite E. reflexivity.
  - rewrite update_lookup by (auto; congruence). rewrite E.
    rewrite lookup_union.
    destruct (list_to_map (e :: l) !! col), (profile !! col); reflexivity.
Qed.

(** The counter after an accepted UPDATE. *)
Lemma update_counter now profile fragment :
  applyUpdate now profile fragment !! "sms_conversation_count"%string
  = match columnUpdates fragment with
    | [] => profile !! "sms_conversation_count"%string
    | _ => sqlIncrement (profile !! "sms_conversation_count"%string)
    end.
Proof.
  unfold applyUpdate.
  destruct (columnUpdates fragment) as [|e l]; [reflexivity|].
  destruct (sqlIncrement _).
  - apply lookup_insert_eq.
  - apply lookup_delete_eq.
Qed.

End MergeOrder.

(** X18: two fragments that set no column in common can be merged in either
    order: the two rows agree on every column except the two timestamps,
    the counter included. *)
Theorem disjoint_merges_commute
    (now1 now2 : Z) (profile : row) (fragment1 fragment2 : object)
    (col : string) :
  (forall c v1 v2, sets fragment1 c v1 -> sets fragment2 c v2 -> False) ->
  col <> "updated_at"%string -> col <> "last_updated_via_sms"%string ->
  updatedRow now2 (updatedRow now1 profile fragment1) fragment2 !! col
  = updatedRow now1 (updatedRow now2 profile fragment2) fragment1 !! col.
Proof.
  intros Hd H1 H2. rewrite !updatedRow_cases.
  destruct (setsInherited fragment1), (setsInherited fragment2);
    try reflexivity.
  destruct (String.eqb_spec col "sms_conversation_count") as [->|H3].
  - rewrite !update_counter.
    destruct (columnUpdates fragment1), (columnUpdates fragment2); reflexivity.
  - assert (Hm : isMeta col = false).
    { unfold isMeta, metaColumns. cbn [existsb]. rewrite !orb_false_iff.
      repeat split; try reflexivity; now apply String.eqb_neq. }
    rewrite !update_column by exact Hm.
    destruct (list_to_map (columnUpdates fragment1) !! col) as [v1|] eqn:E1;
      destruct (list_to_map (columnUpdates fragment2) !! col) as [v2|] eqn:E2;
      try reflexivity.
    apply assigned_lookup in E1, E2. destruct (Hd _ _ _ E1 E2).
Qed.

Lemma disjoint_merges_commute_witness :
  let profile := createProfile (str "p-1") (str "u-1") (str "+17025550100") in
  let fragment1 : object := {[ "firstName"%string := VStr (str "Ann") ]} in
  let fragment2 : object := {[ "zipCode"%string := VStr (str "89101") ]} in
  (forall c v1 v2, sets fragment1 c v1 -> sets fragment2 c v2 -> False)
  /\ updatedRow 20 (updatedRow 10 profile fragment1) fragment2
       !! "first_name"%string
     = updatedRow 10 (updatedRow 20 profile fragment2) fragment1
         !! "first_name"%string.
Proof.
  intros profile fragment1 fragment2.
  assert (H : forall c v1 v2,
             sets fragment1 c v1 -> sets fragment2 c v2 -> False).
  { intros c v1 v2 (k1 & M1 & F1 & _) (k2 & M2 & F2 & _).
    apply lookup_singleton_Some in F1 as [<- _].
    apply lookup_singleton_Some in F2 as [<- _].
    vm_compute in M1, M2. congruence. }
  split; [exact H|].
  apply (disjoint_merges_commute 10 20 profile fragment1 fragment2
           "first_name" H); discriminate.
Defined.

(** X23: a fragment that holds a value under a name inherited from
    [Object.prototype], such as "constructor" or "toString", makes the call
    throw, whatever else it holds, and leaves the row as it was. *)
Theorem inherited_key_refuses_update
    (now : Z) (profile : row) (fragment : object) :
  setsInherited fragment = true ->
  updateProfileData now profile fragment = Threw "DatabaseError"%string
  /\ updatedRow now profile fragment = profile.
Proof.
  intros H. rewrite updatedRow_cases, updateProfileData_cases, H. auto.
Qed.

Lemma inherited_key_refuses_update_witness :
  setsInherited inheritedFragment = true
  /\ updateProfileData 100 countedProfile inheritedFragment
     = Threw "DatabaseError"%string
  /\ updatedRow 100 countedProfile inheritedFragment = countedProfile.
Proof.
  assert (H : setsInherited inheritedFragment = true) by (vm_compute; reflexivity).
  split; [exact H|].
  exact (inherited_key_refuses_update 100 countedProfile inheritedFragment H).
Defined.

Section FlagObjects.

Import Flags.

Lemma get_set o k v k' :
  get (set o k v) k' = if String.eqb k k' then Some v else get o k'.
Proof.
  induction o as [|[k0 v0] o IH]; simpl.
  - reflexivity.
  - destruct (String.eqb_spec k0 k) as [->|N]; simpl.
    + destruct (String.eqb k k'); reflexivity.
    + rewrite IH. destruct (String.eqb_spec k0 k') as [->|N'].
      * destruct (String.eqb_spec k k'); congruence.
      * reflexivity.
Qed.

Lemma keys_set o k v :
  In k (map fst o) -> map fst (set o k v) = map fst o.
Proof.
  induction o as [|[k0 v0] o IH]; simpl; [tauto|].
  intros [->|Hin].
  - rewrite String.eqb_refl. reflexivity.
  - destruct (String.eqb k0 k); simpl; [reflexivity|]. now rewrite IH.
Qed.

Lemma get_None o k : get o k = None <-> ~ In k (map fst o).
Proof.
  induction o as [|[k0 v0] o IH]; simpl; [tauto|].
  destruct (String.eqb_spec k0 k) as [->|N].
  - split; [discriminate|tauto].
  - rewrite IH. tauto.
Qed.

Lemma get_In o k v : List.NoDup (map fst o) -> (get o k = Some v <-> In (k, v) o).
Proof.
  induction o as [|[k0 v0] o IH]; simpl; intros ND.
  - split; [discriminate|tauto].
  - apply List.NoDup_cons_iff in ND as [Hn ND].
    destruct (String.eqb_spec k0 k) as [->|N].
    + split.
      * intros [= ->]. now left.
      * intros [[= ->]|Hin]; [reflexivity|].
        exfalso. apply Hn. now apply (in_map fst) in Hin.
    + rewrite IH by exact ND. split; [tauto|].
      intros [[= ? ?]|Hin]; [congruence|exact Hin].
Qed.

(** Later properties of a spread win. *)
Lemma get_spread over : forall o k,
  List.NoDup (map fst over) ->
  get (spread o over) k
  = match get over k with Some b => Some b | None => get o k end.
Proof.
  unfold spread. induction over as [|[k0 v0] over IH]; intros o k ND; simpl.
  - reflexivity.
  - apply List.NoDup_cons_iff in ND as [Hn ND]. rewrite IH by exact ND.
    rewrite get_set.
    destruct (String.eqb_spec k0 k) as [->|N].
    + simpl in Hn. apply get_None in Hn. now rewrite Hn.
    + reflexivity.
Qed.

Variable env : string -> option jsstring.

Lemma env_keys keys : forall o,
  (forall k, In k keys -> In k (map fst o)) ->
  map fst (fold_left (override env) keys o) = map fst o.
Proof.
  induction keys as [|k keys IH]; intros o Hin; simpl; [reflexivity|].
  assert (E : map fst (override env o k) = map fst o).
  { unfold override. destruct (env k); [|reflexivity].
    apply keys_set, Hin. now left. }
  rewrite IH; [exact E|]. intros k' Hk'. rewrite E. apply Hin. now right.
Qed.

Lemma env_get keys : forall o k,
  In k keys ->
  get (fold_left (override env) keys o) k
  = match env k with
    | Some v => Some (bool_decide (v = str "true"))
    | None => get o k
    end.
Proof.
  induction keys as [|k0 keys IH]; intros o k Hin; simpl; [destruct Hin|].
  destruct (in_dec string_dec k keys) as [Hk|Hk].
  - rewrite IH by exact Hk. destruct (env k) eqn:E; [reflexivity|].
    unfold override. destruct (env k0) eqn:E0; [|reflexivity].
    rewrite get_set. destruct (String.eqb_spec k0 k); [congruence|reflexivity].
  - destruct Hin as [->|Hin]; [|contradiction].
    assert (G : forall o', get (fold_left (override env) keys o') k = get o' k).
    { clear IH. induction keys as [|k1 keys IH']; intros o'; simpl; [reflexivity|].
      rewrite IH' by (intros X; apply Hk; now right).
      unfold override. destruct (env k1); [|reflexivity].
      rewrite get_set. destruct (String.eqb_spec k1 k) as [->|]; [|reflexivity].
      exfalso. apply Hk. now left. }
    rewrite G. unfold override. destruct (env k); [|reflexivity].
    rewrite get_set, String.eqb_refl. reflexivity.
Qed.

Lemma phase_keys currentPhase :
  map fst (spread (spread [] BASE_FLAGS) (PHASE_OVERRIDES currentPhase))
  = map fst BASE_FLAGS.
Proof.
  unfold PHASE_OVERRIDES.
  destruct (String.eqb currentPhase "testing"); [reflexivity|].
  destruct (String.eqb currentPhase "onlinetest"); [reflexivity|].
  destruct (String.eqb currentPhase "live"); reflexivity.
Qed.

Lemma overrides_NoDup currentPhase :
  List.NoDup (map fst (PHASE_OVERRIDES currentPhase)).
Proof.
  unfold PHASE_OVERRIDES.
  destruct (String.eqb currentPhase "testing");
    [|destruct (String.eqb currentPhase "onlinetest");
      [|destruct (String.eqb currentPhase "live")]];
    repeat (apply List.NoDup_cons; [simpl; intuition discriminate|]);
    apply List.NoDup_nil.
Qed.

Lemma flag_keys currentPhase :
  map fst (getFeatureFlags currentPhase env) = map fst BASE_FLAGS.
Proof.
  unfold getFeatureFlags. cbv zeta.
  rewrite env_keys by auto. apply phase_keys.
Qed.

Lemma flag_get currentPhase k :
  get (getFeatureFlags currentPhase env) k
  = if bool_decide (In k (map fst BASE_FLAGS)) then
      match env k with
      | Some v => Some (bool_decide (v = str "true"))
      | None =>
          match get (PHASE_OVERRIDES currentPhase) k with
          | Some b => Some b
          | None => get BASE_FLAGS k
          end
      end
    else None.
Proof.
  destruct (bool_decide_reflect (In k (map fst BASE_FLAGS))) as [Hin|Hn].
  - unfold getFeatureFlags. cbv zeta.
    rewrite env_get by (rewrite phase_keys; exact Hin).
    destruct (env k); [reflexivity|].
    rewrite get_spread by apply overrides_NoDup.
    destruct (get (PHASE_OVERRIDES currentPhase) k); reflexivity.
  - apply get_None. now rewrite flag_keys.
Qed.

End FlagObjects.

(** X19: the environment cannot add or remove a flag: for every phase name and
    every environment the flags object has the keys of [BASE_FLAGS], in
    their order. *)
Theorem feature_flags_keep_base_keys
    (currentPhase : string) (env : string -> option jsstring) :
  map fst (Flags.getFeatureFlags currentPhase env) = map fst Flags.BASE_FLAGS.
Proof. apply flag_keys. Qed.

(** X20: precedence of the three sources of a flag.  The middleware lets a
    request through exactly when the feature is a key of [BASE_FLAGS] and
    either its environment variable is the string "true", or the variable
    is not set and the phase override, or without one the base value, is
    true.  Any other value of the variable ("TRUE", "1", the empty string)
    turns the feature off. *)
Theorem require_feature_precedence
    (currentPhase : string) (env : string -> option jsstring)
    (featureName : string) :
  Flags.requireFeature currentPhase env featureName = Flags.Next
  <-> In featureName (map fst Flags.BASE_FLAGS)
      /\ match env featureName with
         | Some v => v = str "true"
         | None =>
             match Flags.get (Flags.PHASE_OVERRIDES currentPhase) featureName with
             | Some b => b = true
             | None => Flags.get Flags.BASE_FLAGS featureName = Some true
             end
         end.
Proof.
  unfold Flags.requireFeature, Flags.isFeatureEnabled. cbv zeta.
  rewrite flag_get.
  destruct (bool_decide_reflect (In featureName (map fst Flags.BASE_FLAGS)))
    as [Hin|Hn].
  - destruct (env featureName) as [v|].
    + destruct (bool_decide_reflect (v = str "true")); cbn [negb];
        intuition (try discriminate; try congruence).
    + destruct (Flags.get (Flags.PHASE_OVERRIDES currentPhase) featureName)
        as [[|]|]; [| |destruct (Flags.get Flags.BASE_FLAGS featureName)
                         as [[|]|]];
        cbn [negb]; intuition (try discriminate; try congruence).
  - cbn [negb]. split; [discriminate|tauto].
Qed.

Section Partition.

Import Flags.

Lemma base_keys_prefixed k :
  In k (map fst BASE_FLAGS) -> startsWith (str "FEATURE_") (str k) = true.
Proof.
  intros Hin. simpl in Hin.
  repeat (destruct Hin as [<-|Hin]; [reflexivity|]). destruct Hin.
Qed.

Lemma base_keys_NoDup : List.NoDup (map fst BASE_FLAGS).
Proof.
  simpl. repeat (apply List.NoDup_cons; [simpl; intuition discriminate|]).
  apply List.NoDup_nil.
Qed.

Lemma listed_keys (o : flags) (sel : bool -> bool) (want : bool) (k : string) :
  (forall v, sel v = true <-> v = want) ->
  List.NoDup (map fst o) ->
  (forall k', In k' (map fst o) -> startsWith (str "FEATURE_") (str k') = true) ->
  In k (map key
          (flat_map
             (fun '(key, v) =>
                if sel v && startsWith (str "FEATURE_") (str key)
                then [{| key := key; name := featureName key; enabled := want |}]
                else [])
             o))
  <-> get o k = Some want.
Proof.
  intros Hsel ND Hp. rewrite get_In by exact ND.
  rewrite in_map_iff. split.
  - intros (f & <- & Hin). apply in_flat_map in Hin as ([k0 v0] & Hin & Hf).
    destruct (sel v0) eqn:Hv; [|destruct Hf]. apply Hsel in Hv as ->.
    cbn [andb] in Hf. destruct (startsWith _ _); [|destruct Hf].
    destruct Hf as [<-|[]]. exact Hin.
  - intros Hin. exists {| key := k; name := featureName k; enabled := want |}.
    split; [reflexivity|]. apply in_flat_map. exists (k, want).
    split; [exact Hin|].
    assert (Hw : sel want = true) by now apply Hsel.
    rewrite Hw. cbn [andb].
    rewrite Hp by (apply (in_map fst) in Hin; exact Hin). now left.
Qed.

Lemma flags_NoDup currentPhase env :
  List.NoDup (map fst (getFeatureFlags currentPhase env)).
Proof. rewrite flag_keys. apply base_keys_NoDup. Qed.

Lemma flags_prefixed currentPhase env k :
  In k (map fst (getFeatureFlags currentPhase env)) ->
  startsWith (str "FEATURE_") (str k) = true.
Proof. rewrite flag_keys. apply base_keys_prefixed. Qed.

End Partition.

(** X21: the two lists of the client configuration partition the flags: a
    key is listed as enabled exactly when [isFeatureEnabled] holds for it,
    as coming soon exactly when it is a flag and [isFeatureEnabled] does
    not hold, and never as both. *)
Theorem client_config_partitions_flags
    (currentPhase : string) (env : string -> option jsstring) (k : string) :
  let config := Flags.getClientFeatureConfig currentPhase env in
  (In k (Flags.enabledKeys config)
   <-> Flags.isFeatureEnabled currentPhase env k = true)
  /\ (In k (Flags.comingSoon config)
      <-> In k (map fst Flags.BASE_FLAGS)
          /\ Flags.isFeatureEnabled currentPhase env k = false)
  /\ ~ (In k (Flags.enabledKeys config) /\ In k (Flags.comingSoon config)).
Proof.
  intros config. subst config.
  unfold Flags.getClientFeatureConfig, Flags.getEnabledFeatures,
    Flags.getComingSoonFeatures, Flags.isFeatureEnabled.
  cbv zeta. cbn [Flags.enabledKeys Flags.comingSoon].
  pose proof (listed_keys (Flags.getFeatureFlags currentPhase env)
                (fun v => v) true k (fun v => conj (fun H => H) (fun H => H))
                (flags_NoDup currentPhase env)
                (flags_prefixed currentPhase env)) as He.
  pose proof (listed_keys (Flags.getFeatureFlags currentPhase env)
                negb false k
                (fun v => conj (proj1 (negb_true_iff v)) (proj2 (negb_true_iff v)))
                (flags_NoDup currentPhase env)
                (flags_prefixed currentPhase env)) as Hc.
  cbv beta in He. rewrite He, Hc.
  pose proof (get_None (Flags.getFeatureFlags currentPhase env) k) as Hn.
  rewrite flag_keys in Hn.
  destruct (Flags.get (Flags.getFeatureFlags currentPhase env) k) as [[|]|].
  - intuition (try discriminate; try congruence).
  - assert (In k (map fst Flags.BASE_FLAGS)).
    { destruct (in_dec string_dec k (map fst Flags.BASE_FLAGS)) as [H|H]; auto.
      apply Hn in H. discriminate. }
    intuition (try discriminate; try congruence).
  - assert (~ In k (map fst Flags.BASE_FLAGS)) by now apply Hn.
    intuition (try discriminate; try congruence).
Qed.

Section FeatureNames.

Import Flags.

Lemma upperUnit_not_underscore c : c <> 95 -> upperUnit c <> 95.
Proof.
  intros Hc. unfold upperUnit, isLower, between.
  destruct (97 <=? c) eqn:E1; [|exact Hc].
  destruct (c <=? 122) eqn:E2; [|exact Hc].
  cbn [andb]. apply N.leb_le in E1, E2. lia.
Qed.

Lemma capitalize_not_underscore s : forall prev,
  ~ In 95 s -> ~ In 95 (capitalize prev s).
Proof.
  induction s as [|c s IH]; intros prev Hn; [exact Hn|].
  cbn [capitalize]. intros [H|H].
  - assert (Hc : c <> 95) by (intros ->; apply Hn; now left).
    destruct (isWordChar c && negb (isWordO prev)).
    + now apply upperUnit_not_underscore in Hc.
    + congruence.
  - apply (IH (Some c)); [|exact H]. intros X. apply Hn. now right.
Qed.

End FeatureNames.

(** X22: the readable name of a flag, whatever its key, contains no
    underscore. *)
Theorem feature_name_has_no_underscore (key : string) :
  ~ In 95 (Flags.featureName key).
Proof.
  unfold Flags.featureName. apply capitalize_not_underscore.
  intros H. apply in_map_iff in H as (c & Hc & _).
  destruct (N.eqb_spec c 95); [discriminate|contradiction].
Qed.

(** X24: the malformed input that is handled.  On the empty message
    [classifyContent] returns the "unknown" classification, provided no
    configured phrase is the empty string; the [/process] route answers
    INVALID_INPUT to the empty message and to a message that is not a string,
    before it classifies; [extractInformationFromSMS] returns the empty
    object on both. *)
Theorem malformed_input_degrades (mcpPolicy : policy) (message : value) :
  ~ In [] (phrases mcpPolicy) ->
  isString message = false ->
  classifyContent toLowerCase mcpPolicy (VStr []) = Returned unknownResult
  /\ processRoute toLowerCase mcpPolicy (VStr []) = InvalidInput
  /\ processRoute toLowerCase mcpPolicy message = InvalidInput
  /\ extractInformationFromSMS (VStr []) = ∅
  /\ extractInformationFromSMS message = ∅.
Proof.
  intros Hne Hs. unfold phrases in Hne.
  repeat rewrite in_app_iff in Hne.
  assert (Hi : invalidInput message = true).
  { destruct message; try discriminate Hs; unfold invalidInput;
      apply orb_true_r. }
  repeat split.
  - unfold classifyContent, classifyString. simpl toLowerCase.
    rewrite !some_nil; [reflexivity|..]; try tauto.
    repeat rewrite in_app_iff. tauto.
  - unfold processRoute. now rewrite Hi.
  - destruct message; try reflexivity; discriminate Hs.
Qed.

Lemma malformed_input_degrades_witness :
  ~ In [] (phrases examplePolicy)
  /\ isString VNull = false
  /\ classifyContent toLowerCase examplePolicy (VStr []) = Returned unknownResult
  /\ processRoute toLowerCase examplePolicy VNull = InvalidInput
  /\ extractInformationFromSMS VNull = ∅.
Proof.
  assert (H1 : ~ In [] (phrases examplePolicy)).
  { simpl. intros H. repeat destruct H as [H|H]; try discriminate H; auto. }
  assert (H2 : isString VNull = false) by reflexivity.
  destruct (malformed_input_degrades examplePolicy VNull H1 H2)
    as (R1 & _ & R2 & _ & R3).
  split; [exact H1|]. split; [exact H2|]. split; [exact R1|].
  split; [exact R2|exact R3].
Defined.
